(** * Deterministic lockstep demo: command distribution, transport,
      unit movement, command processing, game loop and start-up, embedded
      from the TypeScript sources.

    Layout: the data model and the operations of every component come
    first (modules [Dec], [Cmd], [Mgr], [Net], [Sim], [Obj], [Wire],
    [Loop], [Boot], [Metric]); the theorems about them follow in the
    second half of the file ([MgrFacts], [NetFacts], [DecFacts],
    [SimFacts], [ObjFacts], [ManagerProperties], [TransportProperties],
    [UnitProperties], [LoopFacts], [BootFacts], [RealFacts], [DecBounds],
    [Course]). *)

From Stdlib Require Import ZArith NArith QArith Lia List.
From Stdlib Require Import Strings.String Strings.Ascii Numbers.DecimalString.
From Stdlib Require Import Sorting.Sorted.
From Stdlib Require Import Numbers.DecimalPos Numbers.DecimalN.
From Stdlib Require Reals Lra.
From stdpp Require Import gmap list sets sorting.

Local Open Scope Z_scope.

(* ===================================================================== *)
(** * Decimal values (decimal.js, default configuration)                  *)
(* ===================================================================== *)

(** The sources import [Decimal] from decimal.js, a dependency that is not
    part of the repository and that the sources never configure.  This
    module follows the documented behaviour of the library at its defaults:
    a finite [Decimal] is a coefficient and a power of ten, kept without
    trailing zeros; the constructor does not round; [plus], [minus], [mul],
    [div] and [sqrt] return the exact result rounded to [precision] = 20
    significant digits with rounding mode 4 (half up: to the nearest, ties
    away from zero); comparisons are by value.  Non-finite results (NaN,
    the infinities) and the exponent limits are outside this model: an
    operation that would produce NaN or an infinity returns [None]. *)
Module Dec.

Record Decimal := mkDec { coeff : Z; expo : Z }.

Definition precision : Z := 20.

#[global] Instance Decimal_eq_dec : EqDecision Decimal.
Proof. solve_decision. Defined.

(** Removal of trailing zeros. *)
Fixpoint strip_zeros (fuel : nat) (m e : Z) : Decimal :=
  match fuel with
  | O => mkDec m e
  | S f => if m mod 10 =? 0 then strip_zeros f (m / 10) (e + 1) else mkDec m e
  end.

Definition normalize (m e : Z) : Decimal :=
  if m =? 0 then mkDec 0 0
  else strip_zeros (Z.to_nat (Z.log2 (Z.abs m))) m e.

(** Number of decimal digits of a non-negative integer (1 for 0). *)
Fixpoint count_digits (fuel : nat) (n : Z) : Z :=
  match fuel with
  | O => 1
  | S f => if n <? 10 then 1 else 1 + count_digits f (n / 10)
  end.

Definition ndigits (m : Z) : Z :=
  count_digits (Z.to_nat (Z.log2 (Z.abs m))) (Z.abs m).

(** Rounding of [m * 10^e] to [precision] significant digits, half up. *)
Definition round_sig (m e : Z) : Decimal :=
  let n := ndigits m in
  if n <=? precision then normalize m e
  else
    let sh := n - precision in
    let q := Z.abs m / 10 ^ sh in
    let low := Z.abs m mod 10 ^ sh in
    let q' := if 10 ^ sh <=? 2 * low then q + 1 else q in
    normalize (Z.sgn m * q') (e + sh).

(** [new Decimal(n)] for an integer [n]. *)
Definition of_Z (n : Z) : Decimal := normalize n 0.

(** Coefficients of two values over their common (smaller) exponent. *)
Definition align (x y : Decimal) : Z * Z * Z :=
  let e := Z.min (expo x) (expo y) in
  (coeff x * 10 ^ (expo x - e), coeff y * 10 ^ (expo y - e), e).

Definition plus (x y : Decimal) : Decimal :=
  let '(a, b, e) := align x y in round_sig (a + b) e.

Definition minus (x y : Decimal) : Decimal :=
  let '(a, b, e) := align x y in round_sig (a - b) e.

Definition mul (x y : Decimal) : Decimal :=
  round_sig (coeff x * coeff y) (expo x + expo y).

(** The quotient is computed with more than [precision] digits and then
    rounded, so the digits cut off by the integer division cannot change
    the half-up decision. *)
Definition div (x y : Decimal) : option Decimal :=
  if coeff y =? 0 then None
  else
    let k := precision + ndigits (coeff y) in
    let q := (Z.abs (coeff x) * 10 ^ k) / Z.abs (coeff y) in
    Some (round_sig (Z.sgn (coeff x) * Z.sgn (coeff y) * q) (expo x - expo y - k)).

(** [Decimal.sqrt]: the correctly rounded square root. *)
Definition sqrt (x : Decimal) : option Decimal :=
  if coeff x <? 0 then None
  else
    let '(m, e) :=
      if Z.even (expo x) then (coeff x, expo x) else (coeff x * 10, expo x - 1) in
    Some (round_sig (Z.sqrt (m * 10 ^ (2 * precision))) (e / 2 - precision)).

Definition lessThanOrEqualTo (x y : Decimal) : bool :=
  let '(a, b, _) := align x y in a <=? b.

(** The rational value, for statements about magnitudes. *)
Definition to_Q (x : Decimal) : Q :=
  if 0 <=? expo x then inject_Z (coeff x * 10 ^ expo x)
  else (inject_Z (coeff x) / inject_Z (10 ^ (- expo x)))%Q.

End Dec.

(* ===================================================================== *)
(** * Commands (core/command/commands.ts, core/state/point.ts)            *)
(* ===================================================================== *)

Module Cmd.
Import Dec.

Record Point2D := mkPoint { px : Decimal; py : Decimal }.

(** [Command = NoopCommand | MoveCommand], both tagged with the issuing
    player id. *)
Inductive Command :=
| Noop (playerId : N)
| Move (playerId : N) (entityId : N) (point : Point2D).

#[global] Instance Point2D_eq_dec : EqDecision Point2D.
Proof. solve_decision. Defined.

#[global] Instance Command_eq_dec : EqDecision Command.
Proof. solve_decision. Defined.

(** [NetworkMessage] (core/network.ts).  [commands] is a JavaScript object
    keyed by tick: at most one list per key, enumerated by [Object.entries]
    in the order of the language: the array-index keys first, ascending,
    then the other keys (a negative tick) in the order of their insertion. *)
Record NetworkMessage := mkMsg {
  msg_playerId : N;
  msg_commands : list (Z * list Command);
  msg_acks : list Z
}.

(** The array indices of the language: the integers from 0 to 2^32 - 2. *)
Definition is_index (k : Z) : bool := (0 <=? k) && (k <? 4294967295).

(** [obj[k] = v] on such an object: the value of an existing key is
    replaced where it stands; a new array index takes its place among the
    array indices, in ascending order and ahead of every other key; any
    other new key goes to the end. *)
Fixpoint obj_set {V} (k : Z) (v : V) (o : list (Z * V)) : list (Z * V) :=
  match o with
  | [] => [(k, v)]
  | (k', v') :: rest =>
      if k =? k' then (k, v) :: rest
      else if is_index k && (negb (is_index k') || (k <? k'))
           then (k, v) :: (k', v') :: rest
      else (k', v') :: obj_set k v rest
  end.

End Cmd.

(* ===================================================================== *)
(** * Command manager (core/command/command-manager.ts)                   *)
(* ===================================================================== *)

Module Mgr.
Import Dec Cmd.

(** ** [Array.prototype.sort()] without a comparator

    The default comparison turns both elements into strings and compares
    them by code units; the sort is stable.  Player ids are non-negative
    integers, printed in decimal. *)
Definition toString (n : N) : string := NilZero.string_of_uint (N.to_uint n).

Definition sortCompare (a b : N) : bool := String.leb (toString a) (toString b).

Fixpoint sort_insert (x : N) (l : list N) : list N :=
  match l with
  | [] => [x]
  | y :: l' => if sortCompare x y then x :: y :: l' else y :: sort_insert x l'
  end.

Definition js_sort (l : list N) : list N := foldr sort_insert [] l.

(** ** State of one manager *)

Record CommandManager := mkCM {
  _sortedPlayerIds : list N;
  _commandDelay : Z;
  _playerId : N;
  _otherPlayerIds : list N;
  _commandQueue : list Command;
  _tickCommandsMap : gmap Z (gmap N (list Command));
  _acksToSend : gmap N (gset Z);
  _pendingAcks : gmap N (gset Z);
  _tick : Z;
  (** whether the loop of [startReceivingCommands] is still running: it
      ends for good when its body throws. *)
  _receiving : bool
}.

Definition with_tickCommandsMap (m : gmap Z (gmap N (list Command)))
    (cm : CommandManager) : CommandManager :=
  mkCM (_sortedPlayerIds cm) (_commandDelay cm) (_playerId cm) (_otherPlayerIds cm)
       (_commandQueue cm) m (_acksToSend cm) (_pendingAcks cm) (_tick cm)
       (_receiving cm).

Definition with_commandQueue (q : list Command) (cm : CommandManager) : CommandManager :=
  mkCM (_sortedPlayerIds cm) (_commandDelay cm) (_playerId cm) (_otherPlayerIds cm)
       q (_tickCommandsMap cm) (_acksToSend cm) (_pendingAcks cm) (_tick cm)
       (_receiving cm).

Definition with_acksToSend (a : gmap N (gset Z)) (cm : CommandManager) : CommandManager :=
  mkCM (_sortedPlayerIds cm) (_commandDelay cm) (_playerId cm) (_otherPlayerIds cm)
       (_commandQueue cm) (_tickCommandsMap cm) a (_pendingAcks cm) (_tick cm)
       (_receiving cm).

Definition with_pendingAcks (a : gmap N (gset Z)) (cm : CommandManager) : CommandManager :=
  mkCM (_sortedPlayerIds cm) (_commandDelay cm) (_playerId cm) (_otherPlayerIds cm)
       (_commandQueue cm) (_tickCommandsMap cm) (_acksToSend cm) a (_tick cm)
       (_receiving cm).

Definition with_tick (t : Z) (cm : CommandManager) : CommandManager :=
  mkCM (_sortedPlayerIds cm) (_commandDelay cm) (_playerId cm) (_otherPlayerIds cm)
       (_commandQueue cm) (_tickCommandsMap cm) (_acksToSend cm) (_pendingAcks cm) t
       (_receiving cm).

Definition with_receiving (b : bool) (cm : CommandManager) : CommandManager :=
  mkCM (_sortedPlayerIds cm) (_commandDelay cm) (_playerId cm) (_otherPlayerIds cm)
       (_commandQueue cm) (_tickCommandsMap cm) (_acksToSend cm) (_pendingAcks cm)
       (_tick cm) b.

(** ** Private helpers on the tick-commands map *)

(** The [commands] argument of [addCommandsForPlayer] is
    [Command | Command[]]. *)
Inductive Payload :=
| One (c : Command)
| Many (cs : list Command).

Definition payload_list (p : Payload) : list Command :=
  match p with One c => [c] | Many cs => cs end.

(** [Array.isArray(commands) ? commands.length === 0 : !commands]; a
    command object is never falsy. *)
Definition payload_rejected (p : Payload) : bool :=
  match p with One _ => false | Many cs => bool_decide (cs = []) end.

Definition addCommandsForPlayer (tick : Z) (playerId : N) (commands : Payload)
    (m : gmap Z (gmap N (list Command))) : gmap Z (gmap N (list Command)) :=
  if payload_rejected commands then m
  else
    match m !! tick with
    | None => <[tick := {[playerId := payload_list commands]}]> m
    | Some tickCommands =>
        match tickCommands !! playerId with
        | Some _ => m
        | None => <[tick := <[playerId := payload_list commands]> tickCommands]> m
        end
    end.

Definition getCommandsForPlayer (m : gmap Z (gmap N (list Command)))
    (tick : Z) (playerId : N) : list Command :=
  match m !! tick with
  | None => []
  | Some tickCommands => default [] (tickCommands !! playerId)
  end.

Definition initTickCommandsMap (sortedPlayerIds : list N) (commandDelay : Z)
    : gmap Z (gmap N (list Command)) :=
  foldl (fun m tick =>
           <[tick := foldl (fun tc p => <[p := [Noop p]]> tc) ∅ sortedPlayerIds]> m)
        ∅ (seqZ 0 commandDelay).

(** ** Public operations *)

Definition isTickReady (cm : CommandManager) (tick : Z) : bool :=
  match _tickCommandsMap cm !! tick with
  | None => false
  | Some tickCommands =>
      bool_decide (size tickCommands = length (_sortedPlayerIds cm))
  end.

Definition getAllCommands (cm : CommandManager) (tick : Z) : list Command :=
  match _tickCommandsMap cm !! tick with
  | None => []
  | Some tickCommands =>
      concat (map (fun p => default [] (tickCommands !! p)) (_sortedPlayerIds cm))
  end.

Definition enqueueCommand (c : Command) (cm : CommandManager) : CommandManager :=
  with_commandQueue (_commandQueue cm ++ [c]) cm.

Definition scheduleEnqueuedCommands (tick : Z) (cm : CommandManager) : CommandManager :=
  let payload :=
    match _commandQueue cm with
    | [] => [Noop (_playerId cm)]
    | q => q
    end in
  with_commandQueue []
    (with_tickCommandsMap
       (addCommandsForPlayer tick (_playerId cm) (Many payload) (_tickCommandsMap cm)) cm).

(** One iteration of the loop of [sendCommands]: build the message for
    [target], record the tick as pending, move the owed acks into the
    message and hand it to the socket (the list of sent messages).  The
    ack maps have a set for every id of [_otherPlayerIds] from the
    constructor on, so the defaults below are never used there.  The
    pending set is read through [elements]; the order of that enumeration
    shows in the message only among keys that are not array indices. *)
Definition sendCommandsTo (tick : Z) (tickCommands : list Command)
    (st : CommandManager * list (N * NetworkMessage)) (target : N)
    : CommandManager * list (N * NetworkMessage) :=
  let cm := st.1 in
  let pending := default ∅ (_pendingAcks cm !! target) in
  let owed := default ∅ (_acksToSend cm !! target) in
  let commands :=
    foldl (fun o t => obj_set t (getCommandsForPlayer (_tickCommandsMap cm) t (_playerId cm)) o)
          (obj_set tick tickCommands []) (elements pending) in
  let msg := mkMsg (_playerId cm) commands (elements owed) in
  (with_acksToSend (<[target := ∅]> (_acksToSend cm))
     (with_pendingAcks (<[target := {[tick]} ∪ pending]> (_pendingAcks cm)) cm),
   st.2 ++ [(target, msg)]).

Definition sendCommands (tick : Z) (cm : CommandManager)
    : CommandManager * list (N * NetworkMessage) :=
  let tickCommands := getCommandsForPlayer (_tickCommandsMap cm) tick (_playerId cm) in
  foldl (sendCommandsTo tick tickCommands) (cm, []) (_otherPlayerIds cm).

Definition nextTick (cm : CommandManager) : CommandManager * list (N * NetworkMessage) :=
  let cm1 := scheduleEnqueuedCommands (_tick cm + _commandDelay cm) cm in
  let r := sendCommands (_tick cm1 + _commandDelay cm1) cm1 in
  let cm2 := r.1 in
  (with_tick (_tick cm2 + 1)
     (with_tickCommandsMap
        (delete (_tick cm2 - _commandDelay cm2 - 1) (_tickCommandsMap cm2)) cm2),
   r.2).

(** ** The receive loop

    One entry of [Object.entries(msg.commands)].  [this._acksToSend[p]] is
    [undefined] for an id that is not a peer, and [.add] on it throws after
    the commands were merged: the loop ends there. *)
Definition receiveEntry (sender : N) (cm : CommandManager) (e : Z * list Command)
    : CommandManager :=
  if negb (_receiving cm) then cm
  else
    let cm1 :=
      if _tick cm <=? e.1
      then with_tickCommandsMap
             (addCommandsForPlayer e.1 sender (Many e.2) (_tickCommandsMap cm)) cm
      else cm in
    match _acksToSend cm1 !! sender with
    | Some s => with_acksToSend (<[sender := {[e.1]} ∪ s]> (_acksToSend cm1)) cm1
    | None => with_receiving false cm1
    end.

Definition receiveAck (sender : N) (cm : CommandManager) (tick : Z) : CommandManager :=
  if negb (_receiving cm) then cm
  else
    match _pendingAcks cm !! sender with
    | Some s => with_pendingAcks (<[sender := s ∖ {[tick]}]> (_pendingAcks cm)) cm
    | None => with_receiving false cm
    end.

(** The body of [for await (const msg of this._socket.receive())]. *)
Definition receiveMessage (msg : NetworkMessage) (cm : CommandManager) : CommandManager :=
  foldl (receiveAck (msg_playerId msg))
        (foldl (receiveEntry (msg_playerId msg)) cm (msg_commands msg))
        (msg_acks msg).

Definition receiveAll (msgs : list NetworkMessage) (cm : CommandManager) : CommandManager :=
  foldl (fun c m => receiveMessage m c) cm msgs.

(** ** Constructor *)

Definition empty_acks (ids : list N) : gmap N (gset Z) :=
  foldl (fun a p => <[p := ∅]> a) ∅ ids.

Definition new (playerId : N) (otherPlayerIds : list N) (commandDelay : Z) (tick : Z)
    : CommandManager :=
  let sorted := js_sort (playerId :: otherPlayerIds) in
  mkCM sorted commandDelay playerId otherPlayerIds []
       (initTickCommandsMap sorted commandDelay)
       (empty_acks otherPlayerIds) (empty_acks otherPlayerIds) tick true.

(** ** [waitForTick]

    The loop re-checks readiness, resends, and sleeps; while it sleeps the
    receive task handles the messages that arrive.  [arrivals] lists, for
    each sleep, those messages in order.  [None]: the manager is still
    waiting when the given arrivals are used up. *)
Fixpoint waitForTick (tick : Z) (arrivals : list (list NetworkMessage))
    (cm : CommandManager) (sent : list (N * NetworkMessage))
    : option (CommandManager * list (N * NetworkMessage)) :=
  if isTickReady cm tick then Some (cm, sent)
  else
    match arrivals with
    | [] => None
    | batch :: rest =>
        let r := sendCommands (_tick cm + _commandDelay cm - 1) cm in
        waitForTick tick rest (receiveAll batch r.1) (sent ++ r.2)
    end.

(** ** Runs of a manager

    What can happen to a manager between two observations: the game loop
    enqueues a command, advances the tick or resends while it waits, and
    the receive task handles a message. *)
Inductive Event :=
| EvEnqueue (c : Command)
| EvNextTick
| EvResend
| EvReceive (msg : NetworkMessage).

Definition apply_event (cm : CommandManager) (ev : Event) : CommandManager :=
  match ev with
  | EvEnqueue c => enqueueCommand c cm
  | EvNextTick => (nextTick cm).1
  | EvResend => (sendCommands (_tick cm + _commandDelay cm - 1) cm).1
  | EvReceive msg => receiveMessage msg cm
  end.

Definition run (evs : list Event) (cm : CommandManager) : CommandManager :=
  foldl apply_event cm evs.

(** A message of one of the manager's peers. *)
Definition from_peer (cm : CommandManager) (msg : NetworkMessage) : Prop :=
  msg_playerId msg ∈ _otherPlayerIds cm.

Definition peer_event (cm : CommandManager) (ev : Event) : Prop :=
  match ev with EvReceive msg => from_peer cm msg | _ => True end.

(** The messages a manager hands to its socket during an event, and
    over a run: the state reached and everything sent on the way. *)
Definition event_output (cm : CommandManager) (ev : Event)
    : list (N * NetworkMessage) :=
  match ev with
  | EvNextTick => (nextTick cm).2
  | EvResend => (sendCommands (_tick cm + _commandDelay cm - 1) cm).2
  | EvEnqueue _ | EvReceive _ => []
  end.

Definition run_sending (evs : list Event) (cm : CommandManager)
    : CommandManager * list (N * NetworkMessage) :=
  foldl (fun st ev => (apply_event st.1 ev, st.2 ++ event_output st.1 ev)) (cm, []) evs.

(** ** Deliveries

    What a batch of messages asks the map to store: one (sender, tick,
    list) triple per command entry. *)
Definition deliveries (msg : NetworkMessage) : list (N * Z * list Command) :=
  map (fun e => (msg_playerId msg, e.1, e.2)) (msg_commands msg).

(** Two deliveries for the same (sender, tick) pair agree when they carry
    the same list or one of them carries none: a sender transmits the list
    it stored for a tick, or an empty list once it has pruned the tick. *)
Definition compatible (d1 d2 : N * Z * list Command) : Prop :=
  d1.1 = d2.1 -> d1.2 = d2.2 \/ d1.2 = [] \/ d2.2 = [].

Definition consistent (msgs : list NetworkMessage) : Prop :=
  forall d1 d2, d1 ∈ flat_map deliveries msgs -> d2 ∈ flat_map deliveries msgs ->
                compatible d1 d2.

(** ** Notions used in the statements about runs *)

(** The order of the default sort, as a relation. *)
Definition js_le (a b : N) : Prop := sortCompare a b = true.

(** [if (!tickCommands[playerId]) tickCommands[playerId] = commands] on
    the inner object. *)
Definition inner_add (p : N) (cs : list Command) (tc : gmap N (list Command))
    : gmap N (list Command) :=
  match tc !! p with Some _ => tc | None => <[p := cs]> tc end.

(** The list stored under a pair, if any. *)
Definition stored (m : gmap Z (gmap N (list Command))) (t : Z) (p : N)
    : option (list Command) :=
  m !! t ≫= fun tc => tc !! p.

(** The configuration of a manager and its tick. *)
Definition same_cfg (a b : CommandManager) : Prop :=
  _sortedPlayerIds a = _sortedPlayerIds b /\ _commandDelay a = _commandDelay b /\
  _playerId a = _playerId b /\ _otherPlayerIds a = _otherPlayerIds b /\
  _tick a = _tick b.

(** Every stored list is non-empty. *)
Definition nonempty_lists (m : gmap Z (gmap N (list Command))) : Prop :=
  forall t q l, stored m t q = Some l -> l <> [].

(** Entries only exist for participants. *)
Definition participant_keys (ids : list N) (m : gmap Z (gmap N (list Command))) : Prop :=
  forall t q, is_Some (stored m t q) -> q ∈ ids.

(** No entry below the pruning bound. *)
Definition above (bound : Z) (m : gmap Z (gmap N (list Command))) : Prop :=
  forall t, is_Some (m !! t) -> bound <= t.

(** What a delivery does to the map of a manager at tick [tk]. *)
Definition merge (tk : Z) (m : gmap Z (gmap N (list Command)))
    (d : N * Z * list Command) : gmap Z (gmap N (list Command)) :=
  if tk <=? d.1.2 then addCommandsForPlayer d.1.2 d.1.1 (Many d.2) m else m.

(** Ack sets are created by the constructor and never removed. *)
Definition keeps (a b : gmap N (gset Z)) : Prop :=
  forall P, is_Some (a !! P) -> is_Some (b !! P).

(** A manager whose receive loop runs and which holds ack sets for all its
    peers. *)
Definition live (cm : CommandManager) : Prop :=
  _receiving cm = true /\
  forall P, P ∈ _otherPlayerIds cm ->
    is_Some (_acksToSend cm !! P) /\ is_Some (_pendingAcks cm !! P).

(** What a sending manager has published: [F] gives, per tick, the list
    of its own commands; every non-empty list it has sent for a tick is
    [F]'s, its own stored lists below the next scheduling tick are [F]'s,
    and its pending ticks lie below that tick. *)
Definition published (F : Z -> list Command) (cm : CommandManager)
    (sent : list (N * NetworkMessage)) : Prop :=
  (forall x e, x ∈ sent -> e ∈ msg_commands x.2 ->
     msg_playerId x.2 = _playerId cm /\
     (e.2 <> [] -> e.1 < _tick cm + _commandDelay cm /\ e.2 = F e.1)) /\
  (forall t l, t < _tick cm + _commandDelay cm ->
     stored (_tickCommandsMap cm) t (_playerId cm) = Some l -> l = F t) /\
  (forall P s t, _pendingAcks cm !! P = Some s -> t ∈ s ->
     t < _tick cm + _commandDelay cm).

(** A delivery is settled in a map when merging it changes nothing: its
    tick is past, its list is empty, or its pair already has a list. *)
Definition settled (tk : Z) (m : gmap Z (gmap N (list Command)))
    (d : N * Z * list Command) : Prop :=
  d.1.2 < tk \/ d.2 = [] \/ is_Some (stored m d.1.2 d.1.1).

End Mgr.

(* ===================================================================== *)
(** * Simulated transport (core/network.ts)                               *)
(* ===================================================================== *)

Module Net.
Import Cmd.

Record SocketOptions := mkOptions {
  opt_delay : option (Z * Z);
  opt_packetLoss : option Q
}.

(** A socket knows the player it sends as ([sendMessage.bind(this, playerId)])
    and its options. *)
Record Socket := mkSocket {
  sock_playerId : N;
  sock_options : SocketOptions
}.

(** The inbound side of a socket: the closure variable [trigger] of
    [createSocket] (whether a resolver is registered) and the messages the
    generator has been resumed with so far. *)
Record Inbox := mkInbox {
  trigger : bool;
  yielded : list NetworkMessage
}.

Record Network := mkNetwork {
  _sockets : gmap N Socket;
  _inboxes : gmap N Inbox
}.

Definition empty : Network := mkNetwork ∅ ∅.

Inductive Error := mkError (message : string).

(** [createSocket]: the result (an error or the socket) and the network
    afterwards.  The generator is created suspended: nothing has set
    [trigger] yet. *)
Definition createSocket (playerId : N) (options : SocketOptions) (net : Network)
    : (Error + Socket) * Network :=
  match _sockets net !! playerId with
  | Some _ =>
      (inl (mkError ("Socket for player " ++ Mgr.toString playerId ++ " already exists")),
       net)
  | None =>
      let socket := mkSocket playerId options in
      (inr socket,
       mkNetwork (<[playerId := socket]> (_sockets net))
                 (<[playerId := mkInbox false []]> (_inboxes net)))
  end.

(** The consumer asks the generator for the next message: the generator
    runs up to its [await] and registers a fresh resolver. *)
Definition next (playerId : N) (net : Network) : Network :=
  mkNetwork (_sockets net)
            (alter (fun i => mkInbox true (yielded i)) playerId (_inboxes net)).

(** The closure [newMessage]. *)
Definition newMessage (value : NetworkMessage) (i : Inbox) : Inbox :=
  if trigger i then mkInbox false (yielded i ++ [value]) else i.

(** [Math.random() < senderPacketLoss || Math.random() < receiverPacketLoss];
    the two draws are inputs. *)
Definition isPacketLost (roll1 roll2 : Q) (sender receiver : Socket) : bool :=
  let senderPacketLoss := default 0%Q (opt_packetLoss (sock_options sender)) in
  let receiverPacketLoss := default 0%Q (opt_packetLoss (sock_options receiver)) in
  negb (Qle_bool senderPacketLoss roll1) || negb (Qle_bool receiverPacketLoss roll2).

(** [sendMessage] once its delay has elapsed.  The sender's socket exists:
    the function is only reachable through that socket. *)
Definition sendMessage (roll1 roll2 : Q) (senderPlayerId receiverPlayerId : N)
    (message : NetworkMessage) (net : Network) : (Error + unit) * Network :=
  match _sockets net !! receiverPlayerId, _sockets net !! senderPlayerId with
  | None, _ =>
      (inl (mkError ("Socket for player " ++ Mgr.toString receiverPlayerId
                       ++ " does not exist")), net)
  | Some receiverSocket, Some senderSocket =>
      if isPacketLost roll1 roll2 senderSocket receiverSocket then (inr tt, net)
      else (inr tt,
            mkNetwork (_sockets net)
                      (alter (newMessage message) receiverPlayerId (_inboxes net)))
  | Some _, None =>
      (* [senderSocket.options] on [undefined] *)
      (inl (mkError "TypeError: senderSocket is undefined"), net)
  end.

(** Two players, each with a socket without configured delay or loss. *)
Definition two_sockets : Network :=
  (createSocket 1 (mkOptions None None)
     (createSocket 0 (mkOptions None None) empty).2).2.

End Net.

(* ===================================================================== *)
(** * Units (core/state/entity.ts, core/state/unit.ts)                    *)
(* ===================================================================== *)

Module Sim.
Import Dec Cmd.

Record Unit := mkUnit {
  id : N;
  playerId : N;
  isMine : bool;
  _speed : Decimal;
  _size : Z;
  _color : string;
  _position : Point2D;
  _target : option Point2D
}.

Definition with_position (p : Point2D) (u : Unit) : Unit :=
  mkUnit (id u) (playerId u) (isMine u) (_speed u) (_size u) (_color u) p (_target u).

Definition setTarget (t : option Point2D) (u : Unit) : Unit :=
  mkUnit (id u) (playerId u) (isMine u) (_speed u) (_size u) (_color u) (_position u) t.

Definition processCommand (c : Command) (u : Unit) : Unit :=
  match c with
  | Move _ _ point => setTarget (Some point) u
  | Noop _ => u
  end.

(** The first half of [update]: a click on a unit of the local player
    enqueues a Move.  The input manager stores floored pixel coordinates. *)
Definition clickCommands (leftMouseClick : option (Z * Z)) (u : Unit) : list Command :=
  match leftMouseClick with
  | Some (x, y) =>
      if isMine u then [Move (playerId u) (id u) (mkPoint (of_Z x) (of_Z y))] else []
  | None => []
  end.

(** The second half of [update]: the movement.  [None] when a coordinate
    stops being a finite decimal (a division by a zero distance). *)
Definition move (u : Unit) : option Unit :=
  match _target u with
  | None => Some u
  | Some target =>
      let dx := minus (px target) (px (_position u)) in
      let dy := minus (py target) (py (_position u)) in
      match sqrt (plus (mul dx dx) (mul dy dy)) with
      | None => None
      | Some distance =>
          if lessThanOrEqualTo distance (_speed u)
          then Some (setTarget None (with_position (mkPoint (px target) (py target)) u))
          else
            match div (mul (_speed u) dx) distance, div (mul (_speed u) dy) distance with
            | Some sx, Some sy =>
                Some (with_position
                        (mkPoint (plus (px (_position u)) sx) (plus (py (_position u)) sy)) u)
            | _, _ => None
            end
      end
  end.

Definition update (leftMouseClick : option (Z * Z)) (u : Unit)
    : option Unit * list Command :=
  (move u, clickCommands leftMouseClick u).

(** [n] updates in a row, without clicks. *)
Fixpoint moves (n : nat) (u : Unit) : option Unit :=
  match n with
  | O => Some u
  | S k => match (update None u).1 with Some u' => moves k u' | None => None end
  end.

(** The unit of player 0 of the demo, sent from (50, 50) to (66, 113):
    the target is 65 away, thirteen times the speed 5. *)
Definition demo_unit : Unit :=
  mkUnit 0 0 true (of_Z 5) 18 "#FF0000" (mkPoint (of_Z 50) (of_Z 50))
         (Some (mkPoint (of_Z 66) (of_Z 113))).


End Sim.

(* ===================================================================== *)
(** * Reading JavaScript objects with integer keys                        *)
(* ===================================================================== *)

Module Obj.
Import Cmd.

(** [obj[k]]: the value under key [k], if the object has that key. *)
Fixpoint obj_get {V} (k : Z) (o : list (Z * V)) : option V :=
  match o with
  | [] => None
  | (k', v) :: rest => if k =? k' then Some v else obj_get k rest
  end.

(** A method call on [obj[k]] that changes the object found there in
    place; the keys and their order stay. *)
Fixpoint obj_mutate {V} (k : Z) (f : V -> V) (o : list (Z * V)) : list (Z * V) :=
  match o with
  | [] => []
  | (k', v) :: rest =>
      if k =? k' then (k', f v) :: rest else (k', v) :: obj_mutate k f rest
  end.

(** The order of the keys of an object: an array index stands before
    every larger array index and before every other key. *)
Definition js_before (k x : Z) : Prop :=
  k <> x /\ (is_index x = true -> is_index k = true /\ k < x).

Definition js_ordered (l : list Z) : Prop := StronglySorted js_before l.

Definition Object_values {V} (o : list (Z * V)) : list V := map snd o.

Definition Object_fromEntries {V} (es : list (Z * V)) : list (Z * V) :=
  foldl (fun o e => obj_set e.1 e.2 o) [] es.

End Obj.

(* ===================================================================== *)
(** * Sequences on the transport (core/network.ts)                        *)
(* ===================================================================== *)

Module Wire.
Import Cmd Net.

(** One message on its way to a receiver whose consumer has asked for the
    next message before the message arrives: [next], then [sendMessage]
    with the two draws of the message.  A list of such messages is in the
    order of arrival: [sendMessage] hands a message over when its own delay
    has elapsed. *)
Definition handOver (sender receiver : N) (net : Network) (x : Q * Q * NetworkMessage)
    : Network :=
  (sendMessage x.1.1 x.1.2 sender receiver x.2 (next receiver net)).2.

Definition handOverAll (sender receiver : N) (xs : list (Q * Q * NetworkMessage))
    (net : Network) : Network :=
  foldl (handOver sender receiver) net xs.

(** The messages of a sequence that pass both draws. *)
Definition passing (senderSocket receiverSocket : Socket)
    (xs : list (Q * Q * NetworkMessage)) : list NetworkMessage :=
  (filter (fun x => isPacketLost x.1.1 x.1.2 senderSocket receiverSocket = false) xs).*2.


(** ** The receive loop on the transport *)







End Wire.

(* ===================================================================== *)
(** * Command processor, input and game loop                              *)
(**   (core/command/command-processor.ts, core/local-input-manager.ts,    *)
(**    core/game.ts)                                                      *)
(* ===================================================================== *)

Module Loop.
Import Dec Cmd Obj Sim.

(** [GameState]: the entities by id.  [Unit] is the only class of
    entities. *)
Record GameState := mkState { entities : list (Z * Unit) }.

(** What the processor writes with [console.error]. *)
Inductive LogEntry :=
| NotFound (entityId : N)
| Dump (es : list (Z * Unit)).

(** ** [CommandProcessor.processCommands] *)

Definition processOne (st : GameState * list LogEntry) (command : Command)
    : GameState * list LogEntry :=
  match command with
  | Move _ entityId _ =>
      match obj_get (Z.of_N entityId) (entities st.1) with
      | Some _ =>
          (mkState (obj_mutate (Z.of_N entityId) (processCommand command) (entities st.1)),
           st.2)
      | None => (st.1, st.2 ++ [NotFound entityId; Dump (entities st.1)])
      end
  | Noop _ => st
  end.

Definition processCommands (commands : list Command) (state : GameState)
    : GameState * list LogEntry :=
  foldl processOne (state, []) commands.

(** ** [LocalInputManager]

    [onMouseDown] stores the floored canvas coordinates of the event,
    which are its arguments here. *)
Record Input := mkInput { leftMouseClick : option (Z * Z) }.

Definition onMouseDown (mouseX mouseY : Z) (_ : Input) : Input :=
  mkInput (Some (mouseX, mouseY)).

Definition resetInput (_ : Input) : Input := mkInput None.

(** ** [Game]

    The renderer and the pacing of the loop (tick rate, accumulator) do
    not touch the state below and are left out. *)
Record Game := mkGame {
  _playerId : N;
  _state : GameState;
  _localInputManager : Input;
  _commandManager : Mgr.CommandManager;
  _tick : Z
}.

(** The constructor; the manager starts at the game's tick, 0. *)
Definition new (playerId : N) (otherPlayerIds : list N) (state : GameState)
    (commandDelay : Z) : Game :=
  mkGame playerId state (mkInput None)
         (Mgr.new playerId otherPlayerIds commandDelay 0) 0.

(** [entity.update(frame)] for one entity: [frame.enqueueCommand] reaches
    the manager, the unit moves.  The state is [None] once a coordinate
    has stopped being a finite decimal. *)
Definition updateEntity (input : Input)
    (acc : option (list (Z * Unit)) * Mgr.CommandManager) (e : Z * Unit)
    : option (list (Z * Unit)) * Mgr.CommandManager :=
  let r := Sim.update (leftMouseClick input) e.2 in
  (match acc.1, r.1 with
   | Some updated, Some u => Some (updated ++ [(e.1, u)])
   | _, _ => None
   end,
   foldl (fun cm c => Mgr.enqueueCommand c cm) acc.2 r.2).

(** [Game.update(this.getFrame())]: the frame holds a copy of the input. *)
Definition update (g : Game) : option Game :=
  let r := foldl (updateEntity (_localInputManager g))
                 (Some [], _commandManager g) (entities (_state g)) in
  match r.1 with
  | Some es =>
      Some (mkGame (_playerId g) (mkState es) (_localInputManager g) r.2 (_tick g))
  | None => None
  end.

Definition nextTick (g : Game) : Game * list (N * NetworkMessage) :=
  let r := Mgr.nextTick (_commandManager g) in
  (mkGame (_playerId g) (_state g) (resetInput (_localInputManager g)) r.1 (_tick g + 1),
   r.2).

(** The body of the loop of [start] after [waitForTick] has resolved: the
    game afterwards, the messages handed to the socket and the console
    output. *)
Definition runTick (g : Game)
    : option (Game * list (N * NetworkMessage) * list LogEntry) :=
  let p := processCommands (Mgr.getAllCommands (_commandManager g) (_tick g)) (_state g) in
  match update (mkGame (_playerId g) p.1 (_localInputManager g) (_commandManager g)
                       (_tick g)) with
  | Some g1 => let r := nextTick g1 in Some (r.1, r.2, p.2)
  | None => None
  end.

(** One iteration of that loop, the wait included; [arrivals] are the
    messages handled during the sleeps of the wait. *)
Definition iteration (arrivals : list (list NetworkMessage)) (g : Game)
    : option (Game * list (N * NetworkMessage) * list LogEntry) :=
  match Mgr.waitForTick (_tick g) arrivals (_commandManager g) [] with
  | Some (cm, sent) =>
      match runTick (mkGame (_playerId g) (_state g) (_localInputManager g) cm (_tick g)) with
      | Some (g', sent', log) => Some (g', sent ++ sent', log)
      | None => None
      end
  | None => None
  end.

(** ** Runs of a game

    What happens to a game: a click on its canvas, a message handled by
    the receive task of its manager, an iteration of its loop.  A click
    during the wait of an iteration only overwrites the input that the
    iteration reads after the wait, as a click just before it does. *)
Inductive Event :=
| EvMouseDown (mouseX mouseY : Z)
| EvMessage (msg : NetworkMessage)
| EvIteration (arrivals : list (list NetworkMessage)).

Definition step (g : Game) (ev : Event) : option Game :=
  match ev with
  | EvMouseDown x y =>
      Some (mkGame (_playerId g) (_state g) (onMouseDown x y (_localInputManager g))
                   (_commandManager g) (_tick g))
  | EvMessage msg =>
      Some (mkGame (_playerId g) (_state g) (_localInputManager g)
                   (Mgr.receiveMessage msg (_commandManager g)) (_tick g))
  | EvIteration arrivals =>
      match iteration arrivals g with Some r => Some r.1.1 | None => None end
  end.

Definition run (evs : list Event) (g : Game) : option Game :=
  foldl (fun og ev => og ≫= fun g => step g ev) (Some g) evs.

(** Every message of a run comes from a peer of the manager [cm]. *)
Definition from_peers (cm : Mgr.CommandManager) (ev : Event) : Prop :=
  match ev with
  | EvMouseDown _ _ => True
  | EvMessage msg => Mgr.from_peer cm msg
  | EvIteration arrivals => Forall (Forall (Mgr.from_peer cm)) arrivals
  end.

(** ** Notions used in the statements *)

(** Two units that differ at most in [isMine]. *)
Definition same_unit (u1 u2 : Unit) : Prop :=
  id u1 = id u2 /\ playerId u1 = playerId u2 /\ _speed u1 = _speed u2 /\
  _size u1 = _size u2 /\ _color u1 = _color u2 /\
  _position u1 = _position u2 /\ _target u1 = _target u2.

(** Two states with the same entities up to [isMine]. *)
Definition same_entity (e1 e2 : Z * Unit) : Prop :=
  e1.1 = e2.1 /\ same_unit e1.2 e2.2.

Definition same_world (s1 s2 : GameState) : Prop :=
  Forall2 same_entity (entities s1) (entities s2).

(** The point of the last Move of a list that addresses an entity. *)
Definition lastMove (entityId : Z) (commands : list Command) : option Point2D :=
  foldl (fun acc c =>
           match c with
           | Move _ e point => if Z.of_N e =? entityId then Some point else acc
           | Noop _ => acc
           end) None commands.

(** A command with another issuer. *)
Definition reissue (f : N -> N) (c : Command) : Command :=
  match c with
  | Noop p => Noop (f p)
  | Move p e point => Move (f p) e point
  end.

End Loop.

(* ===================================================================== *)
(** * Start of the application (constants.ts, index.ts)                   *)
(* ===================================================================== *)

Module Boot.
Import Dec Cmd Obj Sim Loop.

Definition PLAYERS : list string :=
  ["#FF0000"; "#FFBB00"; "#0000FF"; "#00DDFF"]%string.
Definition PLAYER_SPEED : Decimal := of_Z 5.
Definition PLAYER_SIZE : Z := 18.

(** The functions of index.ts read the constant [PLAYERS]; here the list
    of players is their argument. *)
Definition initializeGameStates (players : list string) : list GameState :=
  imap (fun ownerId _ =>
          mkState (Object_fromEntries
            (imap (fun index color =>
                     (Z.of_nat index,
                      mkUnit (N.of_nat index) (N.of_nat index)
                             (bool_decide (index = ownerId))
                             PLAYER_SPEED PLAYER_SIZE color
                             (mkPoint (of_Z (50 + Z.of_nat index * 50))
                                      (of_Z (50 + Z.of_nat index * 50)))
                             None))
                  players)))
       players.

(** [PLAYERS.map((_, index) => index).filter((id) => id !== playerId)] *)
Definition otherPlayerIds (players : list string) (playerId : nat) : list N :=
  N.of_nat <$> filter (fun id => id <> playerId) (seq 0 (length players)).

(** [initializeGames], the renderer and the sockets left aside;
    [commandDelay] is [settings.global.commandDelay]. *)
Definition initializeGames (players : list string) (commandDelay : Z) : list Game :=
  imap (fun playerId gameState =>
          Loop.new (N.of_nat playerId) (otherPlayerIds players playerId)
                   gameState commandDelay)
       (initializeGameStates players).

(** [initializeSockets]: one [createSocket] per player index, in order,
    with the player's entry of [settings.players]; an error of
    [createSocket] ends the whole call.  [None]: a player without an entry
    in the settings (its socket would carry no options object). *)
Fixpoint createSockets (playerId : nat) (options : list Net.SocketOptions)
    (net : Net.Network) : (Net.Error + list Net.Socket) * Net.Network :=
  match options with
  | [] => (inr [], net)
  | o :: rest =>
      match Net.createSocket (N.of_nat playerId) o net with
      | (inl e, net') => (inl e, net')
      | (inr socket, net') =>
          match createSockets (S playerId) rest net' with
          | (inl e, net'') => (inl e, net'')
          | (inr sockets, net'') => (inr (socket :: sockets), net'')
          end
      end
  end.

Definition initializeSockets (players : list string)
    (settings_players : list Net.SocketOptions)
    : option ((Net.Error + list Net.Socket) * Net.Network) :=
  if decide (length players <= length settings_players)%nat
  then Some (createSockets 0 (take (length players) settings_players) Net.empty)
  else None.

End Boot.

(* ===================================================================== *)
(** * Decimals as real numbers, distances                                 *)
(* ===================================================================== *)

Module Metric.
Import Reals.
Import Dec Cmd Sim.
Local Open Scope R_scope.

(** The value of a decimal as a real number. *)
Definition to_R (x : Decimal) : R := IZR (coeff x) * powerRZ 10 (expo x).

(** [x] is [y] up to the relative error [c]. *)
Definition near (c x y : R) : Prop := Rabs (x - y) <= c * Rabs y.

(** The relative error of one rounded operation is at most 10^-19. *)
Definition roundoff : R := / 10000000000000000000.

(** The length of the vector (a, b). *)
Definition norm2 (a b : R) : R := R_sqrt.sqrt (a * a + b * b).

(** The distance from [p] to [t]. *)
Definition distance (t p : Point2D) : R :=
  norm2 (to_R (px t) - to_R (px p)) (to_R (py t) - to_R (py p)).

(** What one step may add to the error of the distance. *)
Definition slack : R := / 10000000000000.

(** A unit [w] on its way from where [u] stands to the target [t], after
    [k] steps: it is [u] but for its position, and its distance to the
    target is that of [u] less [k] times the speed, up to [k] times
    [slack]. *)
Definition on_course (u : Unit) (t : Point2D) (k : nat) (w : Unit) : Prop :=
  w = with_position (_position w) u /\
  Rabs (distance t (_position w)
        - (distance t (_position u) - INR k * to_R (_speed u))) <= INR k * slack.

(** The coordinates and speeds the movement is followed for: coordinates
    between -10000 and 10000, speeds between 1 and 10000. *)
Definition in_range (d : Decimal) : bool :=
  lessThanOrEqualTo (of_Z (-10000)) d && lessThanOrEqualTo d (of_Z 10000).

Definition speed_in_range (d : Decimal) : bool :=
  lessThanOrEqualTo (of_Z 1) d && lessThanOrEqualTo d (of_Z 10000).

(** The error allowed for a distance after any number of steps. *)
Definition tolerance : R := / 100000000.

(** [ceil (D / v)] for the distance [D] whose square is the integer [D2]
    and an integer speed [v]. *)
Definition ceil_steps (D2 v : Z) : Z := ((Z.sqrt_up D2 + v - 1) / v)%Z.

End Metric.

(* ===================================================================== *)
(** * Facts about the command manager                                     *)
(* ===================================================================== *)

Module MgrFacts.
Import Dec Cmd Mgr.

#[local] Arguments sendCommands : simpl never.
#[local] Arguments js_sort : simpl never.
#[local] Arguments initTickCommandsMap : simpl never.
#[local] Arguments nextTick : simpl never.
#[local] Arguments receiveMessage : simpl never.
#[local] Arguments scheduleEnqueuedCommands : simpl never.
#[local] Arguments addCommandsForPlayer : simpl never.

(** ** The default sort *)

Lemma sort_insert_perm x l : sort_insert x l ≡ₚ x :: l.
Proof.
  induction l as [|y l IH]; simpl; [done|].
  destruct (sortCompare x y); [done|].
  rewrite IH. apply Permutation_swap.
Qed.

Lemma js_sort_perm l : js_sort l ≡ₚ l.
Proof.
  induction l as [|x l IH]; [done|].
  unfold js_sort in *. simpl. rewrite sort_insert_perm. by rewrite IH.
Qed.

Lemma js_le_total a b : js_le a b \/ js_le b a.
Proof. unfold js_le, sortCompare. apply String.leb_total. Qed.

Lemma sort_insert_hdrel a x l :
  js_le a x -> HdRel js_le a l -> HdRel js_le a (sort_insert x l).
Proof.
  intros Hax Hl. destruct l as [|y l]; simpl.
  - by constructor.
  - destruct (sortCompare x y); constructor; [done|].
    by inversion Hl.
Qed.

Lemma sort_insert_sorted x l : Sorted js_le l -> Sorted js_le (sort_insert x l).
Proof.
  induction 1 as [|y l Hs IH Hhd]; simpl.
  - repeat constructor.
  - destruct (sortCompare x y) eqn:Hxy.
    + constructor; [by constructor|]. by constructor.
    + constructor; [done|]. apply sort_insert_hdrel; [|done].
      destruct (js_le_total x y) as [H|H]; [|done].
      unfold js_le in H. congruence.
Qed.

Lemma js_sort_sorted l : Sorted js_le (js_sort l).
Proof.
  induction l as [|x l IH]; [constructor|].
  unfold js_sort in *. simpl. by apply sort_insert_sorted.
Qed.

Lemma digit_cases (n : N) : (n < 10)%N ->
  n = 0%N \/ n = 1%N \/ n = 2%N \/ n = 3%N \/ n = 4%N \/
  n = 5%N \/ n = 6%N \/ n = 7%N \/ n = 8%N \/ n = 9%N.
Proof. lia. Qed.

(** On one-digit ids the string order is the numeric order. *)
Lemma sortCompare_digit a b :
  (a < 10)%N -> (b < 10)%N -> sortCompare a b = true -> (a <= b)%N.
Proof.
  intros Ha Hb.
  destruct (digit_cases a Ha) as [->|[->|[->|[->|[->|[->|[->|[->|[->| ->]]]]]]]]];
  destruct (digit_cases b Hb) as [->|[->|[->|[->|[->|[->|[->|[->|[->| ->]]]]]]]]];
  vm_compute; intros H; congruence.
Qed.

Lemma Sorted_js_le_digits l :
  Forall (fun n => (n < 10)%N) l -> Sorted js_le l -> Sorted N.le l.
Proof.
  intros Hall Hs. induction Hs as [|x l Hs IH Hhd]; [constructor|].
  inversion Hall as [|? ? Hx Hl]; subst.
  constructor; [by apply IH|].
  destruct Hhd as [|y l Hxy]; constructor.
  inversion Hl; subst. by apply sortCompare_digit.
Qed.

(** ** Storing commands *)

Lemma addCommandsForPlayer_rejected t p pl m :
  payload_rejected pl = true -> addCommandsForPlayer t p pl m = m.
Proof. intros H. unfold addCommandsForPlayer. by rewrite H. Qed.

Lemma addCommandsForPlayer_alt t p pl m :
  payload_rejected pl = false ->
  addCommandsForPlayer t p pl m
  = <[t := inner_add p (payload_list pl) (default ∅ (m !! t))]> m.
Proof.
  intros H. unfold addCommandsForPlayer, inner_add. rewrite H.
  destruct (m !! t) as [tc|] eqn:Ht; simpl.
  - destruct (tc !! p) eqn:Hp; [|done]. by rewrite insert_id.
  - by rewrite lookup_empty, insert_empty.
Qed.

Lemma payload_rejected_many cs : payload_rejected (Many cs) = true <-> cs = [].
Proof. simpl. by rewrite bool_decide_eq_true. Qed.

Lemma stored_add t p pl m t' p' :
  stored (addCommandsForPlayer t p pl m) t' p'
  = if bool_decide (t = t' /\ p = p')
    then match stored m t p with
         | Some l => Some l
         | None => if payload_rejected pl then None else Some (payload_list pl)
         end
    else stored m t' p'.
Proof.
  unfold stored. destruct (payload_rejected pl) eqn:Hr.
  - rewrite addCommandsForPlayer_rejected by done.
    case_bool_decide as H; [|done]. destruct H as [-> ->].
    by destruct (m !! t' ≫= _).
  - rewrite addCommandsForPlayer_alt by done. unfold inner_add.
    destruct (decide (t = t')) as [->|Hne].
    + rewrite lookup_insert_eq. simpl.
      destruct (m !! t') as [tc|] eqn:Ht; simpl.
      * destruct (decide (p = p')) as [->|Hp].
        -- rewrite bool_decide_eq_true_2 by done.
           destruct (tc !! p') eqn:Hp; [by rewrite Hp|]. by rewrite lookup_insert_eq.
        -- rewrite bool_decide_eq_false_2 by (intros [_ ?]; done).
           destruct (tc !! p) eqn:Hp'; [done|]. by rewrite lookup_insert_ne.
      * rewrite lookup_empty.
        destruct (decide (p = p')) as [->|Hp].
        -- rewrite bool_decide_eq_true_2 by done. by rewrite lookup_insert_eq.
        -- rewrite bool_decide_eq_false_2 by (intros [_ ?]; done).
           by rewrite lookup_insert_ne, lookup_empty.
    + rewrite bool_decide_eq_false_2 by (intros [? _]; done).
      by rewrite lookup_insert_ne.
Qed.

Lemma addCommandsForPlayer_taken t p pl m l :
  stored m t p = Some l -> addCommandsForPlayer t p pl m = m.
Proof.
  unfold stored, addCommandsForPlayer. intros H.
  destruct (payload_rejected pl); [done|].
  destruct (m !! t) as [tc|]; simpl in H; [|done].
  by rewrite H.
Qed.

(** ** What each operation leaves alone *)

Lemma same_cfg_refl a : same_cfg a a.
Proof. by repeat split. Qed.

Lemma same_cfg_trans a b c : same_cfg a b -> same_cfg b c -> same_cfg a c.
Proof. unfold same_cfg. intros (?&?&?&?&?) (?&?&?&?&?). repeat split; congruence. Qed.

Lemma foldl_preserves {A B} (P : A -> Prop) (f : A -> B -> A) l a :
  (forall a b, P a -> P (f a b)) -> P a -> P (foldl f a l).
Proof. intros Hf. revert a. induction l as [|b l IH]; simpl; auto. Qed.

Lemma sendCommandsTo_frame t tcs st target :
  let st' := sendCommandsTo t tcs st target in
  same_cfg st.1 st'.1 /\ _tickCommandsMap st'.1 = _tickCommandsMap st.1 /\
  _commandQueue st'.1 = _commandQueue st.1 /\ _receiving st'.1 = _receiving st.1.
Proof. by repeat split. Qed.

Lemma sendCommands_frame t cm :
  let cm' := (sendCommands t cm).1 in
  same_cfg cm cm' /\ _tickCommandsMap cm' = _tickCommandsMap cm /\
  _commandQueue cm' = _commandQueue cm /\ _receiving cm' = _receiving cm.
Proof.
  unfold sendCommands.
  apply (foldl_preserves
    (fun st => same_cfg cm st.1 /\ _tickCommandsMap st.1 = _tickCommandsMap cm /\
               _commandQueue st.1 = _commandQueue cm /\ _receiving st.1 = _receiving cm)).
  - intros st target (Hc & Hm & Hq & Hr).
    destruct (sendCommandsTo_frame t
      (getCommandsForPlayer (_tickCommandsMap cm) t (_playerId cm)) st target)
      as (Hc' & Hm' & Hq' & Hr').
    split; [by eapply same_cfg_trans|]. repeat split; congruence.
  - simpl. split; [apply same_cfg_refl|done].
Qed.

Lemma receiveEntry_frame s cm e :
  let cm' := receiveEntry s cm e in
  same_cfg cm cm' /\ _commandQueue cm' = _commandQueue cm /\
  _pendingAcks cm' = _pendingAcks cm /\
  (_tickCommandsMap cm' = _tickCommandsMap cm \/
   (_tick cm <= e.1 /\
    _tickCommandsMap cm' = addCommandsForPlayer e.1 s (Many e.2) (_tickCommandsMap cm))).
Proof.
  unfold receiveEntry. destruct (_receiving cm); simpl.
  - destruct (Z.leb_spec (_tick cm) e.1) as [Hle|Hlt].
    + destruct (_acksToSend _ !! s); simpl; repeat split; auto.
    + destruct (_acksToSend _ !! s); simpl; repeat split; auto.
  - repeat split; auto.
Qed.

Lemma receiveAck_frame s cm t :
  let cm' := receiveAck s cm t in
  same_cfg cm cm' /\ _commandQueue cm' = _commandQueue cm /\
  _acksToSend cm' = _acksToSend cm /\ _tickCommandsMap cm' = _tickCommandsMap cm.
Proof.
  unfold receiveAck. destruct (_receiving cm); simpl; [|by repeat split].
  destruct (_pendingAcks cm !! s); by repeat split.
Qed.

(** A property of the tick-commands map that survives every merge of a
    received entry survives the whole message. *)
Lemma receiveMessage_tickmap (P : Z -> gmap Z (gmap N (list Command)) -> Prop) msg cm :
  (forall t cs m, _tick cm <= t -> P (_tick cm) m ->
     P (_tick cm) (addCommandsForPlayer t (msg_playerId msg) (Many cs) m)) ->
  P (_tick cm) (_tickCommandsMap cm) ->
  P (_tick cm) (_tickCommandsMap (receiveMessage msg cm)) /\
  same_cfg cm (receiveMessage msg cm) /\
  _commandQueue (receiveMessage msg cm) = _commandQueue cm.
Proof.
  intros Hadd HP. unfold receiveMessage.
  apply (foldl_preserves
    (fun c => P (_tick cm) (_tickCommandsMap c) /\ same_cfg cm c /\
              _commandQueue c = _commandQueue cm)).
  - intros c t (HPc & Hc & Hq).
    destruct (receiveAck_frame (msg_playerId msg) c t) as (Hc' & Hq' & _ & Hm').
    rewrite Hm'. split; [done|]. split; [by eapply same_cfg_trans|congruence].
  - apply (foldl_preserves
      (fun c => P (_tick cm) (_tickCommandsMap c) /\ same_cfg cm c /\
                _commandQueue c = _commandQueue cm)).
    + intros c e (HPc & Hc & Hq).
      destruct (receiveEntry_frame (msg_playerId msg) c e) as (Hc' & Hq' & _ & Hm').
      split; [|split; [by eapply same_cfg_trans|congruence]].
      destruct Hm' as [->|[Hle ->]]; [done|].
      apply Hadd; [|done]. destruct Hc as (_&_&_&_&->). done.
    + split; [done|]. split; [apply same_cfg_refl|done].
Qed.

Lemma nextTick_tickmap cm :
  _tickCommandsMap (nextTick cm).1
  = delete (_tick cm - _commandDelay cm - 1)
      (addCommandsForPlayer (_tick cm + _commandDelay cm) (_playerId cm)
         (Many (match _commandQueue cm with [] => [Noop (_playerId cm)] | q => q end))
         (_tickCommandsMap cm)).
Proof.
  unfold nextTick.
  set (cm1 := scheduleEnqueuedCommands _ cm).
  destruct (sendCommands_frame (_tick cm1 + _commandDelay cm1) cm1)
    as ((_&Hd&_&_&Ht) & Hm & _).
  cbn [fst with_tick with_tickCommandsMap _tickCommandsMap].
  rewrite Hm, <- Ht, <- Hd. reflexivity.
Qed.


Lemma nextTick_cfg cm :
  let cm' := (nextTick cm).1 in
  _sortedPlayerIds cm' = _sortedPlayerIds cm /\ _commandDelay cm' = _commandDelay cm /\
  _playerId cm' = _playerId cm /\ _otherPlayerIds cm' = _otherPlayerIds cm /\
  _tick cm' = _tick cm + 1 /\ _receiving cm' = _receiving cm.
Proof.
  unfold nextTick.
  set (cm1 := scheduleEnqueuedCommands _ cm).
  destruct (sendCommands_frame (_tick cm1 + _commandDelay cm1) cm1)
    as ((Hs&Hd&Hp&Ho&Ht) & _ & _ & Hr).
  cbn [fst with_tick with_tickCommandsMap _sortedPlayerIds _commandDelay _playerId
       _otherPlayerIds _tick _receiving].
  rewrite <- Hs, <- Hd, <- Hp, <- Ho, <- Ht, Hr. by repeat split.
Qed.

(** ** The map built by the constructor *)

Lemma foldl_insert_lookup `{Countable K} {V} (f : K -> V) (l : list K)
    (m0 : gmap K V) (k : K) :
  foldl (fun m x => <[x := f x]> m) m0 l !! k
  = if decide (k ∈ l) then Some (f k) else m0 !! k.
Proof.
  revert m0. induction l as [|x l IH]; intros m0; cbn [foldl].
  - rewrite decide_False; [done|]. apply not_elem_of_nil.
  - rewrite IH. destruct (decide (k ∈ l)) as [Hin|Hnin].
    + rewrite decide_True; [done|]. by apply list_elem_of_further.
    + destruct (decide (k = x)) as [->|Hne].
      * rewrite lookup_insert_eq. rewrite decide_True; [done|]. apply list_elem_of_here.
      * rewrite lookup_insert_ne by done. rewrite decide_False; [done|].
        rewrite elem_of_cons. by intros [?|?].
Qed.

Lemma stored_init sorted d t q :
  stored (initTickCommandsMap sorted d) t q
  = if decide (t ∈ seqZ 0 d /\ q ∈ sorted) then Some [Noop q] else None.
Proof.
  unfold stored, initTickCommandsMap.
  rewrite (foldl_insert_lookup
    (fun _ : Z => foldl (fun tc p => <[p := [Noop p]]> tc) ∅ sorted)).
  destruct (decide (t ∈ seqZ 0 d)) as [Ht|Ht]; simpl.
  - rewrite (foldl_insert_lookup (fun p : N => [Noop p])).
    destruct (decide (q ∈ sorted)).
    + by rewrite decide_True.
    + rewrite lookup_empty. rewrite decide_False; [done|]. by intros [_ ?].
  - rewrite lookup_empty. simpl. rewrite decide_False; [done|]. by intros [? _].
Qed.

Lemma lookup_init sorted d t :
  is_Some (initTickCommandsMap sorted d !! t) -> 0 <= t < d.
Proof.
  unfold initTickCommandsMap.
  rewrite (foldl_insert_lookup
    (fun _ : Z => foldl (fun tc p => <[p := [Noop p]]> tc) ∅ sorted)).
  destruct (decide (t ∈ seqZ 0 d)) as [Ht|Ht].
  - intros _. apply elem_of_seqZ in Ht. lia.
  - rewrite lookup_empty. by intros [? ?].
Qed.

(** ** Invariants of a run *)

Lemma stored_delete k m t q :
  stored (delete k m) t q = if decide (k = t) then None else stored m t q.
Proof.
  unfold stored. destruct (decide (k = t)) as [->|Hne].
  - by rewrite lookup_delete_eq.
  - by rewrite lookup_delete_ne.
Qed.

Lemma nonempty_add t p cs m :
  nonempty_lists m -> nonempty_lists (addCommandsForPlayer t p (Many cs) m).
Proof.
  intros Hm t' q l. rewrite stored_add.
  case_bool_decide as Heq; [|apply Hm].
  destruct (stored m t p) as [l0|] eqn:Hs.
  - intros [= <-]. by eapply Hm.
  - destruct (payload_rejected (Many cs)) eqn:Hr; [done|].
    intros [= <-]. simpl. intros ->. by simpl in Hr.
Qed.

Lemma nonempty_delete k m : nonempty_lists m -> nonempty_lists (delete k m).
Proof.
  intros Hm t q l. rewrite stored_delete. destruct (decide (k = t)); [done|apply Hm].
Qed.

Lemma participant_add ids t p pl m :
  p ∈ ids -> participant_keys ids m ->
  participant_keys ids (addCommandsForPlayer t p pl m).
Proof.
  intros Hp Hm t' q. rewrite stored_add.
  case_bool_decide as Heq; [|apply Hm].
  destruct Heq as [_ <-]. done.
Qed.

Lemma participant_delete ids k m :
  participant_keys ids m -> participant_keys ids (delete k m).
Proof.
  intros Hm t q. rewrite stored_delete.
  destruct (decide (k = t)); [by intros [? ?]|apply Hm].
Qed.

Lemma lookup_add_is_Some t p pl m t' :
  is_Some (addCommandsForPlayer t p pl m !! t') -> t' = t \/ is_Some (m !! t').
Proof.
  destruct (payload_rejected pl) eqn:Hr.
  - rewrite addCommandsForPlayer_rejected by done. auto.
  - rewrite addCommandsForPlayer_alt by done.
    destruct (decide (t = t')) as [->|Hne]; [auto|].
    rewrite lookup_insert_ne by done. auto.
Qed.

Lemma above_add bound t p pl m :
  bound <= t -> above bound m -> above bound (addCommandsForPlayer t p pl m).
Proof.
  intros Hb Hm t' Hs. apply lookup_add_is_Some in Hs as [->|Hs]; [done|by apply Hm].
Qed.

Lemma run_app evs1 evs2 cm : run (evs1 ++ evs2) cm = run evs2 (run evs1 cm).
Proof. unfold run. apply foldl_app. Qed.

Lemma run_snoc evs ev cm : run (evs ++ [ev]) cm = apply_event (run evs cm) ev.
Proof. by rewrite run_app. Qed.

(** Fields fixed by the constructor. *)
Lemma apply_event_cfg cm ev :
  let cm' := apply_event cm ev in
  _sortedPlayerIds cm' = _sortedPlayerIds cm /\ _commandDelay cm' = _commandDelay cm /\
  _playerId cm' = _playerId cm /\ _otherPlayerIds cm' = _otherPlayerIds cm.
Proof.
  destruct ev as [c| | |msg]; cbn [apply_event].
  - by repeat split.
  - destruct (nextTick_cfg cm) as (?&?&?&?&_). by repeat split.
  - destruct (sendCommands_frame (_tick cm + _commandDelay cm - 1) cm)
      as ((?&?&?&?&_)&_). by repeat split.
  - destruct (receiveMessage_tickmap (fun _ _ => True) msg cm) as (_&(?&?&?&?&_)&_);
      [done|done|]. by repeat split.
Qed.

Lemma run_cfg evs cm :
  let cm' := run evs cm in
  _sortedPlayerIds cm' = _sortedPlayerIds cm /\ _commandDelay cm' = _commandDelay cm /\
  _playerId cm' = _playerId cm /\ _otherPlayerIds cm' = _otherPlayerIds cm.
Proof.
  induction evs as [|ev evs IH] using rev_ind; [by repeat split|].
  rewrite run_snoc. destruct IH as (?&?&?&?).
  destruct (apply_event_cfg (run evs cm) ev) as (?&?&?&?).
  repeat split; congruence.
Qed.

Lemma scheduled_payload_nonempty cm :
  match _commandQueue cm with [] => [Noop (_playerId cm)] | q => q end <> [].
Proof. by destruct (_commandQueue cm). Qed.

Lemma apply_event_nonempty cm ev :
  nonempty_lists (_tickCommandsMap cm) ->
  nonempty_lists (_tickCommandsMap (apply_event cm ev)).
Proof.
  intros Hm. destruct ev as [c| | |msg]; cbn [apply_event].
  - done.
  - rewrite nextTick_tickmap. by apply nonempty_delete, nonempty_add.
  - destruct (sendCommands_frame (_tick cm + _commandDelay cm - 1) cm) as (_&->&_). done.
  - apply (receiveMessage_tickmap (fun _ m => nonempty_lists m) msg cm); [|done].
    intros t cs m _. apply nonempty_add.
Qed.

Lemma new_nonempty p others d t0 :
  nonempty_lists (_tickCommandsMap (new p others d t0)).
Proof.
  intros t q l. simpl. rewrite stored_init.
  destruct (decide _); [|done]. by intros [= <-].
Qed.

Lemma run_nonempty p others d t0 evs :
  nonempty_lists (_tickCommandsMap (run evs (new p others d t0))).
Proof.
  induction evs as [|ev evs IH] using rev_ind; [apply new_nonempty|].
  rewrite run_snoc. by apply apply_event_nonempty.
Qed.

Lemma new_participant p others d t0 :
  participant_keys (_sortedPlayerIds (new p others d t0))
                   (_tickCommandsMap (new p others d t0)).
Proof.
  intros t q. simpl. rewrite stored_init.
  destruct (decide _) as [[_ Hq]|]; [done|]. by intros [? ?].
Qed.

Lemma apply_event_participant cm ev :
  _sortedPlayerIds cm ≡ₚ _playerId cm :: _otherPlayerIds cm ->
  peer_event cm ev ->
  participant_keys (_sortedPlayerIds cm) (_tickCommandsMap cm) ->
  participant_keys (_sortedPlayerIds cm) (_tickCommandsMap (apply_event cm ev)).
Proof.
  intros Hperm Hpeer Hm. destruct ev as [c| | |msg]; cbn [apply_event].
  - done.
  - rewrite nextTick_tickmap. apply participant_delete, participant_add; [|done].
    rewrite Hperm. apply list_elem_of_here.
  - destruct (sendCommands_frame (_tick cm + _commandDelay cm - 1) cm) as (_&->&_). done.
  - apply (receiveMessage_tickmap
             (fun _ m => participant_keys (_sortedPlayerIds cm) m) msg cm); [|done].
    intros t cs m _. apply participant_add.
    rewrite Hperm. by apply list_elem_of_further.
Qed.

Lemma run_participant p others d t0 evs :
  Forall (peer_event (new p others d t0)) evs ->
  participant_keys (js_sort (p :: others))
                   (_tickCommandsMap (run evs (new p others d t0))).
Proof.
  induction evs as [|ev evs IH] using rev_ind; intros Hall.
  - apply (new_participant p others d t0).
  - apply Forall_app in Hall as [Hevs Hev]. rewrite Forall_singleton in Hev.
    rewrite run_snoc.
    destruct (run_cfg evs (new p others d t0)) as (Hs&_&Hp&Ho).
    simpl in Hs, Hp, Ho. rewrite <- Hs.
    apply apply_event_participant.
    + rewrite Hs, Hp, Ho. apply js_sort_perm.
    + destruct ev; try done. unfold peer_event, from_peer in *.
      rewrite Ho. exact Hev.
    + rewrite Hs. by apply IH.
Qed.

Lemma size_list_to_set_le (l : list N) : (size (list_to_set l : gset N) <= length l)%nat.
Proof.
  induction l as [|x l IH]; cbn [list_to_set length].
  - rewrite size_empty. lia.
  - rewrite size_union_alt, size_singleton.
    assert (Hle : (size ((list_to_set l : gset N) ∖ {[x]}) <= size (list_to_set l : gset N))%nat).
    { apply subseteq_size. intros y Hy. by apply elem_of_difference in Hy as [? _]. }
    lia.
Qed.

(** With entries for participants only, as many entries as participants
    means an entry for each of them. *)
Lemma isTickReady_all cm t q :
  participant_keys (_sortedPlayerIds cm) (_tickCommandsMap cm) ->
  isTickReady cm t = true -> q ∈ _sortedPlayerIds cm ->
  is_Some (stored (_tickCommandsMap cm) t q).
Proof.
  unfold isTickReady, stored. intros Hkeys Hready Hq.
  destruct (_tickCommandsMap cm !! t) as [tc|] eqn:Ht; [|done]. simpl.
  apply bool_decide_eq_true in Hready.
  assert (Hsub : dom tc ⊆ (list_to_set (_sortedPlayerIds cm) : gset N)).
  { intros x Hx. apply elem_of_dom in Hx. apply elem_of_list_to_set.
    apply (Hkeys t x). unfold stored. by rewrite Ht. }
  assert (Heq : dom tc = list_to_set (_sortedPlayerIds cm)).
  { apply set_subseteq_size_eq; [done|]. rewrite size_dom, Hready.
    apply size_list_to_set_le. }
  apply elem_of_dom. rewrite Heq. by apply elem_of_list_to_set.
Qed.

Lemma receiveAll_run batch cm : receiveAll batch cm = run (map EvReceive batch) cm.
Proof.
  unfold receiveAll, run. revert cm.
  induction batch as [|m batch IH]; intros cm; simpl; [done|]. apply IH.
Qed.

(** [waitForTick] only returns in a state where the tick is ready, and
    that state is reached by resends and receptions. *)
Lemma waitForTick_run tick arrivals cm sent cm' sent' :
  waitForTick tick arrivals cm sent = Some (cm', sent') ->
  isTickReady cm' tick = true /\
  exists evs, cm' = run evs cm /\
    (Forall (Forall (from_peer cm)) arrivals -> Forall (peer_event cm) evs).
Proof.
  revert cm sent. induction arrivals as [|batch rest IH]; intros cm sent; simpl.
  - destruct (isTickReady cm tick) eqn:Hr; [|done].
    intros [= <- <-]. split; [done|]. exists []. split; [done|]. by constructor.
  - destruct (isTickReady cm tick) eqn:Hr.
    + intros [= <- <-]. split; [done|]. exists []. split; [done|]. by constructor.
    + intros Hw. apply IH in Hw as (Hready & evs & -> & Hpeer).
      split; [done|].
      exists (EvResend :: map EvReceive batch ++ evs). split.
      * rewrite receiveAll_run. change (EvResend :: map EvReceive batch ++ evs)
          with ([EvResend] ++ (map EvReceive batch ++ evs)).
        by rewrite !run_app.
      * intros Hall. inversion Hall as [|? ? Hb Hrest]; subst.
        constructor; [done|]. apply Forall_app. split.
        -- apply Forall_map. eapply Forall_impl; [exact Hb|]. by intros m Hm.
        -- assert (Ho : _otherPlayerIds
                     (receiveAll batch
                        (sendCommands (_tick cm + _commandDelay cm - 1) cm).1)
                   = _otherPlayerIds cm).
           { rewrite receiveAll_run.
             destruct (run_cfg (map EvReceive batch)
               (sendCommands (_tick cm + _commandDelay cm - 1) cm).1) as (_&_&_&->).
             by destruct (sendCommands_frame (_tick cm + _commandDelay cm - 1) cm)
               as ((_&_&_&<-&_)&_). }
           assert (Hp : forall ev, peer_event
                     (receiveAll batch
                        (sendCommands (_tick cm + _commandDelay cm - 1) cm).1) ev
                   <-> peer_event cm ev).
           { intros [| | |m]; simpl; try done. unfold from_peer. by rewrite Ho. }
           eapply Forall_impl; [apply Hpeer|].
           ++ eapply Forall_impl; [exact Hrest|]. intros b Hb'.
              eapply Forall_impl; [exact Hb'|]. intros m. unfold from_peer. by rewrite Ho.
           ++ intros ev. apply Hp.
Qed.

(** The pruning bound. *)
Lemma apply_event_above cm ev :
  0 <= _commandDelay cm ->
  above (_tick cm - _commandDelay cm - 1) (_tickCommandsMap cm) ->
  above (_tick (apply_event cm ev) - _commandDelay cm - 1)
        (_tickCommandsMap (apply_event cm ev)).
Proof.
  intros Hd Hm. destruct ev as [c| | |msg]; cbn [apply_event].
  - done.
  - rewrite nextTick_tickmap. destruct (nextTick_cfg cm) as (_&_&_&_&->&_).
    intros t [x Hx]. apply lookup_delete_Some in Hx as [Hne Hx].
    assert (Hs : is_Some (addCommandsForPlayer (_tick cm + _commandDelay cm)
      (_playerId cm)
      (Many match _commandQueue cm with [] => [Noop (_playerId cm)] | q => q end)
      (_tickCommandsMap cm) !! t)) by eauto.
    apply lookup_add_is_Some in Hs as [->|Hs]; [lia|].
    apply Hm in Hs. lia.
  - destruct (sendCommands_frame (_tick cm + _commandDelay cm - 1) cm)
      as ((_&_&_&_&<-)&->&_). done.
  - destruct (receiveMessage_tickmap
      (fun tk m => above (tk - _commandDelay cm - 1) m) msg cm) as (H&(_&_&_&_&<-)&_);
      [|done|done].
    intros t cs m Ht. apply above_add. lia.
Qed.

Lemma run_above p others d t0 evs :
  0 <= d -> t0 <= d + 1 ->
  above (_tick (run evs (new p others d t0)) - d - 1)
        (_tickCommandsMap (run evs (new p others d t0))).
Proof.
  intros Hd Ht0. induction evs as [|ev evs IH] using rev_ind.
  - intros t Hs. apply lookup_init in Hs. simpl. lia.
  - rewrite run_snoc.
    destruct (run_cfg evs (new p others d t0)) as (_&Hdel&_). simpl in Hdel.
    pose proof (apply_event_above (run evs (new p others d t0)) ev) as Hstep.
    rewrite Hdel in Hstep. by apply Hstep.
Qed.

Lemma isTickReady_ext cm cm' t :
  _tickCommandsMap cm' = _tickCommandsMap cm ->
  _sortedPlayerIds cm' = _sortedPlayerIds cm ->
  isTickReady cm' t = isTickReady cm t.
Proof. unfold isTickReady. by intros -> ->. Qed.

(** A message whose lists are all empty changes nothing in the map. *)
Lemma receiveMessage_empty_lists msg cm :
  (forall e, e ∈ msg_commands msg -> e.2 = []) ->
  _tickCommandsMap (receiveMessage msg cm) = _tickCommandsMap cm.
Proof.
  intros Hempty. unfold receiveMessage.
  apply (foldl_preserves (fun c => _tickCommandsMap c = _tickCommandsMap cm)).
  - intros c t Hc. by destruct (receiveAck_frame (msg_playerId msg) c t) as (_&_&_&->).
  - assert (Hgen : forall l c, (forall e, e ∈ l -> e.2 = []) ->
              _tickCommandsMap (foldl (receiveEntry (msg_playerId msg)) c l)
              = _tickCommandsMap c).
    { induction l as [|e l IH]; intros c Hl; simpl; [done|].
      rewrite IH by (intros e' He'; apply Hl; by apply list_elem_of_further).
      destruct (receiveEntry_frame (msg_playerId msg) c e) as (_&_&_&[->|[_ ->]]); [done|].
      rewrite (Hl e) by apply list_elem_of_here.
      by apply addCommandsForPlayer_rejected. }
    by apply Hgen.
Qed.

(** ** Acknowledgements *)

Lemma receiveEntries_acks P entries cm sa :
  _receiving cm = true -> _acksToSend cm !! P = Some sa ->
  let cm' := foldl (receiveEntry P) cm entries in
  _receiving cm' = true /\ _pendingAcks cm' = _pendingAcks cm /\
  exists sa', _acksToSend cm' !! P = Some sa' /\
    forall t, t ∈ sa' <-> t ∈ entries.*1 \/ t ∈ sa.
Proof.
  revert cm sa. induction entries as [|e entries IH]; intros cm sa Hr Hsa; simpl.
  - split; [done|]. split; [done|]. exists sa. split; [done|].
    intros t. rewrite elem_of_nil. tauto.
  - assert (Hstep : _receiving (receiveEntry P cm e) = true /\
                    _pendingAcks (receiveEntry P cm e) = _pendingAcks cm /\
                    _acksToSend (receiveEntry P cm e) !! P = Some ({[e.1]} ∪ sa)).
    { unfold receiveEntry. rewrite Hr. simpl.
      destruct (_tick cm <=? e.1); simpl; rewrite Hsa; simpl;
        by rewrite lookup_insert_eq. }
    destruct Hstep as (Hr' & Hp' & Hsa').
    destruct (IH _ _ Hr' Hsa') as (Hr'' & Hp'' & sa' & Hsa'' & Hmem).
    split; [done|]. split; [congruence|]. exists sa'. split; [done|].
    intros t. rewrite Hmem, elem_of_cons, elem_of_union, elem_of_singleton. tauto.
Qed.

Lemma receiveAcks_pending P acks cm sp :
  _receiving cm = true -> _pendingAcks cm !! P = Some sp ->
  let cm' := foldl (receiveAck P) cm acks in
  _receiving cm' = true /\ _acksToSend cm' = _acksToSend cm /\
  exists sp', _pendingAcks cm' !! P = Some sp' /\
    forall t, t ∈ sp' <-> t ∈ sp /\ t ∉ acks.
Proof.
  revert cm sp. induction acks as [|a acks IH]; intros cm sp Hr Hsp; simpl.
  - split; [done|]. split; [done|]. exists sp. split; [done|].
    intros t. rewrite elem_of_nil. tauto.
  - assert (Hstep : _receiving (receiveAck P cm a) = true /\
                    _acksToSend (receiveAck P cm a) = _acksToSend cm /\
                    _pendingAcks (receiveAck P cm a) !! P = Some (sp ∖ {[a]})).
    { unfold receiveAck. rewrite Hr. simpl. rewrite Hsp. simpl.
      by rewrite lookup_insert_eq. }
    destruct Hstep as (Hr' & Ha' & Hsp').
    destruct (IH _ _ Hr' Hsp') as (Hr'' & Ha'' & sp' & Hsp'' & Hmem).
    split; [done|]. split; [congruence|]. exists sp'. split; [done|].
    intros t. rewrite Hmem, elem_of_cons, elem_of_difference, elem_of_singleton. tauto.
Qed.

(** The messages of one [sendCommands] loop, target by target. *)
Lemma sendCommands_loop_other t tcs l st P :
  P ∉ l ->
  let st' := foldl (sendCommandsTo t tcs) st l in
  _acksToSend st'.1 !! P = _acksToSend st.1 !! P /\
  exists out, st'.2 = st.2 ++ out /\ forall x, x ∈ out -> x.1 <> P.
Proof.
  revert st. induction l as [|y l IH]; intros st Hnin; simpl.
  - split; [done|]. exists []. split; [by rewrite app_nil_r|].
    intros x Hx. by apply elem_of_nil in Hx.
  - apply not_elem_of_cons in Hnin as [Hne Hnin].
    destruct (IH (sendCommandsTo t tcs st y) Hnin) as (Ha & out & Hout & Hall).
    split.
    + rewrite Ha. simpl. by rewrite lookup_insert_ne.
    + eexists (_ :: out). split.
      * rewrite Hout. simpl. by rewrite <- app_assoc.
      * intros x Hx. apply elem_of_cons in Hx as [->|Hx]; [done|by apply Hall].
Qed.

Lemma sendCommands_loop_cleared t tcs l st P :
  _acksToSend st.1 !! P = Some ∅ ->
  let st' := foldl (sendCommandsTo t tcs) st l in
  _acksToSend st'.1 !! P = Some ∅ /\
  exists out, st'.2 = st.2 ++ out /\
    forall x, x ∈ out -> x.1 = P -> msg_acks x.2 = [].
Proof.
  revert st. induction l as [|y l IH]; intros st Hempty; simpl.
  - split; [done|]. exists []. split; [by rewrite app_nil_r|].
    intros x Hx. by apply elem_of_nil in Hx.
  - assert (Hstep : _acksToSend (sendCommandsTo t tcs st y).1 !! P = Some ∅).
    { simpl. destruct (decide (y = P)) as [->|Hne].
      - by rewrite lookup_insert_eq.
      - by rewrite lookup_insert_ne. }
    destruct (IH _ Hstep) as (Ha & out & Hout & Hall).
    split; [done|]. eexists (_ :: out). split.
    + rewrite Hout. simpl. by rewrite <- app_assoc.
    + intros x Hx HP. apply elem_of_cons in Hx as [->|Hx]; [|by apply Hall].
      simpl in *. subst y. rewrite Hempty. simpl. apply elements_empty.
Qed.

Lemma sendCommands_acks tick cm P sa :
  P ∈ _otherPlayerIds cm -> _acksToSend cm !! P = Some sa ->
  exists pre m post,
    (sendCommands tick cm).2 = pre ++ (P, m) :: post /\
    (forall x, x ∈ pre -> x.1 <> P) /\
    msg_acks m = elements sa /\
    (forall x, x ∈ post -> x.1 = P -> msg_acks x.2 = []) /\
    _acksToSend (sendCommands tick cm).1 !! P = Some ∅.
Proof.
  intros HP Hsa. unfold sendCommands.
  set (tcs := getCommandsForPlayer _ _ _).
  apply list_elem_of_split_l in HP as (l1 & l2 & -> & Hnin).
  rewrite foldl_app. cbn [foldl].
  destruct (sendCommands_loop_other tick tcs l1 (cm, []) P Hnin) as (Ha & pre & Hpre & Hpre').
  set (st1 := foldl (sendCommandsTo tick tcs) (cm, []) l1) in *.
  simpl in Hpre, Ha.
  assert (Hstep : _acksToSend (sendCommandsTo tick tcs st1 P).1 !! P = Some ∅).
  { simpl. by rewrite lookup_insert_eq. }
  destruct (sendCommands_loop_cleared tick tcs l2 _ P Hstep) as (Hfin & post & Hpost & Hpost').
  eexists pre, _, post. split; [|split; [|split; [|split]]].
  - rewrite Hpost. cbn [sendCommandsTo snd]. rewrite Hpre. by rewrite <- app_assoc.
  - done.
  - simpl. by rewrite Ha, Hsa.
  - done.
  - done.
Qed.

(** C7. A processed message of peer P removes the ticks of its ack list
    from the pending-ack set for P; the ticks of its command entries are
    put in the ack-to-send set for P, and the next message built for P
    carries such a tick exactly once, after which the set is empty (a
    further message to P of the same round carries no ack). *)
Theorem ack_lifecycle
    (cm : CommandManager) (msg : NetworkMessage) (t : Z) (sp sa : gset Z) (tick : Z) :
  _receiving cm = true ->
  msg_playerId msg ∈ _otherPlayerIds cm ->
  _pendingAcks cm !! msg_playerId msg = Some sp ->
  _acksToSend cm !! msg_playerId msg = Some sa ->
  let P := msg_playerId msg in
  let cm1 := receiveMessage msg cm in
  (t ∈ msg_acks msg ->
     exists sp', _pendingAcks cm1 !! P = Some sp' /\ t ∉ sp') /\
  (t ∈ (msg_commands msg).*1 ->
     (exists sa', _acksToSend cm1 !! P = Some sa' /\ t ∈ sa') /\
     exists pre m post,
       (sendCommands tick cm1).2 = pre ++ (P, m) :: post /\
       (forall x, x ∈ pre -> x.1 <> P) /\
       count_occ Z.eq_dec (msg_acks m) t = 1%nat /\
       (forall x, x ∈ post -> x.1 = P -> t ∉ msg_acks x.2) /\
       _acksToSend (sendCommands tick cm1).1 !! P = Some ∅).
Proof.
  intros Hr HP Hsp Hsa P cm1.
  destruct (receiveEntries_acks P (msg_commands msg) cm sa Hr Hsa)
    as (Hr1 & Hp1 & sa1 & Hsa1 & Hmem1).
  rewrite <- Hp1 in Hsp.
  destruct (receiveAcks_pending P (msg_acks msg) _ sp Hr1 Hsp)
    as (Hr2 & Ha2 & sp2 & Hsp2 & Hmem2).
  rewrite <- Ha2 in Hsa1.
  change (foldl (receiveAck P) (foldl (receiveEntry P) cm (msg_commands msg))
            (msg_acks msg)) with cm1 in *.
  split.
  - intros Ht. exists sp2. split; [done|]. rewrite Hmem2. tauto.
  - intros Ht. assert (Hin : t ∈ sa1) by (apply Hmem1; auto).
    split; [by exists sa1|].
    assert (HP1 : P ∈ _otherPlayerIds cm1).
    { destruct (apply_event_cfg cm (EvReceive msg)) as (_&_&_&Ho).
      cbn [apply_event] in Ho. fold cm1 in Ho. by rewrite Ho. }
    destruct (sendCommands_acks tick cm1 P sa1 HP1 Hsa1)
      as (pre & m & post & Hout & Hpre & Hacks & Hpost & Hclr).
    exists pre, m, post. split; [done|]. split; [done|]. split; [|split; [|done]].
    + rewrite Hacks.
      apply (proj1 (NoDup_count_occ' Z.eq_dec (elements sa1))
                   (proj1 (NoDup_ListNoDup _) (NoDup_elements sa1))).
      apply list_elem_of_In, elem_of_elements. done.
    + intros x Hx HxP. rewrite (Hpost x Hx HxP). apply not_elem_of_nil.
Qed.

(** ** Arrival order *)

Lemma inner_add_comm p1 c1 p2 c2 (tc : gmap N (list Command)) :
  p1 <> p2 ->
  inner_add p1 c1 (inner_add p2 c2 tc) = inner_add p2 c2 (inner_add p1 c1 tc).
Proof.
  intros Hne. unfold inner_add.
  destruct (tc !! p1) eqn:H1, (tc !! p2) eqn:H2;
    rewrite ?H1, ?H2, ?lookup_insert_ne, ?H1, ?H2 by done; try done.
  by apply insert_insert_ne.
Qed.

Lemma addCommandsForPlayer_comm t1 p1 c1 t2 p2 c2 m :
  ((t1, p1) = (t2, p2) -> c1 = c2 \/ c1 = [] \/ c2 = []) ->
  addCommandsForPlayer t1 p1 (Many c1) (addCommandsForPlayer t2 p2 (Many c2) m)
  = addCommandsForPlayer t2 p2 (Many c2) (addCommandsForPlayer t1 p1 (Many c1) m).
Proof.
  intros Hcompat.
  destruct (payload_rejected (Many c1)) eqn:Hr1.
  { by rewrite !(addCommandsForPlayer_rejected t1) by done. }
  destruct (payload_rejected (Many c2)) eqn:Hr2.
  { by rewrite !(addCommandsForPlayer_rejected t2) by done. }
  rewrite !addCommandsForPlayer_alt by done. cbn [payload_list].
  destruct (decide (t1 = t2)) as [->|Hne].
  - rewrite !lookup_insert_eq. cbn [default]. rewrite !insert_insert_eq.
    f_equal. destruct (decide (p1 = p2)) as [->|Hp].
    + destruct Hcompat as [->|[->| ->]]; done.
    + by apply inner_add_comm.
  - rewrite !lookup_insert_ne by done. by apply insert_insert_ne.
Qed.

Lemma merge_comm tk d1 d2 m :
  compatible d1 d2 -> merge tk (merge tk m d1) d2 = merge tk (merge tk m d2) d1.
Proof.
  destruct d1 as [[p1 t1] c1], d2 as [[p2 t2] c2]. unfold compatible, merge. simpl.
  intros Hcompat.
  destruct (tk <=? t1), (tk <=? t2); try done.
  apply addCommandsForPlayer_comm. intros [= -> ->].
  destruct Hcompat as [->|[->| ->]]; auto.
Qed.

Lemma foldl_perm_comm {A B} (f : A -> B -> A) (l1 l2 : list B) :
  l1 ≡ₚ l2 ->
  (forall x y a, x ∈ l1 -> y ∈ l1 -> f (f a x) y = f (f a y) x) ->
  forall a, foldl f a l1 = foldl f a l2.
Proof.
  induction 1 as [|x l1 l2 Hp IH|x y l|l1 l2 l3 Hp1 IH1 Hp2 IH2]; intros Hc a; simpl.
  - done.
  - apply IH. intros x' y' a' Hx Hy. apply Hc; by apply list_elem_of_further.
  - f_equal. apply Hc.
    + apply list_elem_of_here.
    + apply list_elem_of_further, list_elem_of_here.
  - rewrite IH1 by done. apply IH2.
    intros x y a' Hx Hy. apply Hc; by rewrite Hp1.
Qed.

Lemma keeps_insert P (s : gset Z) (a : gmap N (gset Z)) : keeps a (<[P := s]> a).
Proof.
  intros Q HQ. destruct (decide (P = Q)) as [->|Hne].
  - rewrite lookup_insert_eq. by eexists.
  - by rewrite lookup_insert_ne.
Qed.

Lemma receiveEntry_keeps s cm e :
  keeps (_acksToSend cm) (_acksToSend (receiveEntry s cm e)).
Proof.
  unfold receiveEntry. destruct (_receiving cm); simpl; [|by intros ?].
  destruct (_tick cm <=? e.1); simpl;
    destruct (_acksToSend cm !! s); simpl; try apply keeps_insert; by intros ?.
Qed.

Lemma receiveAck_keeps s cm t :
  keeps (_pendingAcks cm) (_pendingAcks (receiveAck s cm t)).
Proof.
  unfold receiveAck. destruct (_receiving cm); simpl; [|by intros ?].
  destruct (_pendingAcks cm !! s); simpl; try apply keeps_insert; by intros ?.
Qed.

Lemma receiveMessage_keeps msg cm :
  keeps (_acksToSend cm) (_acksToSend (receiveMessage msg cm)) /\
  keeps (_pendingAcks cm) (_pendingAcks (receiveMessage msg cm)).
Proof.
  unfold receiveMessage.
  apply (foldl_preserves (fun c => keeps (_acksToSend cm) (_acksToSend c) /\
                                   keeps (_pendingAcks cm) (_pendingAcks c))).
  - intros c t [Ha Hp].
    destruct (receiveAck_frame (msg_playerId msg) c t) as (_&_&->&_).
    split; [done|]. intros P HP. by apply receiveAck_keeps, Hp.
  - apply (foldl_preserves (fun c => keeps (_acksToSend cm) (_acksToSend c) /\
                                     keeps (_pendingAcks cm) (_pendingAcks c))).
    + intros c e [Ha Hp].
      destruct (receiveEntry_frame (msg_playerId msg) c e) as (_&_&->&_).
      split; [|done]. intros P HP. by apply receiveEntry_keeps, Ha.
    + split; by intros ?.
Qed.

Lemma sendCommands_keeps t cm :
  keeps (_acksToSend cm) (_acksToSend (sendCommands t cm).1) /\
  keeps (_pendingAcks cm) (_pendingAcks (sendCommands t cm).1).
Proof.
  unfold sendCommands.
  apply (foldl_preserves (fun st => keeps (_acksToSend cm) (_acksToSend st.1) /\
                                    keeps (_pendingAcks cm) (_pendingAcks st.1))).
  - intros st target [Ha Hp]. simpl. split; intros P HP; apply keeps_insert; auto.
  - split; by intros ?.
Qed.

Lemma receiveEntries_tickmap P entries cm :
  _receiving cm = true -> is_Some (_acksToSend cm !! P) ->
  _tickCommandsMap (foldl (receiveEntry P) cm entries)
  = foldl (merge (_tick cm)) (_tickCommandsMap cm)
          (map (fun e => (P, e.1, e.2)) entries).
Proof.
  revert cm. induction entries as [|e entries IH]; intros cm Hr [sa Hsa]; simpl; [done|].
  assert (Hstep : _receiving (receiveEntry P cm e) = true /\
                  is_Some (_acksToSend (receiveEntry P cm e) !! P) /\
                  _tick (receiveEntry P cm e) = _tick cm /\
                  _tickCommandsMap (receiveEntry P cm e)
                  = merge (_tick cm) (_tickCommandsMap cm) (P, e.1, e.2)).
  { unfold receiveEntry, merge. rewrite Hr. simpl.
    destruct (_tick cm <=? e.1); simpl; rewrite Hsa; simpl;
      rewrite lookup_insert_eq; eauto. }
  destruct Hstep as (Hr' & Hs' & Ht' & Hm').
  rewrite IH by done. by rewrite Ht', Hm'.
Qed.

Lemma receiveAcks_tickmap P acks cm :
  _tickCommandsMap (foldl (receiveAck P) cm acks) = _tickCommandsMap cm.
Proof.
  revert cm. induction acks as [|a acks IH]; intros cm; simpl; [done|].
  rewrite IH. by destruct (receiveAck_frame P cm a) as (_&_&_&->).
Qed.

Lemma receiveMessage_live msg cm :
  live cm -> from_peer cm msg ->
  live (receiveMessage msg cm) /\
  _tick (receiveMessage msg cm) = _tick cm /\
  _otherPlayerIds (receiveMessage msg cm) = _otherPlayerIds cm /\
  _sortedPlayerIds (receiveMessage msg cm) = _sortedPlayerIds cm /\
  _tickCommandsMap (receiveMessage msg cm)
  = foldl (merge (_tick cm)) (_tickCommandsMap cm) (deliveries msg).
Proof.
  intros [Hr Hacks] Hpeer.
  destruct (Hacks _ Hpeer) as [[sa Hsa] [sp Hsp]].
  destruct (receiveEntries_acks _ (msg_commands msg) cm sa Hr Hsa)
    as (Hr1 & Hp1 & _).
  rewrite <- Hp1 in Hsp.
  destruct (receiveAcks_pending _ (msg_acks msg) _ sp Hr1 Hsp) as (Hr2 & _).
  destruct (receiveMessage_tickmap (fun _ _ => True) msg cm) as (_&(Hs&_&_&Ho&Ht)&_);
    [done|done|].
  destruct (receiveMessage_keeps msg cm) as [Hka Hkp].
  split; [split|].
  - exact Hr2.
  - intros P HP. rewrite <- Ho in HP. destruct (Hacks P HP). split; auto.
  - split; [done|]. split; [done|]. split; [done|].
    unfold receiveMessage. rewrite receiveAcks_tickmap.
    apply receiveEntries_tickmap; [done|by eexists].
Qed.

Lemma receiveAll_tickmap msgs cm :
  live cm -> Forall (from_peer cm) msgs ->
  _sortedPlayerIds (receiveAll msgs cm) = _sortedPlayerIds cm /\
  _tickCommandsMap (receiveAll msgs cm)
  = foldl (merge (_tick cm)) (_tickCommandsMap cm) (flat_map deliveries msgs).
Proof.
  revert cm. induction msgs as [|msg msgs IH]; intros cm Hlive Hall; simpl; [done|].
  inversion Hall as [|? ? Hmsg Hrest]; subst.
  destruct (receiveMessage_live msg cm Hlive Hmsg) as (Hlive' & Ht & Ho & Hs & Hm).
  unfold receiveAll in *. simpl.
  destruct (IH (receiveMessage msg cm)) as [Hs' Hm'].
  - done.
  - eapply Forall_impl; [exact Hrest|]. intros m. unfold from_peer. by rewrite Ho.
  - split; [congruence|]. by rewrite Hm', Ht, Hm, foldl_app.
Qed.

Lemma new_live p others d t0 : live (new p others d t0).
Proof.
  split; [done|]. intros P HP. simpl. unfold empty_acks.
  rewrite (foldl_insert_lookup (fun _ : N => (∅ : gset Z))).
  rewrite decide_True by done. split; by eexists.
Qed.

Lemma apply_event_live cm ev :
  peer_event cm ev -> live cm -> live (apply_event cm ev).
Proof.
  intros Hpeer Hlive. destruct ev as [c| | |msg]; cbn [apply_event].
  - done.
  - destruct Hlive as [Hr Hacks]. destruct (nextTick_cfg cm) as (_&_&_&Ho&_&Hr').
    split; [congruence|]. intros P HP. rewrite Ho in HP.
    destruct (Hacks P HP) as [Ha Hp].
    unfold nextTick. cbn [fst with_tick with_tickCommandsMap _acksToSend _pendingAcks].
    set (cm1 := scheduleEnqueuedCommands _ cm).
    destruct (sendCommands_keeps (_tick cm1 + _commandDelay cm1) cm1) as [Hka Hkp].
    split; [by apply Hka|by apply Hkp].
  - destruct Hlive as [Hr Hacks].
    destruct (sendCommands_frame (_tick cm + _commandDelay cm - 1) cm)
      as ((_&_&_&Ho&_)&_&_&Hr').
    destruct (sendCommands_keeps (_tick cm + _commandDelay cm - 1) cm) as [Hka Hkp].
    split; [congruence|]. intros P HP. rewrite <- Ho in HP.
    destruct (Hacks P HP). split; auto.
  - by apply receiveMessage_live.
Qed.

Lemma run_live p others d t0 evs :
  Forall (peer_event (new p others d t0)) evs -> live (run evs (new p others d t0)).
Proof.
  induction evs as [|ev evs IH] using rev_ind; intros Hall.
  - apply new_live.
  - apply Forall_app in Hall as [Hevs Hev]. rewrite Forall_singleton in Hev.
    rewrite run_snoc. apply apply_event_live; [|by apply IH].
    destruct (run_cfg evs (new p others d t0)) as (_&_&_&Ho).
    destruct ev; try done. unfold peer_event, from_peer in *. rewrite Ho. exact Hev.
Qed.

Lemma merge_settled tk m d : settled tk m d -> merge tk m d = m.
Proof.
  unfold settled, merge. intros [Hlt|[Hnil|[l Hl]]].
  - destruct (Z.leb_spec tk d.1.2); [lia|done].
  - destruct (tk <=? d.1.2); [|done]. rewrite Hnil.
    by apply addCommandsForPlayer_rejected.
  - destruct (tk <=? d.1.2); [|done]. by eapply addCommandsForPlayer_taken.
Qed.

Lemma stored_merge_mono tk m d t q :
  is_Some (stored m t q) -> is_Some (stored (merge tk m d) t q).
Proof.
  intros [l Hl]. unfold merge. destruct (tk <=? d.1.2); [|by eexists].
  rewrite stored_add. case_bool_decide as Heq; [|by eexists].
  destruct Heq as [-> ->]. rewrite Hl. by eexists.
Qed.

Lemma settled_merge tk m d : settled tk (merge tk m d) d.
Proof.
  unfold settled, merge.
  destruct (Z.leb_spec tk d.1.2) as [Hle|Hlt]; [|by left].
  destruct d.2 as [|c cs] eqn:Hd; [by right; left|].
  right; right. rewrite stored_add, bool_decide_eq_true_2 by done.
  destruct (stored m d.1.2 d.1.1); by eexists.
Qed.

Lemma settled_mono tk m d d' : settled tk m d -> settled tk (merge tk m d') d.
Proof.
  intros [?|[?|Hs]]; [by left|by right; left|].
  right; right. by apply stored_merge_mono.
Qed.

Lemma settled_foldl tk ds m d :
  settled tk m d -> settled tk (foldl (merge tk) m ds) d.
Proof.
  revert m. induction ds as [|d' ds IH]; intros m Hd; simpl; [done|].
  by apply IH, settled_mono.
Qed.

Lemma foldl_merge_settles tk ds m d :
  d ∈ ds -> settled tk (foldl (merge tk) m ds) d.
Proof.
  revert m. induction ds as [|d' ds IH]; intros m Hd; simpl.
  - by apply elem_of_nil in Hd.
  - apply elem_of_cons in Hd as [->|Hd]; [|by apply IH].
    apply settled_foldl, settled_merge.
Qed.

Lemma foldl_merge_settled tk ds m :
  (forall d, d ∈ ds -> settled tk m d) -> foldl (merge tk) m ds = m.
Proof.
  induction ds as [|d ds IH]; intros Hall; simpl; [done|].
  rewrite merge_settled by apply Hall, list_elem_of_here.
  apply IH. intros d' Hd'. by apply Hall, list_elem_of_further.
Qed.

(** Receiving the same message of a peer a second time leaves the map as
    the first reception left it. *)
Lemma receiveMessage_twice msg cm :
  live cm -> from_peer cm msg ->
  _tickCommandsMap (receiveMessage msg (receiveMessage msg cm))
  = _tickCommandsMap (receiveMessage msg cm).
Proof.
  intros Hlive Hpeer.
  destruct (receiveMessage_live msg cm Hlive Hpeer) as (Hlive' & Ht & Ho & _ & Hm).
  assert (Hpeer' : from_peer (receiveMessage msg cm) msg).
  { unfold from_peer in *. by rewrite Ho. }
  destruct (receiveMessage_live msg _ Hlive' Hpeer') as (_ & _ & _ & _ & Hm').
  rewrite Hm', Ht, Hm. apply foldl_merge_settled.
  intros d Hd. by apply foldl_merge_settles.
Qed.

(** ** What a manager sends *)

Lemma obj_set_elem {V} (k : Z) (v : V) (o : list (Z * V)) (e : Z * V) :
  e ∈ obj_set k v o -> e = (k, v) \/ e ∈ o.
Proof.
  induction o as [|[k' v'] o IH]; simpl.
  - intros He. apply list_elem_of_singleton in He. auto.
  - destruct (k =? k'); [|destruct (is_index k && (negb (is_index k') || (k <? k')))];
      intros He;
      apply elem_of_cons in He as [->|He]; auto using list_elem_of_here, list_elem_of_further.
    destruct (IH He); auto using list_elem_of_further.
Qed.

Lemma foldl_obj_set_elem {V} (f : Z -> V) (l : list Z) (o : list (Z * V)) (e : Z * V) :
  e ∈ foldl (fun o t => obj_set t (f t) o) o l ->
  e ∈ o \/ exists t, t ∈ l /\ e = (t, f t).
Proof.
  revert o. induction l as [|t l IH]; intros o; simpl; [auto|].
  intros He. apply IH in He as [He|(t' & Ht' & ->)].
  - apply obj_set_elem in He as [->|He]; [|auto].
    right. exists t. split; [apply list_elem_of_here|done].
  - right. exists t'. split; [by apply list_elem_of_further|done].
Qed.

(** The messages of one [sendCommands]: sent in the manager's name, each
    entry carrying the manager's stored list (or none) for the tick asked
    for or for a pending tick. *)
Lemma sendCommands_sent tk cm :
  (forall x e, x ∈ (sendCommands tk cm).2 -> e ∈ msg_commands x.2 ->
     msg_playerId x.2 = _playerId cm /\
     e.2 = getCommandsForPlayer (_tickCommandsMap cm) e.1 (_playerId cm) /\
     (e.1 = tk \/ exists P s, _pendingAcks cm !! P = Some s /\ e.1 ∈ s)) /\
  (forall P s t, _pendingAcks (sendCommands tk cm).1 !! P = Some s -> t ∈ s ->
     t = tk \/ exists s0, _pendingAcks cm !! P = Some s0 /\ t ∈ s0).
Proof.
  unfold sendCommands.
  set (tcs := getCommandsForPlayer (_tickCommandsMap cm) tk (_playerId cm)).
  assert (Hinv : forall l st,
    (_tickCommandsMap st.1 = _tickCommandsMap cm /\ _playerId st.1 = _playerId cm /\
     (forall P s t, _pendingAcks st.1 !! P = Some s -> t ∈ s ->
        t = tk \/ exists s0, _pendingAcks cm !! P = Some s0 /\ t ∈ s0) /\
     (forall x e, x ∈ st.2 -> e ∈ msg_commands x.2 ->
        msg_playerId x.2 = _playerId cm /\
        e.2 = getCommandsForPlayer (_tickCommandsMap cm) e.1 (_playerId cm) /\
        (e.1 = tk \/ exists P s, _pendingAcks cm !! P = Some s /\ e.1 ∈ s))) ->
    let st' := foldl (sendCommandsTo tk tcs) st l in
    (forall x e, x ∈ st'.2 -> e ∈ msg_commands x.2 ->
        msg_playerId x.2 = _playerId cm /\
        e.2 = getCommandsForPlayer (_tickCommandsMap cm) e.1 (_playerId cm) /\
        (e.1 = tk \/ exists P s, _pendingAcks cm !! P = Some s /\ e.1 ∈ s)) /\
    (forall P s t, _pendingAcks st'.1 !! P = Some s -> t ∈ s ->
        t = tk \/ exists s0, _pendingAcks cm !! P = Some s0 /\ t ∈ s0)).
  { induction l as [|target l IH]; intros st (Hm & Hp & Hpend & Hout); simpl.
    - split; done.
    - apply IH. simpl. split; [done|]. split; [done|]. split.
      + intros P s t. destruct (decide (target = P)) as [->|Hne].
        * rewrite lookup_insert_eq. intros [= <-] Ht.
          apply elem_of_union in Ht as [Ht|Ht].
          -- left. by apply elem_of_singleton in Ht.
          -- destruct (_pendingAcks st.1 !! P) as [s1|] eqn:Hs1; simpl in Ht.
             ++ by eapply Hpend.
             ++ by apply elem_of_empty in Ht.
        * rewrite lookup_insert_ne by done. apply Hpend.
      + intros x e Hx He. apply elem_of_app in Hx as [Hx|Hx]; [by apply Hout|].
        apply list_elem_of_singleton in Hx as ->. simpl in *.
        split; [done|].
        apply foldl_obj_set_elem in He as [He|(t & Ht & ->)].
        * apply list_elem_of_singleton in He as ->.
          simpl. split; [done|by left].
        * simpl. rewrite Hm, Hp. split; [done|].
          apply elem_of_elements in Ht.
          destruct (_pendingAcks st.1 !! target) as [s1|] eqn:Hs1; simpl in Ht.
          -- destruct (Hpend _ _ _ Hs1 Ht) as [->|(s0 & Hs0 & Ht0)]; [by left|].
             right. by exists target, s0.
          -- by apply elem_of_empty in Ht. }
  apply Hinv. simpl. split; [done|]. split; [done|]. split.
  - intros P s t Hs Ht. right. by exists s.
  - intros x e Hx. by apply elem_of_nil in Hx.
Qed.

Lemma receiveMessage_pending msg cm P s' :
  _pendingAcks (receiveMessage msg cm) !! P = Some s' ->
  exists s, _pendingAcks cm !! P = Some s /\ s' ⊆ s.
Proof.
  revert P s'. unfold receiveMessage.
  apply (foldl_preserves (fun c => forall P s', _pendingAcks c !! P = Some s' ->
                                   exists s, _pendingAcks cm !! P = Some s /\ s' ⊆ s)).
  - intros c t Hc P s'. unfold receiveAck.
    destruct (_receiving c); simpl; [|apply Hc].
    destruct (_pendingAcks c !! msg_playerId msg) as [s1|] eqn:Hs1; simpl; [|apply Hc].
    destruct (decide (msg_playerId msg = P)) as [<-|Hne].
    + rewrite lookup_insert_eq. intros [= <-].
      destruct (Hc _ _ Hs1) as (s & Hs & Hsub). exists s. split; [done|].
      intros y Hy. apply Hsub. by apply elem_of_difference in Hy as [? _].
    + rewrite lookup_insert_ne by done. apply Hc.
  - apply (foldl_preserves (fun c => forall P s', _pendingAcks c !! P = Some s' ->
                                     exists s, _pendingAcks cm !! P = Some s /\ s' ⊆ s)).
    + intros c e Hc P s'.
      destruct (receiveEntry_frame (msg_playerId msg) c e) as (_ & _ & -> & _). apply Hc.
    + intros P s' Hs. by exists s'.
Qed.

Lemma receiveMessage_stored_other msg cm t q :
  msg_playerId msg <> q ->
  stored (_tickCommandsMap (receiveMessage msg cm)) t q = stored (_tickCommandsMap cm) t q.
Proof.
  intros Hne.
  apply (receiveMessage_tickmap
           (fun _ m => stored m t q = stored (_tickCommandsMap cm) t q) msg cm); [|done].
  intros t' cs m _ Hm. rewrite stored_add, Hm.
  rewrite bool_decide_eq_false_2; [done|]. by intros [_ ?].
Qed.

Lemma nextTick_output cm :
  (nextTick cm).2
  = (sendCommands (_tick cm + _commandDelay cm)
       (scheduleEnqueuedCommands (_tick cm + _commandDelay cm) cm)).2 /\
  _pendingAcks (nextTick cm).1
  = _pendingAcks (sendCommands (_tick cm + _commandDelay cm)
       (scheduleEnqueuedCommands (_tick cm + _commandDelay cm) cm)).1.
Proof. by split. Qed.

Lemma stored_getCommandsForPlayer m t q l :
  l = getCommandsForPlayer m t q -> l <> [] -> stored m t q = Some l.
Proof.
  unfold getCommandsForPlayer, stored. destruct (m !! t) as [tc|]; simpl.
  - destruct (tc !! q); simpl; [by intros ->|by intros ->].
  - by intros ->.
Qed.

(** Every event of a peer-fed run keeps the publications coherent. *)
Lemma apply_event_published F cm sent ev :
  _playerId cm ∉ _otherPlayerIds cm -> peer_event cm ev ->
  published F cm sent ->
  exists F', published F' (apply_event cm ev) (sent ++ event_output cm ev).
Proof.
  intros Hself Hpeer (Hsent & Hstored & Hpend).
  destruct ev as [c| | |msg]; cbn [apply_event event_output].
  - exists F. rewrite app_nil_r. by split.
  - (* nextTick *)
    set (T := _tick cm). set (d := _commandDelay cm). set (self := _playerId cm).
    set (cm1 := scheduleEnqueuedCommands (T + d) cm).
    destruct (nextTick_output cm) as [Hout Hpnd]. fold T d cm1 in Hout, Hpnd.
    destruct (nextTick_cfg cm) as (_ & Hd' & Hp' & _ & Ht' & _).
    pose proof (nextTick_tickmap cm) as Hmap. fold T d self in Hmap.
    set (m1 := addCommandsForPlayer (T + d) self
                 (Many match _commandQueue cm with [] => [Noop self] | q => q end)
                 (_tickCommandsMap cm)) in *.
    assert (Hm1 : _tickCommandsMap cm1 = m1) by reflexivity.
    assert (Hp1 : _playerId cm1 = self) by reflexivity.
    assert (Hpa1 : _pendingAcks cm1 = _pendingAcks cm) by reflexivity.
    destruct (sendCommands_sent (T + d) cm1) as [Hnew Hnewp].
    rewrite Hm1, Hp1, Hpa1 in Hnew. rewrite Hpa1 in Hnewp.
    assert (Hold : forall t, t <> T + d -> stored m1 t self = stored (_tickCommandsMap cm) t self).
    { intros t Hne. unfold m1. rewrite stored_add.
      rewrite bool_decide_eq_false_2; [done|]. intros [? _]. by apply Hne. }
    exists (fun t => if t =? T + d then default [] (stored m1 (T + d) self) else F t).
    rewrite Hout. split; [|split].
    + intros x e Hx He. rewrite Hp', Ht', Hd'. fold T d self.
      apply elem_of_app in Hx as [Hx|Hx].
      * destruct (Hsent x e Hx He) as [Hid Hne]. split; [done|].
        intros Hnil. destruct (Hne Hnil) as [Hlt ->]. fold T d in Hlt. split; [lia|].
        destruct (Z.eqb_spec e.1 (T + d)); [lia|done].
      * destruct (Hnew x e Hx He) as (Hid & Hl & Hwhich). split; [done|].
        intros Hnil. apply stored_getCommandsForPlayer in Hl; [|done].
        assert (Hlt : e.1 < T + d \/ e.1 = T + d).
        { destruct Hwhich as [->|(P & s & Hs & Hin)]; [by right|].
          left. by apply (Hpend P s). }
        split; [lia|].
        destruct (Z.eqb_spec e.1 (T + d)) as [Heq|Hne].
        -- rewrite Heq in Hl. by rewrite Hl.
        -- rewrite Hold in Hl by done. apply Hstored; [fold T d; lia|done].
    + intros t l. rewrite Hp', Ht', Hd', Hmap. fold T d self.
      rewrite stored_delete. destruct (decide (T - d - 1 = t)); [done|].
      intros Hlt Hs. destruct (Z.eqb_spec t (T + d)) as [->|Hne].
      * by rewrite Hs.
      * rewrite Hold in Hs by done. apply Hstored; [fold T d; lia|done].
    + intros P s t. rewrite Hpnd, Ht', Hd'. fold T d. intros Hs Hin.
      destruct (Hnewp P s t Hs Hin) as [->|(s0 & Hs0 & Hin0)]; [lia|].
      pose proof (Hpend P s0 t Hs0 Hin0) as Hlt. fold T d in Hlt. lia.
  - (* a resend *)
    set (T := _tick cm) in *. set (d := _commandDelay cm) in *.
    destruct (sendCommands_sent (T + d - 1) cm) as [Hnew Hnewp].
    destruct (sendCommands_frame (T + d - 1) cm) as ((_ & Hd' & Hp' & _ & Ht') & Hm' & _).
    exists F. split; [|split].
    + intros x e Hx He. rewrite <- Hp', <- Ht', <- Hd'. fold T d.
      apply elem_of_app in Hx as [Hx|Hx]; [by apply Hsent|].
      destruct (Hnew x e Hx He) as (Hid & Hl & Hwhich). split; [done|].
      intros Hnil. apply stored_getCommandsForPlayer in Hl; [|done].
      assert (Hlt : e.1 < T + d).
      { destruct Hwhich as [->|(P & s & Hs & Hin)]; [lia|]. by apply (Hpend P s). }
      split; [done|]. by apply Hstored.
    + intros t l. rewrite <- Hp', <- Ht', <- Hd', Hm'. apply Hstored.
    + intros P s t. rewrite <- Ht', <- Hd'. fold T d. intros Hs Hin.
      destruct (Hnewp P s t Hs Hin) as [->|(s0 & Hs0 & Hin0)]; [lia|].
      by apply (Hpend P s0).
  - (* a message of a peer *)
    destruct (receiveMessage_tickmap (fun _ _ => True) msg cm)
      as (_ & (_ & Hd' & Hp' & _ & Ht') & _); [done|done|].
    exists F. rewrite app_nil_r. split; [|split].
    + intros x e Hx He. rewrite <- Hp', <- Ht', <- Hd'. by apply Hsent.
    + intros t l. rewrite <- Hp', <- Ht', <- Hd'.
      rewrite receiveMessage_stored_other; [apply Hstored|].
      simpl in Hpeer. unfold from_peer in Hpeer. intros Heq. apply Hself.
      by rewrite <- Heq.
    + intros P s t. rewrite <- Ht', <- Hd'. intros Hs Hin.
      apply receiveMessage_pending in Hs as (s0 & Hs0 & Hsub).
      apply (Hpend P s0); [done|]. by apply Hsub.
Qed.

Lemma run_sending_snoc evs ev cm :
  run_sending (evs ++ [ev]) cm
  = (apply_event (run_sending evs cm).1 ev,
     (run_sending evs cm).2 ++ event_output (run_sending evs cm).1 ev).
Proof. unfold run_sending. by rewrite foldl_app. Qed.

Lemma run_sending_state evs cm : (run_sending evs cm).1 = run evs cm.
Proof.
  induction evs as [|ev evs IH] using rev_ind; [done|].
  rewrite run_sending_snoc, run_snoc. simpl. by rewrite IH.
Qed.

Lemma run_published p others d t0 evs :
  p ∉ others -> Forall (peer_event (new p others d t0)) evs ->
  exists F, published F (run_sending evs (new p others d t0)).1
                        (run_sending evs (new p others d t0)).2.
Proof.
  intros Hself. induction evs as [|ev evs IH] using rev_ind; intros Hall.
  - exists (fun t => default [] (stored (_tickCommandsMap (new p others d t0)) t p)).
    split; [|split].
    + intros x e Hx. by apply elem_of_nil in Hx.
    + intros t l _ Hs. cbn [run_sending foldl fst] in Hs. cbn [_playerId new] in Hs.
      by rewrite Hs.
    + intros P s t Hs Hin. exfalso. cbn [run_sending foldl fst _pendingAcks new] in Hs.
      unfold empty_acks in Hs.
      rewrite (foldl_insert_lookup (fun _ : N => (∅ : gset Z))) in Hs.
      destruct (decide (P ∈ others)); [|by rewrite lookup_empty in Hs].
      injection Hs as <-. by apply elem_of_empty in Hin.
  - apply Forall_app in Hall as [Hevs Hev]. rewrite Forall_singleton in Hev.
    destruct (IH Hevs) as [F HF].
    rewrite run_sending_snoc. cbn [fst snd].
    destruct (run_cfg evs (new p others d t0)) as (_ & _ & Hp & Ho).
    rewrite <- run_sending_state in Hp, Ho.
    eapply apply_event_published; [| |exact HF].
    + rewrite Hp, Ho. exact Hself.
    + destruct ev; try done. unfold peer_event, from_peer in *. rewrite Ho. exact Hev.
Qed.

(** What one manager sends over a run is consistent. *)
Lemma sent_by_one_consistent p others d t0 evs m1 m2 e1 e2 :
  p ∉ others -> Forall (peer_event (new p others d t0)) evs ->
  m1 ∈ (run_sending evs (new p others d t0)).2.*2 ->
  m2 ∈ (run_sending evs (new p others d t0)).2.*2 ->
  e1 ∈ msg_commands m1 -> e2 ∈ msg_commands m2 -> e1.1 = e2.1 ->
  msg_playerId m1 = p /\ (e1.2 = e2.2 \/ e1.2 = [] \/ e2.2 = []).
Proof.
  intros Hself Hall Hm1 Hm2 He1 He2 Heq.
  destruct (run_published p others d t0 evs Hself Hall) as (F & Hsent & _).
  apply list_elem_of_fmap in Hm1 as (x1 & -> & Hx1).
  apply list_elem_of_fmap in Hm2 as (x2 & -> & Hx2).
  destruct (Hsent x1 e1 Hx1 He1) as [Hid1 Hl1].
  destruct (Hsent x2 e2 Hx2 He2) as [_ Hl2].
  split.
  - rewrite Hid1, run_sending_state.
    by destruct (run_cfg evs (new p others d t0)) as (_ & _ & -> & _).
  - destruct (decide (e1.2 = [])) as [|Hn1]; [auto|].
    destruct (decide (e2.2 = [])) as [|Hn2]; [auto|].
    left. destruct (Hl1 Hn1) as [_ ->]. destruct (Hl2 Hn2) as [_ ->]. by rewrite Heq.
Qed.

(** Messages that were all sent by managers, one run per player id, which
    take messages from their peers only, are consistent. *)
Lemma sent_messages_consistent
    (others : N -> list N) (d t0 : N -> Z) (evs : N -> list Event)
    (msgs : list NetworkMessage) :
  (forall q, (q ∉ others q) /\ Forall (peer_event (new q (others q) (d q) (t0 q))) (evs q)) ->
  (forall m, m ∈ msgs ->
     exists q, m ∈ (run_sending (evs q) (new q (others q) (d q) (t0 q))).2.*2) ->
  consistent msgs.
Proof.
  intros Hruns Hsent d1 d2 Hd1 Hd2 Hkey.
  apply list_elem_of_In, in_flat_map in Hd1 as (m1 & Hm1 & Hd1).
  apply list_elem_of_In, in_flat_map in Hd2 as (m2 & Hm2 & Hd2).
  apply in_map_iff in Hd1 as (e1 & <- & He1). apply in_map_iff in Hd2 as (e2 & <- & He2).
  apply list_elem_of_In in Hm1, Hm2, He1, He2. simpl in *.
  injection Hkey as Hsender Htick.
  destruct (Hsent m1 Hm1) as (q1 & Hq1). destruct (Hsent m2 Hm2) as (q2 & Hq2).
  destruct (Hruns q1) as [Hs1 Hp1]. destruct (Hruns q2) as [Hs2 Hp2].
  destruct (sent_by_one_consistent q1 _ _ _ _ m1 m1 e1 e1 Hs1 Hp1 Hq1 Hq1 He1 He1 eq_refl)
    as [Hid1 _].
  destruct (sent_by_one_consistent q2 _ _ _ _ m2 m2 e2 e2 Hs2 Hp2 Hq2 Hq2 He2 He2 eq_refl)
    as [Hid2 _].
  assert (q1 = q2) as -> by congruence.
  by destruct (sent_by_one_consistent q2 _ _ _ _ m1 m2 e1 e2 Hs2 Hp2 Hq1 Hq2 He1 He2 Htick)
    as [_ ?].
Qed.

(** C1 (as the code has it). [getAllCommands(t)] is the concatenation of
    the participants' stored lists, a missing list counting as empty, in
    the order of [_sortedPlayerIds]; that list is the participants' ids
    sorted by [Array.prototype.sort()] without a comparator, that is by
    their decimal strings, which is ascending numeric order whenever every
    id is below 10.  The result depends on the stored lists only: feeding a
    manager the same consistent messages of its peers in another order
    gives the same result (what managers send is consistent, see
    [sent_messages_consistent]). *)
Theorem getAllCommands_order_is_fixed
    (p : N) (others : list N) (d t0 : Z) (evs : list Event)
    (msgs1 msgs2 : list NetworkMessage) (t : Z) :
  let cm := run evs (new p others d t0) in
  Forall (peer_event (new p others d t0)) evs ->
  Forall (from_peer (new p others d t0)) msgs1 ->
  msgs1 ≡ₚ msgs2 -> consistent msgs1 ->
  _sortedPlayerIds cm = js_sort (p :: others) /\
  js_sort (p :: others) ≡ₚ p :: others /\
  Sorted js_le (js_sort (p :: others)) /\
  (Forall (fun n => (n < 10)%N) (p :: others) -> Sorted N.le (js_sort (p :: others))) /\
  getAllCommands cm t
  = concat (map (getCommandsForPlayer (_tickCommandsMap cm) t) (js_sort (p :: others))) /\
  getAllCommands (receiveAll msgs1 cm) t = getAllCommands (receiveAll msgs2 cm) t.
Proof.
  intros cm Hevs Hmsgs Hperm Hcons.
  destruct (run_cfg evs (new p others d t0)) as (Hs&_&_&Ho). fold cm in Hs, Ho.
  change (_sortedPlayerIds (new p others d t0)) with (js_sort (p :: others)) in Hs.
  change (_otherPlayerIds (new p others d t0)) with others in Ho.
  split; [done|]. split; [apply js_sort_perm|]. split; [apply js_sort_sorted|].
  split; [|split].
  - intros Hall. apply Sorted_js_le_digits; [|apply js_sort_sorted].
    by rewrite js_sort_perm.
  - unfold getAllCommands, getCommandsForPlayer. rewrite Hs.
    destruct (_tickCommandsMap cm !! t); [done|].
    clear Hs. induction (js_sort (p :: others)) as [|x l IH]; [done|]. simpl. exact IH.
  - assert (Hlive : live cm) by by apply run_live.
    assert (Hpeers1 : Forall (from_peer cm) msgs1).
    { eapply Forall_impl; [exact Hmsgs|]. intros m. unfold from_peer. by rewrite Ho. }
    assert (Hpeers2 : Forall (from_peer cm) msgs2) by by rewrite <- Hperm.
    destruct (receiveAll_tickmap msgs1 cm Hlive Hpeers1) as [Hs1 Hm1].
    destruct (receiveAll_tickmap msgs2 cm Hlive Hpeers2) as [Hs2 Hm2].
    unfold getAllCommands. rewrite Hs1, Hs2, Hm1, Hm2.
    rewrite (foldl_perm_comm (merge (_tick cm)) (flat_map deliveries msgs1)
               (flat_map deliveries msgs2)); [done| |].
    + by apply Permutation_flat_map.
    + intros x y a Hx Hy. apply merge_comm. by apply Hcons.
Qed.

(** C1, as stated, fails for ids of different lengths: with the local id 2
    and the peer 10, tick 0 is ready and the commands of player 10 come
    before those of player 2. *)
Lemma getAllCommands_not_ascending :
  let cm := new 2 [10%N] 1 0 in
  isTickReady cm 0 = true /\
  getAllCommands cm 0 = [Noop 10; Noop 2] /\
  getAllCommands cm 0
  <> concat (map (getCommandsForPlayer (_tickCommandsMap cm) 0) [2%N; 10%N]).
Proof. vm_compute. repeat split; try reflexivity. discriminate. Qed.

(** ** The claims about the tick-commands map *)

(** C2. [waitForTick(t)] returns only in a state where the map has an
    entry at tick [t] for every known player id, the local id and the
    remote ones, whatever messages of the peers arrived before and during
    the wait and however often the manager resent. *)
Theorem waitForTick_returns_only_when_all_present
    (p : N) (others : list N) (d t0 : Z) (evs : list Event) (tick : Z)
    (arrivals : list (list NetworkMessage)) (cm' : CommandManager)
    (sent : list (N * NetworkMessage)) (q : N) :
  Forall (peer_event (new p others d t0)) evs ->
  Forall (Forall (from_peer (new p others d t0))) arrivals ->
  waitForTick tick arrivals (run evs (new p others d t0)) [] = Some (cm', sent) ->
  q ∈ p :: others ->
  isTickReady cm' tick = true /\ is_Some (stored (_tickCommandsMap cm') tick q).
Proof.
  intros Hevs Harr Hw Hq.
  destruct (run_cfg evs (new p others d t0)) as (_&_&_&Ho).
  apply waitForTick_run in Hw as (Hready & evs' & -> & Hpeer).
  split; [done|].
  rewrite <- run_app in *.
  destruct (run_cfg (evs ++ evs') (new p others d t0)) as (Hs&_).
  apply isTickReady_all; [| done |].
  - rewrite Hs. apply run_participant, Forall_app. split; [done|].
    eapply Forall_impl; [apply Hpeer|].
    + eapply Forall_impl; [exact Harr|]. intros b Hb.
      eapply Forall_impl; [exact Hb|]. intros m. unfold from_peer. by rewrite Ho.
    + intros [| | |m]; simpl; try done. unfold from_peer. by rewrite Ho.
  - rewrite Hs. change (_sortedPlayerIds (new p others d t0)) with (js_sort (p :: others)).
    by rewrite js_sort_perm.
Qed.

(** C5. The first non-empty payload written for a (tick, player) pair is
    the stored list; writing the same payload again, or any other one,
    leaves the whole map as it was after the first write; and a message of
    a peer received a second time leaves the map as its first reception
    left it. *)
Theorem addCommandsForPlayer_first_write_wins
    (cm : CommandManager) (msg : NetworkMessage) (t : Z) (p : N)
    (cs cs' : list Command) :
  cs <> [] -> stored (_tickCommandsMap cm) t p = None ->
  live cm -> from_peer cm msg ->
  let m1 := addCommandsForPlayer t p (Many cs) (_tickCommandsMap cm) in
  stored m1 t p = Some cs /\
  addCommandsForPlayer t p (Many cs) m1 = m1 /\
  addCommandsForPlayer t p (Many cs') m1 = m1 /\
  _tickCommandsMap (receiveMessage msg (receiveMessage msg cm))
  = _tickCommandsMap (receiveMessage msg cm).
Proof.
  intros Hcs Hnone Hlive Hpeer m1.
  assert (Hs : stored m1 t p = Some cs).
  { unfold m1. rewrite stored_add, bool_decide_eq_true_2 by done. rewrite Hnone.
    destruct (payload_rejected (Many cs)) eqn:Hr; [|done].
    by apply payload_rejected_many in Hr. }
  split; [done|]. split; [by eapply addCommandsForPlayer_taken|].
  split; [by eapply addCommandsForPlayer_taken|].
  by apply receiveMessage_twice.
Qed.

(** C8. In a manager started as the game starts it and run with a
    non-negative command delay, the map has no entry for a tick strictly
    older than (current tick - commandDelay - 1); [nextTick] removes the
    entry at that bound and then increments the tick, and no entry below the
    new bound exists afterwards. *)
Theorem tick_map_never_holds_pruned_ticks
    (p : N) (others : list N) (d t0 : Z) (evs : list Event) (t : Z) :
  0 <= d -> t0 <= d + 1 ->
  let cm := run evs (new p others d t0) in
  is_Some (_tickCommandsMap cm !! t) ->
  _tick cm - _commandDelay cm - 1 <= t /\
  _tickCommandsMap (nextTick cm).1 !! (_tick cm - _commandDelay cm - 1) = None /\
  _tick (nextTick cm).1 = _tick cm + 1 /\
  (forall t', is_Some (_tickCommandsMap (nextTick cm).1 !! t') ->
              _tick (nextTick cm).1 - _commandDelay cm - 1 <= t').
Proof.
  intros Hd Ht0 cm Hs.
  destruct (run_cfg evs (new p others d t0)) as (_&Hdel&_).
  change (_commandDelay (new p others d t0)) with d in Hdel. fold cm in Hdel.
  rewrite Hdel. split; [|split; [|split]].
  - by apply (run_above p others d t0 evs).
  - rewrite nextTick_tickmap, Hdel. apply lookup_delete_eq.
  - by destruct (nextTick_cfg cm) as (_&_&_&_&->&_).
  - intros t' Hs'.
    pose proof (run_above p others d t0 (evs ++ [EvNextTick]) Hd Ht0) as Habove.
    rewrite run_snoc in Habove. by apply Habove.
Qed.

(** C9. Every list stored in the map of a running manager is non-empty;
    an empty payload is discarded without a trace, so a message whose
    command lists are all empty neither changes the map nor makes a tick
    ready. *)
Theorem stored_command_lists_are_nonempty
    (p : N) (others : list N) (d t0 : Z) (evs : list Event) (t : Z) (q : N)
    (l : list Command) (msg : NetworkMessage) :
  let cm := run evs (new p others d t0) in
  stored (_tickCommandsMap cm) t q = Some l ->
  (forall e, e ∈ msg_commands msg -> e.2 = []) ->
  l <> [] /\
  (forall t' q' m, addCommandsForPlayer t' q' (Many []) m = m) /\
  _tickCommandsMap (receiveMessage msg cm) = _tickCommandsMap cm /\
  (forall t', isTickReady (receiveMessage msg cm) t' = isTickReady cm t').
Proof.
  intros cm Hs Hempty. split; [|split; [|split]].
  - by apply (run_nonempty p others d t0 evs t q).
  - intros t' q' m. by apply addCommandsForPlayer_rejected.
  - by apply receiveMessage_empty_lists.
  - intros t'. apply isTickReady_ext; [by apply receiveMessage_empty_lists|].
    by destruct (apply_event_cfg cm (EvReceive msg)) as (?&_).
Qed.

(** ** Instances *)

(** Player 0 with peer 1, two ticks of delay, waiting for tick 2 after two
    ticks: the wait ends once the commands of player 1 have arrived. *)
Lemma waitForTick_returns_only_when_all_present_witness :
  exists cm' sent,
    waitForTick 2 [[mkMsg 1 [(2, [Noop 1])] []]]
      (run [EvNextTick; EvNextTick] (new 0 [1%N] 2 0)) [] = Some (cm', sent) /\
    isTickReady cm' 2 = true /\
    is_Some (stored (_tickCommandsMap cm') 2 1%N).
Proof.
  destruct (waitForTick 2 [[mkMsg 1 [(2, [Noop 1])] []]]
              (run [EvNextTick; EvNextTick] (new 0 [1%N] 2 0)) [])
    as [[cm' sent]|] eqn:Hw.
  - exists cm', sent. split; [done|].
    apply (waitForTick_returns_only_when_all_present 0 [1%N] 2 0
             [EvNextTick; EvNextTick] 2 [[mkMsg 1 [(2, [Noop 1])] []]] cm' sent 1%N).
    + repeat constructor.
    + repeat constructor.
    + exact Hw.
    + apply list_elem_of_further, list_elem_of_here.
  - vm_compute in Hw. discriminate Hw.
Defined.

Lemma addCommandsForPlayer_first_write_wins_witness :
  let cm := new 0 [1%N] 2 0 in
  let msg := mkMsg 1 [(3, [Noop 1])] [] in
  let m1 := addCommandsForPlayer 3 1 (Many [Noop 1]) (_tickCommandsMap cm) in
  stored m1 3 1%N = Some [Noop 1] /\
  addCommandsForPlayer 3 1 (Many [Noop 1]) m1 = m1 /\
  addCommandsForPlayer 3 1 (Many [Noop 1; Noop 1]) m1 = m1 /\
  _tickCommandsMap (receiveMessage msg (receiveMessage msg cm))
  = _tickCommandsMap (receiveMessage msg cm).
Proof.
  apply (addCommandsForPlayer_first_write_wins (new 0 [1%N] 2 0)
           (mkMsg 1 [(3, [Noop 1])] []) 3 1%N [Noop 1] [Noop 1; Noop 1]).
  - discriminate.
  - vm_compute. reflexivity.
  - apply new_live.
  - apply list_elem_of_here.
Defined.

Lemma tick_map_never_holds_pruned_ticks_witness :
  let cm := run [EvNextTick] (new 0 [1%N] 2 0) in
  _tick cm - _commandDelay cm - 1 <= 1 /\
  _tickCommandsMap (nextTick cm).1 !! (_tick cm - _commandDelay cm - 1) = None /\
  _tick (nextTick cm).1 = _tick cm + 1 /\
  (forall t', is_Some (_tickCommandsMap (nextTick cm).1 !! t') ->
              _tick (nextTick cm).1 - _commandDelay cm - 1 <= t').
Proof.
  apply (tick_map_never_holds_pruned_ticks 0 [1%N] 2 0 [EvNextTick] 1).
  - lia.
  - lia.
  - vm_compute. eexists. reflexivity.
Defined.

Lemma stored_command_lists_are_nonempty_witness :
  let cm := run [] (new 0 [1%N] 2 0) in
  let msg := mkMsg 1 [(5, [])] [] in
  [Noop 0] <> [] /\
  (forall t' q' m, addCommandsForPlayer t' q' (Many []) m = m) /\
  _tickCommandsMap (receiveMessage msg cm) = _tickCommandsMap cm /\
  (forall t', isTickReady (receiveMessage msg cm) t' = isTickReady cm t').
Proof.
  apply (stored_command_lists_are_nonempty 0 [1%N] 2 0 [] 0 0%N [Noop 0]
           (mkMsg 1 [(5, [])] [])).
  - vm_compute. reflexivity.
  - intros e He. apply list_elem_of_singleton in He. by subst e.
Defined.

(** Player 0 receives from player 1 the commands for tick 4 and the ack of
    tick 3, which was pending. *)
Lemma ack_lifecycle_witness :
  let cm := with_pendingAcks {[1%N := {[3]}]} (new 0 [1%N] 2 0) in
  let msg := mkMsg 1 [(4, [Noop 1])] [3] in
  let cm1 := receiveMessage msg cm in
  (3 ∈ msg_acks msg ->
     exists sp', _pendingAcks cm1 !! 1%N = Some sp' /\ 3 ∉ sp') /\
  (4 ∈ (msg_commands msg).*1 ->
     (exists sa', _acksToSend cm1 !! 1%N = Some sa' /\ 4 ∈ sa') /\
     exists pre m post,
       (sendCommands 2 cm1).2 = pre ++ (1%N, m) :: post /\
       (forall x, x ∈ pre -> x.1 <> 1%N) /\
       count_occ Z.eq_dec (msg_acks m) 4 = 1%nat /\
       (forall x, x ∈ post -> x.1 = 1%N -> 4 ∉ msg_acks x.2) /\
       _acksToSend (sendCommands 2 cm1).1 !! 1%N = Some ∅).
Proof.
  intros cm msg cm1.
  pose proof (ack_lifecycle cm msg 3 {[3]} ∅ 2) as H3.
  pose proof (ack_lifecycle cm msg 4 {[3]} ∅ 2) as H4.
  assert (Hr : _receiving cm = true) by reflexivity.
  assert (HP : msg_playerId msg ∈ _otherPlayerIds cm) by apply list_elem_of_here.
  assert (Hsp : _pendingAcks cm !! msg_playerId msg = Some {[3]}) by reflexivity.
  assert (Hsa : _acksToSend cm !! msg_playerId msg = Some ∅) by reflexivity.
  split.
  - exact (proj1 (H3 Hr HP Hsp Hsa)).
  - exact (proj2 (H4 Hr HP Hsp Hsa)).
Defined.

(** Player 0 with peers 1 and 2 gets the commands for tick 2 from both,
    in either order. *)
Lemma getAllCommands_order_is_fixed_witness :
  let cm := run [EvNextTick] (new 0 [1%N; 2%N] 2 0) in
  let m1 := mkMsg 1 [(2, [Noop 1])] [] in
  let m2 := mkMsg 2 [(2, [Noop 2])] [] in
  getAllCommands (receiveAll [m1; m2] cm) 2 = getAllCommands (receiveAll [m2; m1] cm) 2.
Proof.
  intros cm m1 m2.
  apply (getAllCommands_order_is_fixed 0 [1%N; 2%N] 2 0 [EvNextTick] [m1; m2] [m2; m1] 2).
  - repeat constructor.
  - repeat constructor.
  - apply Permutation_swap.
  - intros d1 d2 H1 H2 Heq. left.
    simpl in H1, H2.
    apply elem_of_cons in H1 as [->|H1]; [|apply list_elem_of_singleton in H1 as ->];
    (apply elem_of_cons in H2 as [->|H2]; [|apply list_elem_of_singleton in H2 as ->]);
    done.
Defined.

End MgrFacts.

(* ===================================================================== *)
(** * Facts about the transport                                           *)
(* ===================================================================== *)

Module NetFacts.
Import Cmd Net.

(** C10. [createSocket] registers and returns a socket bound to the player
    id when the id has none, and otherwise reports an error and leaves the
    network, the existing registration included, as it was. *)
Theorem createSocket_once (playerId : N) (options : SocketOptions) (net : Network) :
  (_sockets net !! playerId = None ->
   exists socket net',
     createSocket playerId options net = (inr socket, net') /\
     sock_playerId socket = playerId /\ sock_options socket = options /\
     _sockets net' !! playerId = Some socket /\
     forall q, q <> playerId ->
       _sockets net' !! q = _sockets net !! q /\ _inboxes net' !! q = _inboxes net !! q) /\
  (forall existing, _sockets net !! playerId = Some existing ->
   exists e,
     createSocket playerId options net = (inl e, net) /\
     _sockets (createSocket playerId options net).2 !! playerId = Some existing).
Proof.
  split.
  - intros Hnone. unfold createSocket. rewrite Hnone.
    eexists _, _. split; [reflexivity|]. simpl.
    split; [done|]. split; [done|]. split; [by rewrite lookup_insert_eq|].
    intros q Hq. by rewrite !lookup_insert_ne.
  - intros existing Hsome. unfold createSocket. rewrite Hsome.
    eexists. split; [reflexivity|]. done.
Qed.

Lemma createSocket_once_witness :
  (exists socket net',
     createSocket 0 (mkOptions None None) empty = (inr socket, net') /\
     sock_playerId socket = 0%N) /\
  (exists e, createSocket 0 (mkOptions None None) two_sockets = (inl e, two_sockets)).
Proof.
  split.
  - destruct (proj1 (createSocket_once 0 (mkOptions None None) empty))
      as (socket & net' & Hc & Hid & _).
    + reflexivity.
    + by exists socket, net'.
  - destruct (proj2 (createSocket_once 0 (mkOptions None None) two_sockets)
                    (mkSocket 0 (mkOptions None None)))
      as (e & Hc & _).
    + reflexivity.
    + by exists e.
Defined.

(** A message that finds no registered resolver is gone. *)
Lemma newMessage_without_trigger value i : trigger i = false -> newMessage value i = i.
Proof. intros H. unfold newMessage. by rewrite H. Qed.


End NetFacts.

(* ===================================================================== *)
(** * Facts about decimals                                                *)
(* ===================================================================== *)

Module DecFacts.
Import Dec.

Lemma pow10_pos j : 0 <= j -> 0 < 10 ^ j.
Proof. intros. apply Z.pow_pos_nonneg; lia. Qed.

Lemma pow10_succ j : 0 <= j -> 10 ^ (j + 1) = 10 * 10 ^ j.
Proof. intros. rewrite Z.pow_add_r by lia. lia. Qed.


(** ** Digit counts *)

Lemma count_digits_spec f n :
  0 <= n < 10 ^ (Z.of_nat f + 1) ->
  1 <= count_digits f n /\
  n < 10 ^ count_digits f n /\
  (0 < n -> 10 ^ (count_digits f n - 1) <= n).
Proof.
  revert n. induction f as [|f IH]; intros n Hn.
  - simpl in *. change (10 ^ 1) with 10 in *. change (10 ^ (1 - 1)) with 1. lia.
  - cbn [count_digits]. destruct (Z.ltb_spec n 10) as [Hlt|Hge].
    + change (10 ^ 1) with 10. change (10 ^ (1 - 1)) with 1. lia.
    + assert (Hdiv : 0 <= n / 10 < 10 ^ (Z.of_nat f + 1)).
      { split; [apply Z.div_pos; lia|].
        apply Z.div_lt_upper_bound; [lia|].
        replace (Z.of_nat (S f) + 1) with ((Z.of_nat f + 1) + 1) in Hn by lia.
        rewrite pow10_succ in Hn by lia. lia. }
      destruct (IH _ Hdiv) as (H1 & Hub & Hlb).
      set (d := count_digits f (n / 10)) in *.
      replace (1 + d) with (d + 1) by lia. rewrite pow10_succ by lia.
      replace (d + 1 - 1) with ((d - 1) + 1) by lia. rewrite pow10_succ by lia.
      assert (0 < n / 10) by (apply Z.div_str_pos; lia).
      specialize (Hlb ltac:(lia)).
      pose proof (Z.div_mod n 10 ltac:(lia)) as Hdm.
      pose proof (Z.mod_pos_bound n 10 ltac:(lia)).
      split; [lia|]. split; [lia|]. intros _. lia.
Qed.

Lemma abs_lt_pow_log2 m : m <> 0 -> Z.abs m < 10 ^ (Z.of_nat (Z.to_nat (Z.log2 (Z.abs m))) + 1).
Proof.
  intros Hm. pose proof (Z.log2_nonneg (Z.abs m)) as Hl.
  rewrite Z2Nat.id by done.
  destruct (Z.log2_spec (Z.abs m) ltac:(lia)) as [_ Hub].
  eapply Z.lt_le_trans; [exact Hub|].
  replace (Z.succ (Z.log2 (Z.abs m))) with (Z.log2 (Z.abs m) + 1) by lia.
  apply Z.pow_le_mono_l. lia.
Qed.

Lemma ndigits_spec m :
  m <> 0 -> 1 <= ndigits m /\ 10 ^ (ndigits m - 1) <= Z.abs m < 10 ^ ndigits m.
Proof.
  intros Hm. unfold ndigits.
  destruct (count_digits_spec (Z.to_nat (Z.log2 (Z.abs m))) (Z.abs m)) as (H1 & Hub & Hlb).
  - split; [lia|]. by apply abs_lt_pow_log2.
  - split; [done|]. split; [apply Hlb; lia|done].
Qed.

Lemma ndigits_0 : ndigits 0 = 1.
Proof. reflexivity. Qed.






Lemma ndigits_gt m k : 0 <= k -> 10 ^ k <= Z.abs m -> k < ndigits m.
Proof.
  intros Hk Hm. pose proof (pow10_pos k Hk).
  destruct (ndigits_spec m ltac:(lia)) as (H1 & _ & Hub).
  destruct (Z.lt_ge_cases k (ndigits m)) as [|Hge]; [done|].
  assert (10 ^ ndigits m <= 10 ^ k) by (apply Z.pow_le_mono_r; lia). lia.
Qed.

(** ** Normal forms *)

Lemma strip_zeros_spec f m e :
  m <> 0 -> Z.abs m < 10 ^ (Z.of_nat f + 1) ->
  coeff (strip_zeros f m e) mod 10 <> 0 /\
  e <= expo (strip_zeros f m e) /\
  m = coeff (strip_zeros f m e) * 10 ^ (expo (strip_zeros f m e) - e).
Proof.
  revert m e. induction f as [|f IH]; intros m e Hm Hlt.
  - simpl in *. change (10 ^ 1) with 10 in Hlt. rewrite Z.sub_diag. simpl.
    split; [|lia]. intros H0.
    pose proof (Z.div_mod m 10 ltac:(lia)). lia.
  - cbn [strip_zeros]. destruct (Z.eqb_spec (m mod 10) 0) as [H0|Hne].
    + pose proof (Z.div_mod m 10 ltac:(lia)) as Hdm.
      assert (Hm' : m / 10 <> 0) by lia.
      assert (Hlt' : Z.abs (m / 10) < 10 ^ (Z.of_nat f + 1)).
      { replace (Z.of_nat (S f) + 1) with ((Z.of_nat f + 1) + 1) in Hlt by lia.
        rewrite pow10_succ in Hlt by lia. lia. }
      destruct (IH (m / 10) (e + 1) Hm' Hlt') as (Hc & He & Hv).
      split; [done|]. split; [lia|].
      replace (expo (strip_zeros f (m / 10) (e + 1)) - e)
        with ((expo (strip_zeros f (m / 10) (e + 1)) - (e + 1)) + 1) by lia.
      rewrite pow10_succ by lia. lia.
    + simpl. rewrite Z.sub_diag. simpl. split; [done|]. lia.
Qed.

Lemma normalize_0 e : normalize 0 e = mkDec 0 0.
Proof. reflexivity. Qed.

Lemma normalize_spec m e :
  m <> 0 ->
  coeff (normalize m e) mod 10 <> 0 /\
  e <= expo (normalize m e) /\
  m = coeff (normalize m e) * 10 ^ (expo (normalize m e) - e).
Proof.
  intros Hm. unfold normalize. destruct (Z.eqb_spec m 0) as [|_]; [done|].
  apply strip_zeros_spec; [done|]. by apply abs_lt_pow_log2.
Qed.



Lemma normalize_sign m e : 0 <= m -> 0 <= coeff (normalize m e).
Proof.
  intros Hm. destruct (decide (m = 0)) as [->|Hne]; [done|].
  destruct (normalize_spec m e Hne) as (_ & He & Hv).
  pose proof (pow10_pos (expo (normalize m e) - e) ltac:(lia)). nia.
Qed.


(** ** Rounding of values that need no rounding *)


Lemma round_sig_sign m e : 0 <= m -> 0 <= coeff (round_sig m e).
Proof.
  intros Hm. unfold round_sig. destruct (ndigits m <=? precision).
  - by apply normalize_sign.
  - apply normalize_sign.
    set (sh := ndigits m - precision).
    pose proof (Z.div_pos (Z.abs m) (10 ^ sh) ltac:(lia)) as Hq.
    assert (0 <= 10 ^ sh) by (apply Z.pow_nonneg; lia).
    destruct (Z.le_gt_cases (10 ^ sh) 0).
    + assert (10 ^ sh = 0) as -> by lia. rewrite Z.div_0_r.
      destruct (_ <=? _); destruct m; simpl; lia.
    + specialize (Hq ltac:(lia)). destruct (_ <=? _); destruct m; simpl; lia.
Qed.


(** ** Integers *)



Lemma align_spec x y :
  let '(a, b, e) := align x y in
  e = Z.min (expo x) (expo y) /\
  a = coeff x * 10 ^ (expo x - e) /\ b = coeff y * 10 ^ (expo y - e).
Proof. by unfold align. Qed.






Lemma of_Z_0 : of_Z 0 = mkDec 0 0.
Proof. reflexivity. Qed.




(** ** Signs *)

Lemma plus_sign x y : 0 <= coeff x -> 0 <= coeff y -> 0 <= coeff (plus x y).
Proof.
  intros Hx Hy. unfold plus, align. apply round_sig_sign.
  assert (0 <= 10 ^ (expo x - Z.min (expo x) (expo y))) by (apply Z.pow_nonneg; lia).
  assert (0 <= 10 ^ (expo y - Z.min (expo x) (expo y))) by (apply Z.pow_nonneg; lia).
  nia.
Qed.

Lemma mul_self_sign x : 0 <= coeff (mul x x).
Proof. unfold mul. apply round_sig_sign. nia. Qed.

Lemma sqrt_is_Some x : 0 <= coeff x -> is_Some (sqrt x).
Proof.
  intros Hx. unfold sqrt. destruct (Z.ltb_spec (coeff x) 0); [lia|].
  destruct (Z.even (expo x)); by eexists.
Qed.

Lemma div_is_Some x y : coeff y <> 0 -> is_Some (div x y).
Proof.
  intros Hy. unfold div. destruct (Z.eqb_spec (coeff y) 0); [done|]. by eexists.
Qed.

Lemma lessThanOrEqualTo_zero x y :
  coeff x = 0 -> 0 <= coeff y -> lessThanOrEqualTo x y = true.
Proof.
  intros Hx Hy. unfold lessThanOrEqualTo, align. rewrite Hx. simpl.
  apply Z.leb_le.
  assert (0 <= 10 ^ (expo y - Z.min (expo x) (expo y))) by (apply Z.pow_nonneg; lia).
  nia.
Qed.

End DecFacts.

(* ===================================================================== *)
(** * Facts about unit movement                                           *)
(* ===================================================================== *)

Module SimFacts.
Import Dec Cmd Sim DecFacts.

Lemma point_eta (p : Point2D) : mkPoint (px p) (py p) = p.
Proof. by destruct p. Qed.

(** C6 (as the code has it). One movement step of a unit with a target and
    a non-negative speed: the displacement and the distance are computed
    with the rounded decimal operations ([minus], [mul], [plus], [sqrt]);
    when the distance is at most the speed the position becomes the target
    itself and the target is cleared; otherwise each coordinate advances by
    the rounded quotient speed * d / distance and the target stays.  The
    step never leaves the finite decimals. *)
Theorem move_snaps_or_advances
    (u : Unit) (target : Point2D) (click : option (Z * Z)) :
  _target u = Some target -> 0 <= coeff (_speed u) ->
  let dx := minus (px target) (px (_position u)) in
  let dy := minus (py target) (py (_position u)) in
  exists distance,
    sqrt (plus (mul dx dx) (mul dy dy)) = Some distance /\
    if lessThanOrEqualTo distance (_speed u)
    then exists u', (update click u).1 = Some u' /\
                    _position u' = target /\ _target u' = None /\
                    u' = setTarget None (with_position target u)
    else exists sx sy u',
           div (mul (_speed u) dx) distance = Some sx /\
           div (mul (_speed u) dy) distance = Some sy /\
           (update click u).1 = Some u' /\ _target u' = Some target /\
           _position u' = mkPoint (plus (px (_position u)) sx) (plus (py (_position u)) sy) /\
           u' = with_position (_position u') u.
Proof.
  intros Ht Hs dx dy.
  destruct (sqrt_is_Some (plus (mul dx dx) (mul dy dy))) as [distance Hd].
  { apply plus_sign; apply mul_self_sign. }
  exists distance. split; [done|].
  change ((update click u).1) with (move u).
  unfold move. rewrite Ht. fold dx dy. rewrite Hd.
  destruct (lessThanOrEqualTo distance (_speed u)) eqn:Hle.
  - eexists. split; [reflexivity|]. rewrite point_eta. by repeat split.
  - assert (Hc : coeff distance <> 0).
    { intros H0. by rewrite lessThanOrEqualTo_zero in Hle. }
    destruct (div_is_Some (mul (_speed u) dx) distance Hc) as [sx Hsx].
    destruct (div_is_Some (mul (_speed u) dy) distance Hc) as [sy Hsy].
    exists sx, sy. rewrite Hsx, Hsy. eexists. split; [done|]. split; [done|].
    split; [reflexivity|]. by repeat split.
Qed.

Lemma move_snaps_or_advances_witness :
  exists distance,
    sqrt (plus (mul (of_Z 16) (of_Z 16)) (mul (of_Z 63) (of_Z 63))) = Some distance /\
    lessThanOrEqualTo distance (of_Z 5) = false /\
    exists u', (update None demo_unit).1 = Some u' /\ _target u' = _target demo_unit.
Proof.
  destruct (move_snaps_or_advances demo_unit (mkPoint (of_Z 66) (of_Z 113)) None)
    as (distance & Hd & Hstep).
  - reflexivity.
  - vm_compute. discriminate.
  - exists distance. split; [exact Hd|].
    assert (Hdist : distance = of_Z 65).
    { vm_compute in Hd. injection Hd as <-. reflexivity. }
    subst distance. split; [reflexivity|].
    change (lessThanOrEqualTo (of_Z 65) (_speed demo_unit)) with false in Hstep.
    destruct Hstep as (sx & sy & u' & _ & _ & Hm & Ht & _).
    exists u'. split; [exact Hm|exact Ht].
Defined.

(** C6, as stated, fails: the step of [demo_unit] is not exactly 5 long
    (its squared length is not 25), because the quotients 80/65 and 315/65
    are rounded to 20 digits. *)
Lemma move_step_is_not_exactly_speed :
  exists u',
    (update None demo_unit).1 = Some u' /\
    let sx := (to_Q (px (_position u')) - 50)%Q in
    let sy := (to_Q (py (_position u')) - 50)%Q in
    ~ (sx * sx + sy * sy == 5 * 5)%Q.
Proof.
  eexists. split; [vm_compute; reflexivity|].
  intros sx sy Heq. apply Qeq_bool_iff in Heq. vm_compute in Heq. discriminate.
Qed.


(** ** Movement without rounding

    With integer coordinates and speed of moderate size, an integer
    distance [R] and integer step components [qx = v * dx / R] and
    [qy = v * dy / R], no operation of [move] rounds.  Every horizontal or
    vertical move is of this kind, and so is, say, a move in the direction
    3 : 4 at speed 5. *)

Lemma moves_S k u :
  moves (S k) u = match move u with Some u' => moves k u' | None => None end.
Proof. reflexivity. Qed.

Lemma moves_snoc k u :
  moves (S k) u = match moves k u with Some u' => move u' | None => None end.
Proof.
  revert u. induction k as [|k IH]; intros u.
  - rewrite moves_S. simpl. by destruct (move u).
  - rewrite (moves_S (S k) u), (moves_S k u).
    destruct (move u) as [u'|]; [apply IH|done].
Qed.







End SimFacts.

(* ===================================================================== *)
(** * Facts about objects with integer keys                               *)
(* ===================================================================== *)

Module ObjFacts.
Import Cmd Obj.

Lemma obj_get_set_eq {V} (k : Z) (v : V) o : obj_get k (obj_set k v o) = Some v.
Proof.
  induction o as [|[k' v'] o IH]; simpl.
  - by rewrite Z.eqb_refl.
  - destruct (Z.eqb_spec k k') as [->|Hne]; simpl.
    + by rewrite Z.eqb_refl.
    + destruct (is_index k && (negb (is_index k') || (k <? k'))); simpl.
      * by rewrite Z.eqb_refl.
      * destruct (Z.eqb_spec k k'); [done|]. exact IH.
Qed.

Lemma obj_get_set_ne {V} (k k' : Z) (v : V) o :
  k <> k' -> obj_get k' (obj_set k v o) = obj_get k' o.
Proof.
  intros Hne. induction o as [|[k0 v0] o IH]; simpl.
  - destruct (Z.eqb_spec k' k); [congruence|done].
  - destruct (Z.eqb_spec k k0) as [->|Hne0]; simpl.
    + destruct (Z.eqb_spec k' k0); [congruence|done].
    + destruct (is_index k && (negb (is_index k0) || (k <? k0))); simpl.
      * destruct (Z.eqb_spec k' k); [congruence|done].
      * destruct (Z.eqb_spec k' k0); [done|]. exact IH.
Qed.

Lemma obj_get_set {V} (k k' : Z) (v : V) o :
  obj_get k' (obj_set k v o) = if decide (k' = k) then Some v else obj_get k' o.
Proof.
  destruct (decide (k' = k)) as [->|Hne]; [apply obj_get_set_eq|].
  apply obj_get_set_ne. congruence.
Qed.

Lemma obj_get_foldl_set {V} (f : Z -> V) (l : list Z) (o : list (Z * V)) (k : Z) :
  obj_get k (foldl (fun o t => obj_set t (f t) o) o l)
  = if decide (k ∈ l) then Some (f k) else obj_get k o.
Proof.
  revert o. induction l as [|x l IH]; intros o; cbn [foldl].
  - rewrite decide_False; [done|]. apply not_elem_of_nil.
  - rewrite IH, obj_get_set. destruct (decide (k ∈ l)) as [Hin|Hout].
    + rewrite decide_True; [done|]. by apply list_elem_of_further.
    + destruct (decide (k = x)) as [->|Hne].
      * rewrite decide_True; [done|]. apply list_elem_of_here.
      * rewrite decide_False; [done|]. rewrite elem_of_cons. by intros [?|?].
Qed.

Lemma obj_get_keys {V} (k : Z) (o : list (Z * V)) : is_Some (obj_get k o) <-> k ∈ o.*1.
Proof.
  induction o as [|[k' v'] o IH]; simpl.
  - split; [by intros [? ?]|]. intros H. by apply elem_of_nil in H.
  - rewrite elem_of_cons. destruct (Z.eqb_spec k k') as [->|Hne].
    + split; [auto|by eexists].
    + rewrite IH. split; [auto|]. by intros [?|?].
Qed.

Lemma obj_get_elem {V} (k : Z) (v : V) (o : list (Z * V)) :
  obj_get k o = Some v -> (k, v) ∈ o.
Proof.
  induction o as [|[k' v'] o IH]; simpl; [done|].
  destruct (Z.eqb_spec k k') as [->|Hne].
  - intros [= ->]. apply list_elem_of_here.
  - intros H. by apply list_elem_of_further, IH.
Qed.

(** An object has each key once. *)
Lemma obj_elem_get {V} (k : Z) (v : V) (o : list (Z * V)) :
  NoDup o.*1 -> (k, v) ∈ o -> obj_get k o = Some v.
Proof.
  induction o as [|[k' v'] o IH]; simpl; intros Hnd Hin.
  - by apply elem_of_nil in Hin.
  - apply NoDup_cons in Hnd as [Hk' Hnd].
    apply elem_of_cons in Hin as [[= -> ->]|Hin].
    + by rewrite Z.eqb_refl.
    + destruct (Z.eqb_spec k k') as [->|Hne]; [|by apply IH].
      exfalso. apply Hk'. apply list_elem_of_fmap. by exists (k', v).
Qed.

Lemma obj_set_keys {V} (k : Z) (v : V) (o : list (Z * V)) (x : Z) :
  x ∈ (obj_set k v o).*1 <-> x = k \/ x ∈ o.*1.
Proof.
  rewrite <- !obj_get_keys, obj_get_set.
  destruct (decide (x = k)) as [->|Hne].
  - split; [auto|by eexists].
  - split; [auto|]. by intros [?|?].
Qed.

Lemma obj_set_ordered {V} (k : Z) (v : V) (o : list (Z * V)) :
  js_ordered o.*1 -> js_ordered (obj_set k v o).*1.
Proof.
  unfold js_ordered. induction o as [|[k' v'] o IH]; simpl; intros Hs.
  - repeat constructor.
  - apply StronglySorted_inv in Hs as [Hs Hall].
    destruct (Z.eqb_spec k k') as [->|Hne]; simpl.
    + by constructor.
    + destruct (is_index k) eqn:Hk, (is_index k') eqn:Hk', (Z.ltb_spec k k'); simpl.
      * constructor; [by constructor|]. constructor; [by split|].
        eapply Forall_impl; [exact Hall|]. intros y [Hy1 Hy2]. split.
        -- intros ->. destruct (Hy2 Hk). lia.
        -- intros Hy. destruct (Hy2 Hy). split; [done|lia].
      * constructor; [by apply IH|]. apply Forall_forall. intros x Hx.
        apply obj_set_keys in Hx as [->|Hx].
        -- split; [done|]. intros _. split; [done|lia].
        -- rewrite Forall_forall in Hall. by apply Hall.
      * constructor; [by constructor|]. constructor.
        -- split; [done|]. congruence.
        -- eapply Forall_impl; [exact Hall|]. intros y [Hy1 Hy2]. split.
           ++ intros ->. destruct (Hy2 Hk). congruence.
           ++ intros Hy. destruct (Hy2 Hy). congruence.
      * constructor; [by constructor|]. constructor.
        -- split; [done|]. congruence.
        -- eapply Forall_impl; [exact Hall|]. intros y [Hy1 Hy2]. split.
           ++ intros ->. destruct (Hy2 Hk). congruence.
           ++ intros Hy. destruct (Hy2 Hy). congruence.
      * constructor; [by apply IH|]. apply Forall_forall. intros x Hx.
        apply obj_set_keys in Hx as [->|Hx].
        -- split; [done|]. congruence.
        -- rewrite Forall_forall in Hall. by apply Hall.
      * constructor; [by apply IH|]. apply Forall_forall. intros x Hx.
        apply obj_set_keys in Hx as [->|Hx].
        -- split; [done|]. congruence.
        -- rewrite Forall_forall in Hall. by apply Hall.
      * constructor; [by apply IH|]. apply Forall_forall. intros x Hx.
        apply obj_set_keys in Hx as [->|Hx].
        -- split; [done|]. congruence.
        -- rewrite Forall_forall in Hall. by apply Hall.
      * constructor; [by apply IH|]. apply Forall_forall. intros x Hx.
        apply obj_set_keys in Hx as [->|Hx].
        -- split; [done|]. congruence.
        -- rewrite Forall_forall in Hall. by apply Hall.
Qed.

Lemma foldl_obj_set_ordered {V} (f : Z -> V) (l : list Z) (o : list (Z * V)) :
  js_ordered o.*1 ->
  js_ordered (foldl (fun o t => obj_set t (f t) o) o l).*1.
Proof.
  revert o. induction l as [|x l IH]; intros o Hs; cbn [foldl]; [done|].
  by apply IH, obj_set_ordered.
Qed.

Lemma ordered_keys_NoDup (l : list Z) : js_ordered l -> NoDup l.
Proof.
  induction 1 as [|x l Hs IH Hall]; constructor; [|done].
  intros Hin. rewrite Forall_forall in Hall. by destruct (Hall x Hin).
Qed.

(** Array indices that come in ascending order are appended one after the
    other. *)
Lemma obj_set_last {V} (k : Z) (v : V) (o : list (Z * V)) :
  Forall (fun x => 0 <= x < k) o.*1 -> obj_set k v o = o ++ [(k, v)].
Proof.
  induction o as [|[k' v'] o IH]; simpl; intros Hall; [done|].
  apply Forall_cons in Hall as [Hk' Hall]. simpl in Hk'.
  destruct (Z.eqb_spec k k'); [lia|].
  assert (Hc : is_index k && (negb (is_index k') || (k <? k')) = false).
  { unfold is_index. destruct (Z.ltb_spec k k'); [lia|]. rewrite orb_false_r.
    destruct (Z.leb_spec 0 k); [|done]. destruct (Z.ltb_spec k 4294967295); [|done].
    destruct (Z.leb_spec 0 k'); [|lia]. destruct (Z.ltb_spec k' 4294967295); [done|lia]. }
  rewrite Hc. by rewrite IH.
Qed.

Lemma obj_get_mutate {V} (k k' : Z) (f : V -> V) (o : list (Z * V)) :
  obj_get k' (obj_mutate k f o)
  = if decide (k' = k) then f <$> obj_get k' o else obj_get k' o.
Proof.
  induction o as [|[k0 v0] o IH]; simpl.
  - by destruct (decide (k' = k)).
  - destruct (Z.eqb_spec k k0) as [->|Hne]; simpl.
    + destruct (Z.eqb_spec k' k0) as [->|Hne'].
      * by rewrite decide_True.
      * by rewrite decide_False.
    + destruct (Z.eqb_spec k' k0) as [->|Hne'].
      * rewrite decide_False; [done|congruence].
      * exact IH.
Qed.

Lemma obj_mutate_keys {V} (k : Z) (f : V -> V) (o : list (Z * V)) :
  (obj_mutate k f o).*1 = o.*1.
Proof.
  induction o as [|[k0 v0] o IH]; simpl; [done|].
  destruct (k =? k0); simpl; [done|]. f_equal. exact IH.
Qed.

End ObjFacts.

(* ===================================================================== *)
(** * Further facts about the command manager                             *)
(* ===================================================================== *)

Module ManagerProperties.
Import Dec Cmd Obj Mgr MgrFacts ObjFacts.

#[local] Arguments sendCommands : simpl never.
#[local] Arguments js_sort : simpl never.
#[local] Arguments initTickCommandsMap : simpl never.
#[local] Arguments nextTick : simpl never.
#[local] Arguments receiveMessage : simpl never.
#[local] Arguments scheduleEnqueuedCommands : simpl never.
#[local] Arguments addCommandsForPlayer : simpl never.

(** ** Readiness and the number of participants *)

Lemma entry_size_full {V} (ids : list N) (tc : gmap N V) :
  NoDup ids -> (forall q, is_Some (tc !! q) <-> q ∈ ids) ->
  size tc = length ids.
Proof.
  intros Hnd Hkeys. rewrite <- (size_dom (D := gset N)).
  rewrite <- (size_list_to_set (C := gset N) ids Hnd). f_equal.
  apply set_eq. intros q. rewrite elem_of_dom, elem_of_list_to_set. apply Hkeys.
Qed.

Lemma size_list_to_set_lt (l : list N) :
  ~ NoDup l -> (size (list_to_set l : gset N) < length l)%nat.
Proof.
  induction l as [|x l IH]; intros Hnd.
  - destruct Hnd. constructor.
  - cbn [list_to_set length]. destruct (decide (x ∈ l)) as [Hin|Hout].
    + assert (Heq : ({[x]} ∪ list_to_set l : gset N) = list_to_set l).
      { apply set_eq. intros y. rewrite elem_of_union, elem_of_singleton, elem_of_list_to_set.
        split; [intros [->|?]; done|auto]. }
      rewrite Heq. pose proof (size_list_to_set_le l). lia.
    + assert (Hl : ~ NoDup l) by (intros H; apply Hnd; by constructor).
      specialize (IH Hl). rewrite size_union.
      * rewrite size_singleton. lia.
      * intros y Hy1 Hy2. apply elem_of_singleton in Hy1 as ->.
        by apply elem_of_list_to_set in Hy2.
Qed.

Lemma entry_size_repeated {V} (ids : list N) (tc : gmap N V) :
  ~ NoDup ids -> (forall q, is_Some (tc !! q) -> q ∈ ids) ->
  (size tc < length ids)%nat.
Proof.
  intros Hnd Hkeys. rewrite <- (size_dom (D := gset N)).
  eapply Nat.le_lt_trans; [|by apply size_list_to_set_lt].
  apply subseteq_size. intros q Hq. apply elem_of_list_to_set, Hkeys.
  by apply elem_of_dom.
Qed.

Lemma js_sort_length l : length (js_sort l) = length l.
Proof. apply Permutation_length, js_sort_perm. Qed.

Lemma js_sort_NoDup l : NoDup (js_sort l) <-> NoDup l.
Proof. by rewrite js_sort_perm. Qed.

Lemma js_sort_elem q l : q ∈ js_sort l <-> q ∈ l.
Proof. by rewrite js_sort_perm. Qed.

(** The entry that the constructor writes for each of the first ticks. *)
Lemma seeded_entry_lookup (sorted : list N) (q : N) :
  foldl (fun tc p => <[p := [Noop p]]> tc) (∅ : gmap N (list Command)) sorted !! q
  = if decide (q ∈ sorted) then Some [Noop q] else None.
Proof.
  rewrite (foldl_insert_lookup (fun p : N => [Noop p])). by rewrite lookup_empty.
Qed.

Lemma initTickCommandsMap_lookup (sorted : list N) (d t : Z) :
  initTickCommandsMap sorted d !! t
  = if decide (0 <= t < d)
    then Some (foldl (fun tc p => <[p := [Noop p]]> tc) ∅ sorted) else None.
Proof.
  unfold initTickCommandsMap.
  rewrite (foldl_insert_lookup
             (fun _ : Z => foldl (fun tc p => <[p := [Noop p]]> tc)
                                 (∅ : gmap N (list Command)) sorted)).
  rewrite lookup_empty.
  destruct (decide (t ∈ seqZ 0 d)) as [Hin|Hout], (decide (0 <= t < d)) as [Hr|Hr];
    try done; exfalso.
  - apply elem_of_seqZ in Hin. lia.
  - apply Hout, elem_of_seqZ. lia.
Qed.

Lemma seeded_commands (tc : gmap N (list Command)) (l : list N) :
  (forall q, q ∈ l -> tc !! q = Some [Noop q]) ->
  concat (map (fun p => default [] (tc !! p)) l) = map Noop l.
Proof.
  induction l as [|x l IH]; intros Hl; [done|]. cbn [map concat].
  rewrite (Hl x) by apply list_elem_of_here. cbn [default app]. f_equal.
  apply IH. intros q Hq. by apply Hl, list_elem_of_further.
Qed.

(** The ticks that the constructor seeds. *)
Lemma seeded_ticks (p : N) (others : list N) (d t0 t : Z) :
  NoDup (p :: others) ->
  let cm := new p others d t0 in
  (0 <= t < d ->
     isTickReady cm t = true /\ getAllCommands cm t = map Noop (js_sort (p :: others))) /\
  (~ 0 <= t < d -> isTickReady cm t = false /\ getAllCommands cm t = []).
Proof.
  intros Hnd cm. unfold isTickReady, getAllCommands. subst cm. cbn [_tickCommandsMap new _sortedPlayerIds].
  rewrite initTickCommandsMap_lookup. split; intros Ht.
  - rewrite decide_True by done. split.
    + apply bool_decide_eq_true. apply entry_size_full; [by apply js_sort_NoDup|].
      intros q. rewrite seeded_entry_lookup. destruct (decide (q ∈ js_sort (p :: others))).
      * split; [done|by eexists].
      * split; [by intros [? ?]|done].
    + apply seeded_commands. intros q Hq. rewrite seeded_entry_lookup. by rewrite decide_True.
  - by rewrite decide_False.
Qed.

(** X1. The constructor seeds the ticks 0 .. commandDelay - 1, whatever
    the start tick: with distinct participant ids each of them is ready at
    once and holds one Noop per participant, in the order of the sorted id
    list; no other tick has an entry. *)
Theorem first_ticks_are_ready (p : N) (others : list N) (d t0 t : Z) :
  NoDup (p :: others) ->
  let cm := new p others d t0 in
  (0 <= t < d ->
     isTickReady cm t = true /\ getAllCommands cm t = map Noop (js_sort (p :: others))) /\
  (~ 0 <= t < d -> isTickReady cm t = false /\ getAllCommands cm t = []).
Proof. apply seeded_ticks. Qed.

Lemma first_ticks_are_ready_witness :
  (isTickReady (new 0 [1%N; 2%N] 2 0) 1 = true /\
   getAllCommands (new 0 [1%N; 2%N] 2 0) 1 = map Noop (js_sort [0%N; 1%N; 2%N])) /\
  (isTickReady (new 0 [1%N; 2%N] 2 0) 2 = false /\
   getAllCommands (new 0 [1%N; 2%N] 2 0) 2 = []).
Proof.
  assert (Hnd : NoDup [0%N; 1%N; 2%N]) by (apply (bool_decide_unpack (NoDup [0%N; 1%N; 2%N])); vm_compute; exact I).
  split.
  - apply (proj1 (first_ticks_are_ready 0 [1%N; 2%N] 2 0 1 Hnd)). lia.
  - apply (proj2 (first_ticks_are_ready 0 [1%N; 2%N] 2 0 2 Hnd)). lia.
Defined.

(** In a run fed by peers the entry of a tick only has participants'
    keys. *)
Lemma run_entry_keys p others d t0 evs t tc q :
  Forall (peer_event (new p others d t0)) evs ->
  _tickCommandsMap (run evs (new p others d t0)) !! t = Some tc ->
  is_Some (tc !! q) -> q ∈ p :: others.
Proof.
  intros Hevs Htc Hq. apply js_sort_elem.
  apply (run_participant p others d t0 evs Hevs t q).
  unfold stored. by rewrite Htc.
Qed.

Lemma run_sorted p others d t0 evs :
  _sortedPlayerIds (run evs (new p others d t0)) = js_sort (p :: others).
Proof. by destruct (run_cfg evs (new p others d t0)) as (-> & _). Qed.

Lemma run_others p others d t0 evs :
  _otherPlayerIds (run evs (new p others d t0)) = others.
Proof. by destruct (run_cfg evs (new p others d t0)) as (_ & _ & _ & ->). Qed.

Lemma run_playerId p others d t0 evs :
  _playerId (run evs (new p others d t0)) = p.
Proof. by destruct (run_cfg evs (new p others d t0)) as (_ & _ & -> & _). Qed.

Lemma run_commandDelay p others d t0 evs :
  _commandDelay (run evs (new p others d t0)) = d.
Proof. by destruct (run_cfg evs (new p others d t0)) as (_ & -> & _). Qed.

Lemma repeated_id_not_ready p others d t0 evs t :
  ~ NoDup (p :: others) ->
  Forall (peer_event (new p others d t0)) evs ->
  isTickReady (run evs (new p others d t0)) t = false.
Proof.
  intros Hnd Hevs. unfold isTickReady.
  destruct (_tickCommandsMap (run evs (new p others d t0)) !! t) as [tc|] eqn:Htc; [|done].
  apply bool_decide_eq_false. rewrite run_sorted, js_sort_length.
  pose proof (entry_size_repeated (p :: others) tc Hnd) as Hlt.
  intros Heq. rewrite Heq in Hlt.
  apply (Nat.lt_irrefl (length (p :: others))), Hlt.
  intros q Hq. by eapply run_entry_keys.
Qed.

(** X2. With an id that occurs twice among [playerId, ...otherPlayerIds]
    (the local id among the others, or a peer listed twice) no tick is ever
    ready, the seeded ones included: an entry has one key per distinct id,
    and [isTickReady] compares their number with the length of the id list.
    [waitForTick] then never returns, whatever arrives. *)
Theorem repeated_id_blocks_every_tick
    (p : N) (others : list N) (d t0 : Z) (evs : list Event) (t : Z)
    (arrivals : list (list NetworkMessage)) :
  ~ NoDup (p :: others) ->
  Forall (peer_event (new p others d t0)) evs ->
  Forall (Forall (from_peer (new p others d t0))) arrivals ->
  isTickReady (run evs (new p others d t0)) t = false /\
  waitForTick t arrivals (run evs (new p others d t0)) [] = None.
Proof.
  intros Hnd Hevs Harr. split; [by apply repeated_id_not_ready|].
  destruct (waitForTick t arrivals (run evs (new p others d t0)) []) as [[cm' sent]|] eqn:Hw;
    [|done].
  exfalso. apply waitForTick_run in Hw as (Hready & evs' & -> & Hpeer).
  rewrite <- run_app in Hready.
  rewrite repeated_id_not_ready in Hready; [done|done|].
  apply Forall_app. split; [done|].
  eapply Forall_impl; [apply Hpeer|].
  - eapply Forall_impl; [exact Harr|]. intros b Hb.
    eapply Forall_impl; [exact Hb|]. intros m. unfold from_peer.
    by rewrite run_others.
  - intros [| | |m]; simpl; try done. unfold from_peer. by rewrite run_others.
Qed.

Lemma repeated_id_blocks_every_tick_witness :
  isTickReady (run [EvNextTick] (new 0 [1%N; 1%N] 2 0)) 0 = false /\
  waitForTick 0 [[mkMsg 1 [(2, [Noop 1])] []]] (run [EvNextTick] (new 0 [1%N; 1%N] 2 0)) []
  = None.
Proof.
  apply (repeated_id_blocks_every_tick 0 [1%N; 1%N] 2 0 [EvNextTick] 0
           [[mkMsg 1 [(2, [Noop 1])] []]]).
  - intros Hnd. apply NoDup_cons in Hnd as [_ Hnd]. apply NoDup_cons in Hnd as [Hnd _].
    apply Hnd. apply list_elem_of_here.
  - repeat constructor.
  - repeat constructor.
Defined.

(** A tick with a list of every participant is ready. *)
Lemma complete_tick_ready
    (p : N) (others : list N) (d t0 : Z) (evs : list Event) (t : Z)
    (arrivals : list (list NetworkMessage)) (sent : list (N * NetworkMessage)) :
  NoDup (p :: others) ->
  Forall (peer_event (new p others d t0)) evs ->
  let cm := run evs (new p others d t0) in
  (forall q, q ∈ p :: others -> is_Some (stored (_tickCommandsMap cm) t q)) ->
  isTickReady cm t = true /\ waitForTick t arrivals cm sent = Some (cm, sent).
Proof.
  intros Hnd Hevs cm Hall.
  assert (Hready : isTickReady cm t = true).
  { unfold isTickReady.
    destruct (_tickCommandsMap cm !! t) as [tc|] eqn:Htc.
    - apply bool_decide_eq_true. unfold cm. rewrite run_sorted, js_sort_length.
      apply entry_size_full; [done|]. intros q. split.
      + intros Hq. by eapply run_entry_keys.
      + intros Hq. specialize (Hall q Hq). unfold stored in Hall. by rewrite Htc in Hall.
    - specialize (Hall p (list_elem_of_here _ _)). unfold stored in Hall.
      rewrite Htc in Hall. by destruct Hall. }
  split; [done|]. destruct arrivals; simpl; by rewrite Hready.
Qed.

(** X3. In a manager with distinct participant ids that took messages
    from its peers only, a tick for which every participant has a stored
    list is ready, and [waitForTick] for it returns at once: nothing is
    resent and no arrival is consumed. *)
Theorem complete_tick_is_ready
    (p : N) (others : list N) (d t0 : Z) (evs : list Event) (t : Z)
    (arrivals : list (list NetworkMessage)) (sent : list (N * NetworkMessage)) :
  NoDup (p :: others) ->
  Forall (peer_event (new p others d t0)) evs ->
  let cm := run evs (new p others d t0) in
  (forall q, q ∈ p :: others -> is_Some (stored (_tickCommandsMap cm) t q)) ->
  isTickReady cm t = true /\ waitForTick t arrivals cm sent = Some (cm, sent).
Proof. apply complete_tick_ready. Qed.

Lemma complete_tick_is_ready_witness :
  let cm := run [EvNextTick; EvReceive (mkMsg 1 [(2, [Noop 1])] [])] (new 0 [1%N] 2 0) in
  isTickReady cm 2 = true /\ waitForTick 2 [[mkMsg 1 [] []]] cm [] = Some (cm, []).
Proof.
  apply (complete_tick_is_ready 0 [1%N] 2 0
           [EvNextTick; EvReceive (mkMsg 1 [(2, [Noop 1])] [])] 2 [[mkMsg 1 [] []]] []).
  - apply (bool_decide_unpack (NoDup [0%N; 1%N])). vm_compute. exact I.
  - repeat constructor.
  - intros q Hq. apply elem_of_cons in Hq as [->|Hq].
    + vm_compute. by eexists.
    + apply list_elem_of_singleton in Hq as ->. vm_compute. by eexists.
Defined.

(** ** What one round of [sendCommands] sends *)

(** The loop over distinct targets: one message per target in order, built
    from the target's pending and owed sets as they were before the round. *)
Lemma sendCommands_loop tk tcs l :
  NoDup l -> forall st,
  tcs = getCommandsForPlayer (_tickCommandsMap st.1) tk (_playerId st.1) ->
  let st' := foldl (sendCommandsTo tk tcs) st l in
  exists out, st'.2 = st.2 ++ out /\
    Forall2 (fun P x =>
       x.1 = P /\ msg_playerId x.2 = _playerId st.1 /\
       msg_acks x.2 = elements (default ∅ (_acksToSend st.1 !! P)) /\
       js_ordered (msg_commands x.2).*1 /\
       forall t, obj_get t (msg_commands x.2)
                 = if decide (t = tk \/ t ∈ default ∅ (_pendingAcks st.1 !! P))
                   then Some (getCommandsForPlayer (_tickCommandsMap st.1) t (_playerId st.1))
                   else None) l out /\
    (forall P, _pendingAcks st'.1 !! P
               = if decide (P ∈ l) then Some ({[tk]} ∪ default ∅ (_pendingAcks st.1 !! P))
                 else _pendingAcks st.1 !! P) /\
    (forall P, _acksToSend st'.1 !! P
               = if decide (P ∈ l) then Some ∅ else _acksToSend st.1 !! P).
Proof.
  induction 1 as [|x l Hx Hnd IH]; intros st Htcs; cbn [foldl].
  - exists []. rewrite app_nil_r. split; [done|]. split; [constructor|].
    split; intros P; rewrite decide_False; try done; apply not_elem_of_nil.
  - set (st1 := sendCommandsTo tk tcs st x).
    assert (Hm1 : _tickCommandsMap st1.1 = _tickCommandsMap st.1) by reflexivity.
    assert (Hi1 : _playerId st1.1 = _playerId st.1) by reflexivity.
    assert (Hp1 : _pendingAcks st1.1
                  = <[x := {[tk]} ∪ default ∅ (_pendingAcks st.1 !! x)]> (_pendingAcks st.1))
      by reflexivity.
    assert (Ha1 : _acksToSend st1.1 = <[x := ∅]> (_acksToSend st.1)) by reflexivity.
    destruct (IH st1) as (out & Hout & Hall & Hpend & Hacks); [by rewrite Hm1, Hi1|].
    set (msg := mkMsg (_playerId st.1)
                  (foldl (fun o t => obj_set t (getCommandsForPlayer (_tickCommandsMap st.1) t
                                                  (_playerId st.1)) o)
                         (obj_set tk tcs []) (elements (default ∅ (_pendingAcks st.1 !! x))))
                  (elements (default ∅ (_acksToSend st.1 !! x)))).
    assert (Hs1 : st1.2 = st.2 ++ [(x, msg)]) by reflexivity.
    exists ((x, msg) :: out). split; [by rewrite Hout, Hs1, <- app_assoc|].
    split; [|split].
    + constructor.
      * split; [done|]. split; [done|]. split; [done|]. split.
        -- apply foldl_obj_set_ordered, obj_set_ordered. constructor.
        -- intros t. unfold msg. cbn [snd msg_commands].
           rewrite (obj_get_foldl_set
                      (fun t => getCommandsForPlayer (_tickCommandsMap st.1) t (_playerId st.1))).
           rewrite obj_get_set.
           cbn [obj_get]. rewrite Htcs.
           destruct (decide (t ∈ elements (default ∅ (_pendingAcks st.1 !! x)))) as [Hin|Hout'].
           ++ rewrite decide_True; [done|]. right. by apply elem_of_elements.
           ++ destruct (decide (t = tk)) as [->|Hne].
              ** by rewrite decide_True by auto.
              ** rewrite decide_False; [done|]. intros [?|Hin]; [done|].
                 by apply Hout', elem_of_elements.
      * apply Forall2_same_length_lookup. apply Forall2_same_length_lookup in Hall as [Hlen Hall].
        split; [done|]. intros i P y HP Hy.
        assert (HPx : x <> P).
        { intros ->. apply Hx. by eapply list_elem_of_lookup_2. }
        destruct (Hall i P y HP Hy) as (H1 & H2 & H3 & H4 & H5).
        rewrite Hi1, Hm1, Ha1, Hp1 in *. rewrite !lookup_insert_ne in * by done.
        by repeat split.
    + intros P. rewrite Hpend, Hp1. destruct (decide (x = P)) as [->|Hne].
      * rewrite decide_False by done. rewrite lookup_insert_eq.
        rewrite decide_True; [done|]. apply list_elem_of_here.
      * rewrite !lookup_insert_ne by done.
        destruct (decide (P ∈ l)) as [Hin|Hout'].
        -- rewrite decide_True; [done|]. by apply list_elem_of_further.
        -- rewrite decide_False; [done|]. rewrite elem_of_cons. by intros [?|?].
    + intros P. rewrite Hacks, Ha1. destruct (decide (x = P)) as [->|Hne].
      * rewrite decide_False by done. rewrite lookup_insert_eq.
        rewrite decide_True; [done|]. apply list_elem_of_here.
      * rewrite !lookup_insert_ne by done.
        destruct (decide (P ∈ l)) as [Hin|Hout'].
        -- rewrite decide_True; [done|]. by apply list_elem_of_further.
        -- rewrite decide_False; [done|]. rewrite elem_of_cons. by intros [?|?].
Qed.

(** One round of [sendCommands] to distinct peers. *)
Lemma sendCommands_round tk cm :
  NoDup (_otherPlayerIds cm) ->
  (sendCommands tk cm).2.*1 = _otherPlayerIds cm /\
  (forall P m, (P, m) ∈ (sendCommands tk cm).2 ->
     P ∈ _otherPlayerIds cm /\ msg_playerId m = _playerId cm /\
     msg_acks m = elements (default ∅ (_acksToSend cm !! P)) /\
     js_ordered (msg_commands m).*1 /\
     forall t, obj_get t (msg_commands m)
               = if decide (t = tk \/ t ∈ default ∅ (_pendingAcks cm !! P))
                 then Some (getCommandsForPlayer (_tickCommandsMap cm) t (_playerId cm))
                 else None) /\
  (forall P, P ∈ _otherPlayerIds cm -> exists m, (P, m) ∈ (sendCommands tk cm).2) /\
  (forall P, _pendingAcks (sendCommands tk cm).1 !! P
             = if decide (P ∈ _otherPlayerIds cm)
               then Some ({[tk]} ∪ default ∅ (_pendingAcks cm !! P))
               else _pendingAcks cm !! P) /\
  (forall P, _acksToSend (sendCommands tk cm).1 !! P
             = if decide (P ∈ _otherPlayerIds cm) then Some ∅ else _acksToSend cm !! P).
Proof.
  intros Hnd. unfold sendCommands.
  destruct (sendCommands_loop tk
              (getCommandsForPlayer (_tickCommandsMap cm) tk (_playerId cm))
              (_otherPlayerIds cm) Hnd (cm, []) eq_refl)
    as (out & Hout & Hall & Hpend & Hacks).
  cbn [fst snd app] in *. rewrite Hout.
  split; [|split; [|split; [|split]]]; try done.
  - clear -Hall. induction Hall as [|P x l out (HP & _) _ IH]; [done|].
    cbn [fmap list_fmap]. f_equal; [done|exact IH].
  - intros P m Hin. apply list_elem_of_lookup in Hin as [i Hi].
    destruct (Forall2_lookup_r _ _ _ _ _ Hall Hi) as (P' & HP' & Hx & Hrest).
    cbn [fst snd] in *. subst P'. split; [by eapply list_elem_of_lookup_2|done].
  - intros P HP. apply list_elem_of_lookup in HP as [i Hi].
    destruct (Forall2_lookup_l _ _ _ _ _ Hall Hi) as ([P' m] & Hm & Hx & _).
    cbn [fst] in Hx. subst P'. exists m. by eapply list_elem_of_lookup_2.
Qed.

(** X4. One round of [sendCommands] sends exactly one message to each
    (distinct) peer, in the order of [_otherPlayerIds].  The message for
    peer P is sent in the sender's name and carries the sender's list for
    the tick asked for and for every tick that P has not acknowledged yet,
    and no other tick; afterwards the tick asked for is pending for P as
    well. *)
Theorem unacknowledged_ticks_are_resent
    (cm : CommandManager) (tk : Z) (P : N) (sp : gset Z) :
  NoDup (_otherPlayerIds cm) -> P ∈ _otherPlayerIds cm ->
  _pendingAcks cm !! P = Some sp ->
  (sendCommands tk cm).2.*1 = _otherPlayerIds cm /\
  exists m,
    (P, m) ∈ (sendCommands tk cm).2 /\
    (forall m', (P, m') ∈ (sendCommands tk cm).2 -> m' = m) /\
    msg_playerId m = _playerId cm /\
    (forall t, obj_get t (msg_commands m)
               = if decide (t = tk \/ t ∈ sp)
                 then Some (getCommandsForPlayer (_tickCommandsMap cm) t (_playerId cm))
                 else None) /\
    _pendingAcks (sendCommands tk cm).1 !! P = Some ({[tk]} ∪ sp).
Proof.
  intros Hnd HP Hsp.
  destruct (sendCommands_round tk cm Hnd) as (Htargets & Hmsg & Hex & Hpend & _).
  split; [done|]. destruct (Hex P HP) as [m Hm]. exists m.
  split; [done|]. split; [|split; [|split]].
  - intros m' Hm'.
    apply list_elem_of_lookup in Hm as [i Hi]. apply list_elem_of_lookup in Hm' as [j Hj].
    assert (i = j) as ->.
    { rewrite <- Htargets in Hnd. eapply NoDup_lookup; [exact Hnd| |].
      - by rewrite list_lookup_fmap, Hi.
      - by rewrite list_lookup_fmap, Hj. }
    congruence.
  - by destruct (Hmsg P m Hm) as (_ & ? & _).
  - destruct (Hmsg P m Hm) as (_ & _ & _ & _ & Hget). intros t.
    rewrite Hget, Hsp. done.
  - rewrite Hpend, decide_True by done. by rewrite Hsp.
Qed.

Lemma unacknowledged_ticks_are_resent_witness :
  let cm := with_pendingAcks {[1%N := {[3]}]} (new 0 [1%N] 2 0) in
  (sendCommands 4 cm).2.*1 = [1%N] /\
  exists m,
    (1%N, m) ∈ (sendCommands 4 cm).2 /\
    (forall m', (1%N, m') ∈ (sendCommands 4 cm).2 -> m' = m) /\
    msg_playerId m = 0%N /\
    (forall t, obj_get t (msg_commands m)
               = if decide (t = 4 \/ t ∈ ({[3]} : gset Z))
                 then Some (getCommandsForPlayer (_tickCommandsMap cm) t 0)
                 else None) /\
    _pendingAcks (sendCommands 4 cm).1 !! 1%N = Some ({[4]} ∪ {[3]}).
Proof.
  apply (unacknowledged_ticks_are_resent
           (with_pendingAcks {[1%N := {[3]}]} (new 0 [1%N] 2 0)) 4 1 {[3]}).
  - apply (bool_decide_unpack (NoDup [1%N])). vm_compute. exact I.
  - apply list_elem_of_here.
  - reflexivity.
Defined.

(** ** Scheduling of the local commands *)

Lemma stored_get m t q l : stored m t q = Some l -> getCommandsForPlayer m t q = l.
Proof.
  unfold stored, getCommandsForPlayer. destruct (m !! t) as [tc|]; simpl; [|done].
  by intros ->.
Qed.

Lemma apply_event_tick cm ev :
  _tick (apply_event cm ev) = match ev with EvNextTick => _tick cm + 1 | _ => _tick cm end.
Proof.
  destruct ev as [c| | |msg]; cbn [apply_event].
  - done.
  - by destruct (nextTick_cfg cm) as (_ & _ & _ & _ & -> & _).
  - by destruct (sendCommands_frame (_tick cm + _commandDelay cm - 1) cm)
      as ((_ & _ & _ & _ & <-) & _).
  - by destruct (receiveMessage_tickmap (fun _ _ => True) msg cm)
      as (_ & (_ & _ & _ & _ & <-) & _).
Qed.

(** No list of the local player is stored at or beyond the next tick to
    be scheduled. *)
Lemma run_own_free p others d t0 evs t :
  p ∉ others -> 0 <= t0 ->
  Forall (peer_event (new p others d t0)) evs ->
  _tick (run evs (new p others d t0)) + d <= t ->
  stored (_tickCommandsMap (run evs (new p others d t0))) t p = None.
Proof.
  intros Hself Ht0. revert t. induction evs as [|ev evs IH] using rev_ind; intros t Hall Ht.
  - cbn [run foldl new _tickCommandsMap _tick] in *. rewrite stored_init.
    rewrite decide_False; [done|]. intros [Hin _]. apply elem_of_seqZ in Hin. lia.
  - apply Forall_app in Hall as [Hevs Hev]. rewrite Forall_singleton in Hev.
    pose proof (fun t => IH t Hevs) as IH'.
    rewrite run_snoc in *. rewrite apply_event_tick in Ht.
    set (cm := run evs (new p others d t0)) in *.
    assert (Hp : _playerId cm = p) by apply run_playerId.
    assert (Hd : _commandDelay cm = d) by apply run_commandDelay.
    destruct ev as [c| | |msg]; cbn [apply_event].
    + by apply IH'.
    + rewrite nextTick_tickmap, stored_delete.
      destruct (decide (_tick cm - _commandDelay cm - 1 = t)); [done|].
      rewrite stored_add, Hp, Hd. rewrite bool_decide_eq_false_2 by (intros [? _]; lia).
      apply IH'. lia.
    + destruct (sendCommands_frame (_tick cm + _commandDelay cm - 1) cm) as (_ & -> & _).
      by apply IH'.
    + rewrite receiveMessage_stored_other; [by apply IH'|].
      simpl in Hev. unfold from_peer in Hev. cbn [new _otherPlayerIds] in Hev.
      intros Heq. apply Hself. by rewrite <- Heq.
Qed.

Lemma nextTick_queue cm : _commandQueue (nextTick cm).1 = [].
Proof.
  unfold nextTick. cbn [fst with_tick with_tickCommandsMap _commandQueue].
  by destruct (sendCommands_frame
                 (_tick (scheduleEnqueuedCommands (_tick cm + _commandDelay cm) cm)
                  + _commandDelay (scheduleEnqueuedCommands (_tick cm + _commandDelay cm) cm))
                 (scheduleEnqueuedCommands (_tick cm + _commandDelay cm) cm))
    as (_ & _ & -> & _).
Qed.

Lemma enqueue_all cs cm :
  let cm' := foldl (fun c x => enqueueCommand x c) cm cs in
  _commandQueue cm' = _commandQueue cm ++ cs /\
  _tickCommandsMap cm' = _tickCommandsMap cm /\ same_cfg cm cm' /\
  _pendingAcks cm' = _pendingAcks cm /\ _acksToSend cm' = _acksToSend cm /\
  cm' = run (map EvEnqueue cs) cm.
Proof.
  revert cm. induction cs as [|c cs IH]; intros cm; cbn [foldl map].
  - rewrite app_nil_r. repeat split; done.
  - destruct (IH (enqueueCommand c cm)) as (Hq & Hm & Hc & Hp & Ha & Hr).
    cbv zeta. rewrite Hq, Hm, Hp, Ha. cbn [enqueueCommand with_commandQueue _commandQueue
      _tickCommandsMap _pendingAcks _acksToSend]. rewrite <- app_assoc.
    split; [done|]. split; [done|]. split; [|by split].
    destruct Hc as (? & ? & ? & ? & ?). by repeat split.
Qed.

(** What [nextTick] schedules and sends. *)
Lemma nextTick_schedules
    (p : N) (others : list N) (d t0 : Z) (evs : list Event) (cs : list Command) :
  NoDup (p :: others) -> 0 <= t0 ->
  Forall (peer_event (new p others d t0)) evs ->
  let cm0 := run evs (new p others d t0) in
  let cm := foldl (fun c x => enqueueCommand x c) cm0 cs in
  let payload := match _commandQueue cm0 ++ cs with [] => [Noop p] | q => q end in
  stored (_tickCommandsMap (nextTick cm).1) (_tick cm0 + d) p = Some payload /\
  _commandQueue (nextTick cm).1 = [] /\
  _tick (nextTick cm).1 = _tick cm0 + 1 /\
  (nextTick cm).2.*1 = others /\
  forall x, x ∈ (nextTick cm).2 ->
    msg_playerId x.2 = p /\ obj_get (_tick cm0 + d) (msg_commands x.2) = Some payload.
Proof.
  intros Hnd Ht0 Hevs cm0 cm payload.
  apply NoDup_cons in Hnd as [Hself Hnd].
  destruct (enqueue_all cs cm0) as (Hq & Hm & (_ & Hd & Hp & Ho & Ht) & _). fold cm in Hq, Hm, Hd, Hp, Ho, Ht.
  assert (Hp0 : _playerId cm0 = p) by apply run_playerId.
  assert (Hd0 : _commandDelay cm0 = d) by apply run_commandDelay.
  assert (Ho0 : _otherPlayerIds cm0 = others) by apply run_others.
  rewrite Hp0 in Hp. rewrite Hd0 in Hd. rewrite Ho0 in Ho.
  set (cm1 := scheduleEnqueuedCommands (_tick cm + _commandDelay cm) cm).
  assert (Hm1 : _tickCommandsMap cm1
                = addCommandsForPlayer (_tick cm0 + d) p (Many payload) (_tickCommandsMap cm0)).
  { unfold cm1, scheduleEnqueuedCommands.
    cbn [with_commandQueue with_tickCommandsMap _tickCommandsMap].
    by rewrite Hq, Hm, <- Hp, <- Hd, <- Ht. }
  assert (Hpay : payload <> []).
  { unfold payload. by destruct (_commandQueue cm0 ++ cs). }
  assert (Hs1 : stored (_tickCommandsMap cm1) (_tick cm0 + d) p = Some payload).
  { rewrite Hm1, stored_add, bool_decide_eq_true_2 by done.
    rewrite (run_own_free p others d t0 evs) by (done || (fold cm0; lia)).
    destruct (payload_rejected (Many payload)) eqn:Hr; [|done].
    by apply payload_rejected_many in Hr. }
  split; [|split; [|split]].
  - rewrite nextTick_tickmap, stored_delete, <- Hp, <- Hd, <- Ht.
    rewrite decide_False by lia. rewrite Hq, Hm, <- Hs1, Hm1. reflexivity.
  - apply nextTick_queue.
  - destruct (nextTick_cfg cm) as (_ & _ & _ & _ & -> & _). by rewrite Ht.
  - destruct (nextTick_output cm) as [-> _]. fold cm1.
    assert (Ho1 : _otherPlayerIds cm1 = others) by (rewrite Ho; reflexivity).
    assert (Hnd1 : NoDup (_otherPlayerIds cm1)) by by rewrite Ho1.
    destruct (sendCommands_round (_tick cm + _commandDelay cm) cm1 Hnd1)
      as (Htargets & Hmsg & _).
    split; [by rewrite Htargets|].
    intros [P m] Hx. destruct (Hmsg P m Hx) as (_ & Hid & _ & _ & Hget). cbn [snd].
    split; [rewrite Hid, Hp; reflexivity|].
    rewrite Hget, decide_True by (left; lia).
    f_equal. apply stored_get.
    change (_playerId cm1) with (_playerId cm). rewrite <- Hp. exact Hs1.
Qed.

(** X5. What the game enqueues during a tick is scheduled by [nextTick]
    for the tick [commandDelay] ahead: the queued commands, in the order of
    their enqueueing, or a single Noop of the local player when nothing was
    enqueued.  The queue is empty afterwards, and every peer is sent that
    list under that tick.  (A manager started at a tick >= 0 with distinct
    ids, fed by its peers.) *)
Theorem enqueued_commands_are_scheduled
    (p : N) (others : list N) (d t0 : Z) (evs : list Event) (cs : list Command) :
  NoDup (p :: others) -> 0 <= t0 ->
  Forall (peer_event (new p others d t0)) evs ->
  let cm0 := run evs (new p others d t0) in
  let cm := foldl (fun c x => enqueueCommand x c) cm0 cs in
  let payload := match _commandQueue cm0 ++ cs with [] => [Noop p] | q => q end in
  stored (_tickCommandsMap (nextTick cm).1) (_tick cm0 + d) p = Some payload /\
  _commandQueue (nextTick cm).1 = [] /\
  _tick (nextTick cm).1 = _tick cm0 + 1 /\
  (nextTick cm).2.*1 = others /\
  forall x, x ∈ (nextTick cm).2 ->
    msg_playerId x.2 = p /\ obj_get (_tick cm0 + d) (msg_commands x.2) = Some payload.
Proof. apply nextTick_schedules. Qed.

Lemma enqueued_commands_are_scheduled_witness :
  let cm0 := run [EvNextTick] (new 0 [1%N] 2 0) in
  let cm := foldl (fun c x => enqueueCommand x c) cm0 [Noop 0; Noop 0] in
  stored (_tickCommandsMap (nextTick cm).1) (_tick cm0 + 2) 0%N = Some [Noop 0; Noop 0] /\
  _commandQueue (nextTick cm).1 = [] /\
  _tick (nextTick cm).1 = _tick cm0 + 1 /\
  (nextTick cm).2.*1 = [1%N] /\
  forall x, x ∈ (nextTick cm).2 ->
    msg_playerId x.2 = 0%N /\
    obj_get (_tick cm0 + 2) (msg_commands x.2) = Some [Noop 0; Noop 0].
Proof.
  apply (enqueued_commands_are_scheduled 0 [1%N] 2 0 [EvNextTick] [Noop 0; Noop 0]).
  - apply (bool_decide_unpack (NoDup [0%N; 1%N])). vm_compute. exact I.
  - lia.
  - repeat constructor.
Defined.

(** ** From one manager to another *)

Lemma stored_merge_keep tk m d t q l :
  stored m t q = Some l -> stored (merge tk m d) t q = Some l.
Proof.
  intros Hs. unfold merge. destruct (tk <=? d.1.2); [|done].
  rewrite stored_add. destruct (bool_decide (d.1.2 = t /\ d.1.1 = q)) eqn:Hb; [|done].
  apply bool_decide_eq_true in Hb as [-> ->]. by rewrite Hs.
Qed.

Lemma stored_foldl_merge_keep tk ds m t q l :
  stored m t q = Some l -> stored (foldl (merge tk) m ds) t q = Some l.
Proof.
  revert m. induction ds as [|d ds IH]; intros m Hs; cbn [foldl]; [done|].
  by apply IH, stored_merge_keep.
Qed.

Lemma foldl_merge_stores tk P (entries : list (Z * list Command)) m t l :
  NoDup entries.*1 -> (t, l) ∈ entries -> l <> [] -> tk <= t ->
  stored m t P = None ->
  stored (foldl (merge tk) m (map (fun e => (P, e.1, e.2)) entries)) t P = Some l.
Proof.
  revert m. induction entries as [|e entries IH]; intros m Hnd Hin Hl Htk Hnone.
  - by apply elem_of_nil in Hin.
  - cbn [map foldl]. cbn [fmap list_fmap] in Hnd. apply NoDup_cons in Hnd as [He Hnd].
    apply elem_of_cons in Hin as [<-|Hin].
    + apply stored_foldl_merge_keep. unfold merge. cbn [fst snd].
      rewrite (proj2 (Z.leb_le tk t)) by done.
      rewrite stored_add, bool_decide_eq_true_2 by done. rewrite Hnone.
      destruct (payload_rejected (Many l)) eqn:Hr; [|done].
      by apply payload_rejected_many in Hr.
    + apply IH; try done. unfold merge. cbn [fst snd].
      destruct (tk <=? e.1); [|done].
      rewrite stored_add, bool_decide_eq_false_2; [done|].
      intros [Heq _]. apply He. rewrite Heq. apply list_elem_of_fmap. by exists (t, l).
Qed.

(** X6. A message that [sendCommands] built for peer B and that B's
    receive loop handles: each list it carries is the sender's list for
    that tick, and B stores it under the sender's id when the tick is not
    behind B's tick and B had no list for the pair (an empty list is never
    stored).  Lists stored under other ids are not touched. *)
Theorem sent_commands_reach_the_peer
    (A B : CommandManager) (tk t : Z) (m : NetworkMessage) (l : list Command) :
  NoDup (_otherPlayerIds A) -> live B -> _playerId A ∈ _otherPlayerIds B ->
  (_playerId B, m) ∈ (sendCommands tk A).2 ->
  obj_get t (msg_commands m) = Some l -> l <> [] ->
  _tick B <= t -> stored (_tickCommandsMap B) t (_playerId A) = None ->
  l = getCommandsForPlayer (_tickCommandsMap A) t (_playerId A) /\
  stored (_tickCommandsMap (receiveMessage m B)) t (_playerId A) = Some l /\
  forall t' q, q <> _playerId A ->
    stored (_tickCommandsMap (receiveMessage m B)) t' q = stored (_tickCommandsMap B) t' q.
Proof.
  intros Hnd Hlive HA Hm Hget Hl Ht Hnone.
  destruct (sendCommands_round tk A Hnd) as (_ & Hmsg & _).
  destruct (Hmsg _ m Hm) as (_ & Hid & _ & Hsorted & Hkeys).
  split; [|split].
  - rewrite Hkeys in Hget. by destruct (decide _); [injection Hget as <-|].
  - destruct (receiveMessage_live m B Hlive) as (_ & _ & _ & _ & ->).
    { unfold from_peer. by rewrite Hid. }
    unfold deliveries. rewrite Hid.
    apply foldl_merge_stores; try done.
    + by apply ordered_keys_NoDup.
    + by apply obj_get_elem.
  - intros t' q Hq. apply receiveMessage_stored_other. by rewrite Hid.
Qed.

Lemma sent_commands_reach_the_peer_witness :
  let A := scheduleEnqueuedCommands 2 (enqueueCommand (Noop 0) (new 0 [1%N] 2 0)) in
  let B := new 1 [0%N] 2 0 in
  let m := mkMsg 0 [(2, [Noop 0])] [] in
  (1%N, m) ∈ (sendCommands 2 A).2 /\
  [Noop 0] = getCommandsForPlayer (_tickCommandsMap A) 2 0 /\
  stored (_tickCommandsMap (receiveMessage m B)) 2 0%N = Some [Noop 0].
Proof.
  intros A B m.
  assert (Hm : (_playerId B, m) ∈ (sendCommands 2 A).2)
    by (vm_compute; apply list_elem_of_here).
  split; [exact Hm|].
  destruct (sent_commands_reach_the_peer A B 2 2 m [Noop 0]) as (H1 & H2 & _).
  - apply (bool_decide_unpack (NoDup [1%N])). vm_compute. exact I.
  - apply new_live.
  - apply list_elem_of_here.
  - exact Hm.
  - reflexivity.
  - discriminate.
  - vm_compute. discriminate.
  - reflexivity.
  - split; [exact H1|exact H2].
Defined.

Lemma receiveMessage_acks msg cm sa sp :
  _receiving cm = true ->
  _acksToSend cm !! msg_playerId msg = Some sa ->
  _pendingAcks cm !! msg_playerId msg = Some sp ->
  _receiving (receiveMessage msg cm) = true /\
  (exists sa', _acksToSend (receiveMessage msg cm) !! msg_playerId msg = Some sa' /\
     forall t, t ∈ sa' <-> t ∈ (msg_commands msg).*1 \/ t ∈ sa) /\
  (exists sp', _pendingAcks (receiveMessage msg cm) !! msg_playerId msg = Some sp' /\
     forall t, t ∈ sp' <-> t ∈ sp /\ t ∉ msg_acks msg).
Proof.
  intros Hr Hsa Hsp. unfold receiveMessage.
  destruct (receiveEntries_acks (msg_playerId msg) (msg_commands msg) cm sa Hr Hsa)
    as (Hr1 & Hp1 & sa1 & Hsa1 & Hmem1).
  rewrite <- Hp1 in Hsp.
  destruct (receiveAcks_pending (msg_playerId msg) (msg_acks msg) _ sp Hr1 Hsp)
    as (Hr2 & Ha2 & sp2 & Hsp2 & Hmem2).
  split; [done|]. split.
  - exists sa1. by rewrite Ha2.
  - by exists sp2.
Qed.

(** X7. A round trip without loss settles the account: A sends to B, B
    handles the message and, in its next round, sends to A; the acks of
    that message cover every tick A's message carried, and once A has
    handled it no tick is pending for B any more. *)
Theorem round_trip_clears_pending
    (A B : CommandManager) (tk tk' : Z) (mA mB : NetworkMessage) :
  live A -> live B -> NoDup (_otherPlayerIds A) -> NoDup (_otherPlayerIds B) ->
  _playerId B ∈ _otherPlayerIds A -> _playerId A ∈ _otherPlayerIds B ->
  (_playerId B, mA) ∈ (sendCommands tk A).2 ->
  (_playerId A, mB) ∈ (sendCommands tk' (receiveMessage mA B)).2 ->
  (forall t, t ∈ (msg_commands mA).*1 -> t ∈ msg_acks mB) /\
  _pendingAcks (receiveMessage mB (sendCommands tk A).1) !! _playerId B = Some ∅.
Proof.
  intros [HrA HkA] [HrB HkB] HndA HndB HBA HAB HmA HmB.
  destruct (sendCommands_round tk A HndA) as (_ & HmsgA & _ & HpendA & HacksA).
  destruct (HmsgA _ mA HmA) as (_ & HidA & _ & _ & HkeysA).
  destruct (HkB _ HAB) as [[sa Hsa] [sp Hsp]].
  rewrite <- HidA in Hsa, Hsp.
  destruct (receiveMessage_acks mA B sa sp HrB Hsa Hsp)
    as (HrB1 & (sa1 & Hsa1 & Hmem1) & _).
  set (B1 := receiveMessage mA B) in *.
  assert (HoB1 : _otherPlayerIds B1 = _otherPlayerIds B).
  { by destruct (apply_event_cfg B (EvReceive mA)) as (_ & _ & _ & ?). }
  assert (HpB1 : _playerId B1 = _playerId B).
  { by destruct (apply_event_cfg B (EvReceive mA)) as (_ & _ & ? & _). }
  rewrite <- HoB1 in HndB.
  destruct (sendCommands_round tk' B1 HndB) as (_ & HmsgB & _).
  destruct (HmsgB _ mB HmB) as (_ & HidB & HacksB & _).
  rewrite HpB1 in HidB. rewrite <- HidA, Hsa1 in HacksB. cbn [default] in HacksB.
  assert (Hcover : forall t, t ∈ (msg_commands mA).*1 -> t ∈ msg_acks mB).
  { intros t Ht. rewrite HacksB. apply elem_of_elements, Hmem1. by left. }
  split; [done|].
  set (A1 := (sendCommands tk A).1) in *.
  assert (HrA1 : _receiving A1 = true).
  { unfold A1. by destruct (sendCommands_frame tk A) as (_ & _ & _ & ->). }
  specialize (HpendA (_playerId B)). specialize (HacksA (_playerId B)).
  rewrite decide_True in HpendA, HacksA by done.
  rewrite <- HidB in HpendA, HacksA.
  destruct (receiveMessage_acks mB A1 _ _ HrA1 HacksA HpendA)
    as (_ & _ & sp' & Hsp' & Hmem').
  rewrite <- HidB, Hsp'. f_equal. apply set_eq. intros t. rewrite Hmem'.
  split; [|intros Ht; by apply elem_of_empty in Ht].
  intros [Hin Hnot]. exfalso. apply Hnot, Hcover, obj_get_keys.
  rewrite HkeysA. rewrite HidB in Hin.
  rewrite decide_True; [by eexists|].
  apply elem_of_union in Hin as [Hin|Hin]; [left; by apply elem_of_singleton in Hin|by right].
Qed.

Lemma round_trip_clears_pending_witness :
  let A := new 0 [1%N] 2 0 in
  let B := new 1 [0%N] 2 0 in
  let mA := mkMsg 0 [(2, [])] [] in
  let mB := mkMsg 1 [(2, [])] [2] in
  (forall t, t ∈ (msg_commands mA).*1 -> t ∈ msg_acks mB) /\
  _pendingAcks (receiveMessage mB (sendCommands 2 A).1) !! 1%N = Some ∅.
Proof.
  apply (round_trip_clears_pending (new 0 [1%N] 2 0) (new 1 [0%N] 2 0) 2 2
           (mkMsg 0 [(2, [])] []) (mkMsg 1 [(2, [])] [2])).
  - apply new_live.
  - apply new_live.
  - apply (bool_decide_unpack (NoDup [1%N])). vm_compute. exact I.
  - apply (bool_decide_unpack (NoDup [0%N])). vm_compute. exact I.
  - apply list_elem_of_here.
  - apply list_elem_of_here.
  - vm_compute. apply list_elem_of_here.
  - vm_compute. apply list_elem_of_here.
Defined.

(** ** Messages of strangers *)

(** The ack maps only ever have sets for the peers. *)
Lemma sendCommands_loop_keys tk tcs (O : list N) l st :
  (forall x, x ∈ l -> x ∈ O) ->
  (forall P, is_Some (_acksToSend st.1 !! P) \/ is_Some (_pendingAcks st.1 !! P) -> P ∈ O) ->
  forall P, is_Some (_acksToSend (foldl (sendCommandsTo tk tcs) st l).1 !! P) \/
            is_Some (_pendingAcks (foldl (sendCommandsTo tk tcs) st l).1 !! P) -> P ∈ O.
Proof.
  revert st. induction l as [|x l IH]; intros st Hl Hst; cbn [foldl]; [done|].
  apply IH.
  - intros y Hy. by apply Hl, list_elem_of_further.
  - intros P. cbn [sendCommandsTo fst with_acksToSend with_pendingAcks _acksToSend _pendingAcks].
    destruct (decide (x = P)) as [<-|Hne].
    + intros _. apply Hl, list_elem_of_here.
    + rewrite !lookup_insert_ne by done. apply Hst.
Qed.

Lemma receiveMessage_keys (O : list N) msg cm :
  (forall P, is_Some (_acksToSend cm !! P) \/ is_Some (_pendingAcks cm !! P) -> P ∈ O) ->
  forall P, is_Some (_acksToSend (receiveMessage msg cm) !! P) \/
            is_Some (_pendingAcks (receiveMessage msg cm) !! P) -> P ∈ O.
Proof.
  intros Hcm. unfold receiveMessage.
  apply (foldl_preserves (fun c => forall P, is_Some (_acksToSend c !! P) \/
                                             is_Some (_pendingAcks c !! P) -> P ∈ O)).
  - intros c t Hc P. unfold receiveAck. destruct (_receiving c); simpl; [|apply Hc].
    destruct (_pendingAcks c !! msg_playerId msg) eqn:Hs; simpl; [|apply Hc].
    destruct (decide (msg_playerId msg = P)) as [<-|Hne].
    + intros _. apply Hc. right. by rewrite Hs.
    + rewrite lookup_insert_ne by done. apply Hc.
  - apply (foldl_preserves (fun c => forall P, is_Some (_acksToSend c !! P) \/
                                               is_Some (_pendingAcks c !! P) -> P ∈ O)); [|done].
    intros c e Hc P. unfold receiveEntry. destruct (_receiving c); simpl; [|apply Hc].
    destruct (_tick c <=? e.1); simpl;
      (destruct (_acksToSend c !! msg_playerId msg) eqn:Hs; simpl; [|apply Hc]);
      (destruct (decide (msg_playerId msg = P)) as [<-|Hne];
       [intros _; apply Hc; left; by rewrite Hs|rewrite lookup_insert_ne by done; apply Hc]).
Qed.

Lemma run_ack_keys p others d t0 evs P :
  is_Some (_acksToSend (run evs (new p others d t0)) !! P) \/
  is_Some (_pendingAcks (run evs (new p others d t0)) !! P) -> P ∈ others.
Proof.
  revert P. induction evs as [|ev evs IH] using rev_ind; intros P.
  - cbn [run foldl new _acksToSend _pendingAcks]. unfold empty_acks.
    rewrite (foldl_insert_lookup (fun _ : N => (∅ : gset Z))), lookup_empty.
    destruct (decide (P ∈ others)); [done|]. by intros [[? ?]|[? ?]].
  - rewrite run_snoc. set (cm := run evs (new p others d t0)) in *.
    assert (Ho : _otherPlayerIds cm = others) by apply run_others.
    destruct ev as [c| | |msg]; cbn [apply_event].
    + apply IH.
    + unfold nextTick. cbn [fst with_tick with_tickCommandsMap _acksToSend _pendingAcks].
      unfold sendCommands. apply sendCommands_loop_keys; [|apply IH].
      intros x Hx. by rewrite <- Ho.
    + unfold sendCommands. apply sendCommands_loop_keys; [|apply IH].
      intros x Hx. by rewrite <- Ho.
    + by apply receiveMessage_keys.
Qed.

Lemma receiveEntries_dead sender cm es :
  _receiving cm = false -> foldl (receiveEntry sender) cm es = cm.
Proof.
  intros Hr. induction es as [|e es IH]; cbn [foldl]; [done|].
  unfold receiveEntry at 2. rewrite Hr. exact IH.
Qed.

Lemma receiveAcks_dead sender cm acks :
  _receiving cm = false -> foldl (receiveAck sender) cm acks = cm.
Proof.
  intros Hr. induction acks as [|a acks IH]; cbn [foldl]; [done|].
  unfold receiveAck at 2. rewrite Hr. exact IH.
Qed.

Lemma receiveMessage_dead msg cm : _receiving cm = false -> receiveMessage msg cm = cm.
Proof.
  intros Hr. unfold receiveMessage.
  rewrite receiveEntries_dead by done. by apply receiveAcks_dead.
Qed.

Lemma receiveAll_dead msgs cm : _receiving cm = false -> receiveAll msgs cm = cm.
Proof.
  intros Hr. unfold receiveAll. induction msgs as [|m msgs IH]; cbn [foldl]; [done|].
  by rewrite (receiveMessage_dead m cm Hr).
Qed.

(** X8. A message whose [playerId] is not one of the manager's peers
    (the manager's own id included) and that carries a command entry or an
    ack ends the receive loop: the lookup of the sender's ack set gives
    [undefined] and the method call on it throws.  Every later message is
    ignored, so the map never changes through reception again.  Of the
    stranger's message only the first command entry was merged, under the
    stranger's id. *)
Theorem message_of_a_stranger_ends_reception
    (p : N) (others : list N) (d t0 : Z) (evs : list Event)
    (msg : NetworkMessage) (msgs : list NetworkMessage) :
  Forall (peer_event (new p others d t0)) evs ->
  msg_playerId msg ∉ others ->
  msg_commands msg <> [] \/ msg_acks msg <> [] ->
  let cm := run evs (new p others d t0) in
  _receiving cm = true /\
  _receiving (receiveMessage msg cm) = false /\
  receiveAll msgs (receiveMessage msg cm) = receiveMessage msg cm /\
  _tickCommandsMap (receiveMessage msg cm)
  = match msg_commands msg with
    | [] => _tickCommandsMap cm
    | e :: _ => merge (_tick cm) (_tickCommandsMap cm) (msg_playerId msg, e.1, e.2)
    end.
Proof.
  intros Hevs Hstranger Hsome cm.
  assert (Hr : _receiving cm = true) by by destruct (run_live p others d t0 evs Hevs).
  assert (Ha : _acksToSend cm !! msg_playerId msg = None).
  { destruct (_acksToSend cm !! msg_playerId msg) eqn:Hs; [|done].
    exfalso. apply Hstranger, (run_ack_keys p others d t0 evs). left. fold cm. by rewrite Hs. }
  assert (Hp : _pendingAcks cm !! msg_playerId msg = None).
  { destruct (_pendingAcks cm !! msg_playerId msg) eqn:Hs; [|done].
    exfalso. apply Hstranger, (run_ack_keys p others d t0 evs). right. fold cm. by rewrite Hs. }
  split; [done|].
  assert (Hdead : _receiving (receiveMessage msg cm) = false /\
                  _tickCommandsMap (receiveMessage msg cm)
                  = match msg_commands msg with
                    | [] => _tickCommandsMap cm
                    | e :: _ => merge (_tick cm) (_tickCommandsMap cm)
                                      (msg_playerId msg, e.1, e.2)
                    end).
  { unfold receiveMessage. destruct (msg_commands msg) as [|e es].
    - destruct (msg_acks msg) as [|a acks]; [by destruct Hsome|].
      cbn [foldl].
      assert (H1 : receiveAck (msg_playerId msg) cm a = with_receiving false cm)
        by (unfold receiveAck; by rewrite Hr, Hp).
      by rewrite H1, receiveAcks_dead.
    - cbn [foldl].
      set (cm1 := if _tick cm <=? e.1
                  then with_tickCommandsMap
                         (addCommandsForPlayer e.1 (msg_playerId msg) (Many e.2)
                            (_tickCommandsMap cm)) cm
                  else cm).
      assert (Ha1 : _acksToSend cm1 !! msg_playerId msg = None).
      { unfold cm1. by destruct (_tick cm <=? e.1). }
      assert (H1 : receiveEntry (msg_playerId msg) cm e = with_receiving false cm1).
      { unfold receiveEntry. rewrite Hr. cbn [negb]. fold cm1. by rewrite Ha1. }
      rewrite H1, receiveEntries_dead, receiveAcks_dead by done. split; [done|].
      unfold cm1, merge. cbn [fst snd]. by destruct (_tick cm <=? e.1). }
  destruct Hdead as [Hdead Hmap]. split; [done|]. split; [|done].
  by apply receiveAll_dead.
Qed.

Lemma message_of_a_stranger_ends_reception_witness :
  let cm := run [EvNextTick] (new 0 [1%N] 2 0) in
  let msg := mkMsg 7 [(3, [Noop 7])] [] in
  _receiving (receiveMessage msg cm) = false /\
  receiveAll [mkMsg 1 [(2, [Noop 1])] []] (receiveMessage msg cm) = receiveMessage msg cm.
Proof.
  intros cm msg.
  destruct (message_of_a_stranger_ends_reception 0 [1%N] 2 0 [EvNextTick] msg
              [mkMsg 1 [(2, [Noop 1])] []]) as (_ & H1 & H2 & _).
  - repeat constructor.
  - intros Hin. apply list_elem_of_singleton in Hin. discriminate.
  - left. discriminate.
  - split; [exact H1|exact H2].
Defined.

(** ** The order of the participants on different instances *)

Lemma string_compare_trans (s1 s2 s3 : string) :
  String.compare s1 s2 <> Gt -> String.compare s2 s3 <> Gt -> String.compare s1 s3 <> Gt.
Proof.
  revert s2 s3. induction s1 as [|c1 s1 IH]; intros [|c2 s2] [|c3 s3]; simpl; try done.
  unfold Ascii.compare.
  destruct (N.compare_spec (N_of_ascii c1) (N_of_ascii c2)) as [H12|H12|H12];
    destruct (N.compare_spec (N_of_ascii c2) (N_of_ascii c3)) as [H23|H23|H23];
    try done; intros Ha Hb.
  - rewrite H12, H23, N.compare_refl. by eapply IH.
  - rewrite H12. by rewrite (proj2 (N.compare_lt_iff _ _) H23).
  - rewrite <- H23. by rewrite (proj2 (N.compare_lt_iff _ _) H12).
  - by rewrite (proj2 (N.compare_lt_iff _ _) (N.lt_trans _ _ _ H12 H23)).
Qed.

Lemma toString_inj (a b : N) : toString a = toString b -> a = b.
Proof.
  unfold toString. intros Heq.
  assert (Hnn : forall n, N.to_uint n <> Decimal.Nil).
  { intros [|q]; simpl; [discriminate|apply DecimalPos.Unsigned.to_uint_nonnil]. }
  apply DecimalN.Unsigned.to_uint_inj.
  pose proof (NilZero.usu (N.to_uint a) (Hnn a)) as Ha.
  pose proof (NilZero.usu (N.to_uint b) (Hnn b)) as Hb.
  rewrite Heq in Ha. congruence.
Qed.

#[local] Instance js_le_transitive : Transitive js_le.
Proof.
  intros a b c. unfold js_le, sortCompare, String.leb. intros Hab Hbc.
  pose proof (string_compare_trans (toString a) (toString b) (toString c)) as Ht.
  destruct (String.compare (toString a) (toString b)); try done;
    destruct (String.compare (toString b) (toString c)); try done;
    destruct (String.compare (toString a) (toString c)); try done;
    exfalso; by apply Ht.
Qed.

#[local] Instance js_le_antisymmetric : AntiSymm eq js_le.
Proof.
  intros a b Hab Hba. apply toString_inj. by apply String.leb_antisym.
Qed.

Lemma js_sort_of_permutation (l1 l2 : list N) : l1 ≡ₚ l2 -> js_sort l1 = js_sort l2.
Proof.
  intros Hp. apply (Sorted_unique js_le); try apply js_sort_sorted.
  by rewrite !js_sort_perm.
Qed.

Lemma getAllCommands_by_player cm t :
  getAllCommands cm t
  = concat (map (getCommandsForPlayer (_tickCommandsMap cm) t) (_sortedPlayerIds cm)).
Proof.
  unfold getAllCommands, getCommandsForPlayer.
  destruct (_tickCommandsMap cm !! t); [done|].
  induction (_sortedPlayerIds cm) as [|x l IH]; [done|]. simpl. exact IH.
Qed.

(** X9. Managers of the same game, each constructed with its own id
    first and the others in any order, end up with the same sorted id
    list; so whenever two of them hold the same lists for a tick, however
    they came to hold them, [getAllCommands] returns the same sequence on
    both. *)
Theorem every_player_sorts_alike
    (p1 p2 : N) (others1 others2 : list N) (d1 d2 t1 t2 : Z)
    (evs1 evs2 : list Event) (t : Z) :
  p1 :: others1 ≡ₚ p2 :: others2 ->
  let cm1 := run evs1 (new p1 others1 d1 t1) in
  let cm2 := run evs2 (new p2 others2 d2 t2) in
  _sortedPlayerIds cm1 = _sortedPlayerIds cm2 /\
  ((forall q, getCommandsForPlayer (_tickCommandsMap cm1) t q
              = getCommandsForPlayer (_tickCommandsMap cm2) t q) ->
   getAllCommands cm1 t = getAllCommands cm2 t).
Proof.
  intros Hperm cm1 cm2.
  assert (Hs : _sortedPlayerIds cm1 = _sortedPlayerIds cm2).
  { unfold cm1, cm2. rewrite !run_sorted. by apply js_sort_of_permutation. }
  split; [done|]. intros Hsame. rewrite !getAllCommands_by_player, Hs.
  f_equal. apply map_ext. exact Hsame.
Qed.

Lemma every_player_sorts_alike_witness :
  _sortedPlayerIds (run [EvNextTick] (new 0 [1%N; 2%N] 2 0))
  = _sortedPlayerIds (run [] (new 2 [0%N; 1%N] 2 0)).
Proof.
  apply (every_player_sorts_alike 0 2 [1%N; 2%N] [0%N; 1%N] 2 2 0 0 [EvNextTick] [] 0).
  change ([0%N] ++ [1%N; 2%N] ≡ₚ [2%N] ++ [0%N; 1%N])%list.
  rewrite (Permutation_app_comm [2%N] [0%N; 1%N]). reflexivity.
Defined.

(** ** What a wait leaves alone *)

Lemma receiveAll_frame batch cm :
  same_cfg cm (receiveAll batch cm) /\
  _commandQueue (receiveAll batch cm) = _commandQueue cm.
Proof.
  unfold receiveAll.
  apply (foldl_preserves (fun c => same_cfg cm c /\ _commandQueue c = _commandQueue cm)).
  - intros c m [Hc Hq].
    destruct (receiveMessage_tickmap (fun _ _ => True) m c) as (_ & Hc' & Hq'); [done|done|].
    split; [by eapply same_cfg_trans|congruence].
  - split; [apply same_cfg_refl|done].
Qed.

Lemma waitForTick_frame tick arrivals : forall cm sent cm' sent',
  waitForTick tick arrivals cm sent = Some (cm', sent') ->
  same_cfg cm cm' /\ _commandQueue cm' = _commandQueue cm.
Proof.
  induction arrivals as [|batch rest IH]; intros cm sent cm' sent'; cbn [waitForTick].
  - destruct (isTickReady cm tick); [|done]. intros [= <- _].
    split; [apply same_cfg_refl|done].
  - destruct (isTickReady cm tick).
    + intros [= <- _]. split; [apply same_cfg_refl|done].
    + intros H. apply IH in H as [Hc Hq].
      destruct (sendCommands_frame (_tick cm + _commandDelay cm - 1) cm) as (Hc1 & _ & Hq1 & _).
      destruct (receiveAll_frame batch (sendCommands (_tick cm + _commandDelay cm - 1) cm).1)
        as [Hc2 Hq2].
      split; [by eapply same_cfg_trans; [|eapply same_cfg_trans]|congruence].
Qed.

(** ** The horizon of a manager *)

Lemma horizon_not_ready p others d t0 evs t :
  p ∉ others -> 0 <= t0 ->
  Forall (peer_event (new p others d t0)) evs ->
  _tick (run evs (new p others d t0)) + d <= t ->
  isTickReady (run evs (new p others d t0)) t = false.
Proof.
  intros Hself Ht0 Hevs Ht.
  destruct (isTickReady (run evs (new p others d t0)) t) eqn:Hready; [|done].
  exfalso. apply (isTickReady_all _ t p) in Hready.
  - rewrite (run_own_free p others d t0 evs t) in Hready by done. by destruct Hready.
  - rewrite run_sorted. by apply run_participant.
  - rewrite run_sorted. apply js_sort_elem, list_elem_of_here.
Qed.

Lemma horizon_wait_never_ends p others d t0 evs t arrivals :
  p ∉ others -> 0 <= t0 ->
  Forall (peer_event (new p others d t0)) evs ->
  Forall (Forall (from_peer (new p others d t0))) arrivals ->
  _tick (run evs (new p others d t0)) + d <= t ->
  waitForTick t arrivals (run evs (new p others d t0)) [] = None.
Proof.
  intros Hself Ht0 Hevs Harr Ht.
  destruct (waitForTick t arrivals (run evs (new p others d t0)) [])
    as [[cm' sent]|] eqn:Hw; [|done].
  exfalso. destruct (waitForTick_frame _ _ _ _ _ _ Hw) as ((_ & _ & _ & _ & Htick) & _).
  apply waitForTick_run in Hw as (Hready & evs' & -> & Hpeer).
  rewrite <- run_app in Hready, Htick.
  rewrite horizon_not_ready in Hready; try done.
  - apply Forall_app. split; [done|].
    eapply Forall_impl; [apply Hpeer|].
    + eapply Forall_impl; [exact Harr|]. intros b Hb.
      eapply Forall_impl; [exact Hb|]. intros m. unfold from_peer.
      by rewrite run_others.
    + intros [| | |m]; simpl; try done. unfold from_peer. by rewrite run_others.
  - rewrite <- Htick. exact Ht.
Qed.

(** X10. A manager never gets ahead of what it has scheduled itself: no
    tick at or beyond [_tick + commandDelay] is ready, because the list
    of the local player for such a tick is only stored by a later
    [nextTick], and a wait for such a tick never ends, whatever the peers
    send.  With a [commandDelay] of 0 or less this holds for the current
    tick itself.  (A manager started at a tick >= 0 whose id is not among
    its peers, fed by its peers.) *)
Theorem no_tick_beyond_the_horizon
    (p : N) (others : list N) (d t0 : Z) (evs : list Event) (t : Z)
    (arrivals : list (list NetworkMessage)) :
  p ∉ others -> 0 <= t0 ->
  Forall (peer_event (new p others d t0)) evs ->
  Forall (Forall (from_peer (new p others d t0))) arrivals ->
  let cm := run evs (new p others d t0) in
  _tick cm + d <= t ->
  isTickReady cm t = false /\ waitForTick t arrivals cm [] = None /\
  (d <= 0 -> waitForTick (_tick cm) arrivals cm [] = None).
Proof.
  intros Hself Ht0 Hevs Harr cm Ht.
  split; [by apply horizon_not_ready|]. split; [by apply horizon_wait_never_ends|].
  intros Hd. apply horizon_wait_never_ends; try done. fold cm. lia.
Qed.

Lemma no_tick_beyond_the_horizon_witness :
  let cm := run [EvNextTick] (new 0 [1%N] 0 0) in
  isTickReady cm 1 = false /\
  waitForTick 1 [[mkMsg 1 [(1, [Noop 1])] []]] cm [] = None /\
  waitForTick (_tick cm) [[mkMsg 1 [(1, [Noop 1])] []]] cm [] = None.
Proof.
  intros cm.
  destruct (no_tick_beyond_the_horizon 0 [1%N] 0 0 [EvNextTick] 1
              [[mkMsg 1 [(1, [Noop 1])] []]]) as (H1 & H2 & H3).
  - intros Hin. apply list_elem_of_singleton in Hin. discriminate.
  - lia.
  - repeat constructor.
  - repeat constructor.
  - vm_compute. discriminate.
  - split; [exact H1|]. split; [exact H2|]. apply H3. lia.
Defined.

(** X11. The wait ends when the missing commands arrive: if the manager
    holds its own list for a tick that is not behind its tick, and the
    messages handled during one sleep bring, for every peer whose list is
    still missing, a non-empty list for that tick, then [waitForTick]
    returns after that sleep at the latest, in a state where the tick is
    ready.  (Distinct participant ids, messages of peers only.) *)
Theorem wait_ends_when_commands_arrive
    (p : N) (others : list N) (d t0 : Z) (evs : list Event) (t : Z)
    (batch : list NetworkMessage) (rest : list (list NetworkMessage)) :
  NoDup (p :: others) ->
  Forall (peer_event (new p others d t0)) evs ->
  Forall (from_peer (new p others d t0)) batch ->
  let cm := run evs (new p others d t0) in
  _tick cm <= t -> is_Some (stored (_tickCommandsMap cm) t p) ->
  (forall q, q ∈ others ->
     is_Some (stored (_tickCommandsMap cm) t q) \/
     exists m l, m ∈ batch /\ msg_playerId m = q /\ (t, l) ∈ msg_commands m /\ l <> []) ->
  exists cm' sent,
    waitForTick t (batch :: rest) cm [] = Some (cm', sent) /\ isTickReady cm' t = true.
Proof.
  intros Hnd Hevs Hbatch cm Ht Hown Hpeers.
  cbn [waitForTick]. destruct (isTickReady cm t) eqn:Hready; [by eexists _, _|].
  set (r := sendCommands (_tick cm + _commandDelay cm - 1) cm).
  set (evs2 := evs ++ [EvResend] ++ map EvReceive batch).
  assert (Hrun : receiveAll batch r.1 = run evs2 (new p others d t0)).
  { unfold evs2. by rewrite !run_app, receiveAll_run. }
  assert (Hevs2 : Forall (peer_event (new p others d t0)) evs2).
  { unfold evs2. apply Forall_app. split; [done|]. apply Forall_app. split.
    - by apply Forall_singleton.
    - apply Forall_forall. intros ev Hin. apply list_elem_of_fmap in Hin as (m & -> & Hm).
      rewrite Forall_forall in Hbatch. by apply Hbatch. }
  assert (Hlive : live r.1).
  { apply (apply_event_live cm EvResend); [done|]. by apply run_live. }
  destruct (sendCommands_frame (_tick cm + _commandDelay cm - 1) cm)
    as ((_ & _ & _ & Ho & Htick) & Hmap & _). fold r in Ho, Htick, Hmap.
  assert (Hb' : Forall (from_peer r.1) batch).
  { eapply Forall_impl; [exact Hbatch|]. intros m. unfold from_peer.
    rewrite <- Ho. unfold cm. by rewrite run_others. }
  destruct (receiveAll_tickmap batch r.1 Hlive Hb') as [_ Hmerge].
  rewrite Hmap, <- Htick in Hmerge.
  assert (Hall : forall q, q ∈ p :: others ->
            is_Some (stored (_tickCommandsMap (receiveAll batch r.1)) t q)).
  { intros q Hq. rewrite Hmerge.
    assert (Hkeep : forall q', is_Some (stored (_tickCommandsMap cm) t q') ->
              is_Some (stored (foldl (merge (_tick cm)) (_tickCommandsMap cm)
                                     (flat_map deliveries batch)) t q')).
    { intros q' [l Hl]. exists l. by apply stored_foldl_merge_keep. }
    apply elem_of_cons in Hq as [->|Hq]; [by apply Hkeep|].
    destruct (Hpeers q Hq) as [Hhas|(m & l & Hm & Hid & Hin & Hl)]; [by apply Hkeep|].
    assert (Hd : (q, t, l) ∈ flat_map deliveries batch).
    { apply list_elem_of_In, in_flat_map. exists m. split; [by apply list_elem_of_In|].
      unfold deliveries. apply in_map_iff. exists (t, l). rewrite Hid.
      split; [done|]. by apply list_elem_of_In. }
    destruct (foldl_merge_settles (_tick cm) _ (_tickCommandsMap cm) _ Hd) as [Hlt|[Hnil|Hs]].
    - cbn in Hlt. lia.
    - done.
    - exact Hs. }
  rewrite Hrun in Hall.
  destruct (complete_tick_ready p others d t0 evs2 t rest ([] ++ r.2) Hnd Hevs2 Hall)
    as [Hready2 Hw].
  rewrite <- Hrun in Hw, Hready2. by eexists _, _.
Qed.

Lemma wait_ends_when_commands_arrive_witness :
  let cm := run [EvNextTick; EvNextTick] (new 0 [1%N] 2 0) in
  exists cm' sent,
    waitForTick 2 [[mkMsg 1 [(2, [Noop 1])] []]] cm [] = Some (cm', sent) /\
    isTickReady cm' 2 = true.
Proof.
  apply (wait_ends_when_commands_arrive 0 [1%N] 2 0 [EvNextTick; EvNextTick] 2
           [mkMsg 1 [(2, [Noop 1])] []] []).
  - apply (bool_decide_unpack (NoDup [0%N; 1%N])). vm_compute. exact I.
  - repeat constructor.
  - repeat constructor.
  - vm_compute. discriminate.
  - vm_compute. by eexists.
  - intros q Hq. apply list_elem_of_singleton in Hq as ->. right.
    exists (mkMsg 1 [(2, [Noop 1])] []), [Noop 1].
    split; [apply list_elem_of_here|]. split; [reflexivity|].
    split; [apply list_elem_of_here|discriminate].
Defined.

End ManagerProperties.

(* ===================================================================== *)
(** * Further facts about the transport                                   *)
(* ===================================================================== *)

Module TransportProperties.
Import Cmd Net Wire.

Lemma handOver_spec s r net x ss rs i :
  _sockets net !! s = Some ss -> _sockets net !! r = Some rs ->
  _inboxes net !! r = Some i ->
  _sockets (handOver s r net x) = _sockets net /\
  (exists i', _inboxes (handOver s r net x) !! r = Some i' /\
     yielded i' = yielded i ++ (if isPacketLost x.1.1 x.1.2 ss rs then [] else [x.2])) /\
  forall q, q <> r -> _inboxes (handOver s r net x) !! q = _inboxes net !! q.
Proof.
  intros Hs Hr Hi. unfold handOver, sendMessage. cbn [next _sockets]. rewrite Hs, Hr.
  destruct (isPacketLost x.1.1 x.1.2 ss rs); cbn [snd _sockets _inboxes next].
  - split; [done|]. split.
    + exists (mkInbox true (yielded i)). rewrite lookup_alter_eq, Hi. cbn. by rewrite app_nil_r.
    + intros q Hq. by rewrite lookup_alter_ne.
  - split; [done|]. split.
    + exists (mkInbox false (yielded i ++ [x.2])).
      by rewrite !lookup_alter_eq, Hi.
    + intros q Hq. by rewrite !lookup_alter_ne.
Qed.

Lemma handOverAll_spec s r xs : forall net ss rs i,
  _sockets net !! s = Some ss -> _sockets net !! r = Some rs ->
  _inboxes net !! r = Some i ->
  _sockets (handOverAll s r xs net) = _sockets net /\
  (yielded <$> _inboxes (handOverAll s r xs net) !! r)
  = Some (yielded i ++ passing ss rs xs) /\
  forall q, q <> r -> _inboxes (handOverAll s r xs net) !! q = _inboxes net !! q.
Proof.
  unfold handOverAll, passing.
  induction xs as [|x xs IH]; intros net ss rs i Hs Hr Hi; cbn [foldl].
  - rewrite filter_nil. cbn. rewrite Hi, app_nil_r. done.
  - destruct (handOver_spec s r net x ss rs i Hs Hr Hi) as (Hsock & (i' & Hi' & Hy) & Hother).
    rewrite <- Hsock in Hs, Hr.
    destruct (IH _ ss rs i' Hs Hr Hi') as (Hsock' & Hy' & Hother').
    split; [by rewrite Hsock'|]. split.
    + rewrite Hy', Hy, filter_cons.
      destruct (isPacketLost x.1.1 x.1.2 ss rs) eqn:Hlost.
      * rewrite decide_False by done. by rewrite app_nil_r.
      * rewrite decide_True by done. cbn [fmap list_fmap]. by rewrite <- app_assoc.
    + intros q Hq. rewrite Hother' by done. by apply Hother.
Qed.

(** X12. A consumer that has asked for the next message before each
    arrival is handed exactly the messages that pass their two draws, in
    the order in which they arrive, that is, in which their delays elapse
    (the order of the list; it need not be the order of sending, every
    message has a delay of its own); the sockets and the other players'
    inboxes are not touched. *)
Theorem rearmed_consumer_gets_what_passes
    (net : Network) (s r : N) (ss rs : Socket) (i : Inbox)
    (xs : list (Q * Q * NetworkMessage)) :
  _sockets net !! s = Some ss -> _sockets net !! r = Some rs ->
  _inboxes net !! r = Some i ->
  _sockets (handOverAll s r xs net) = _sockets net /\
  (yielded <$> _inboxes (handOverAll s r xs net) !! r)
  = Some (yielded i ++ passing ss rs xs) /\
  forall q, q <> r -> _inboxes (handOverAll s r xs net) !! q = _inboxes net !! q.
Proof. apply handOverAll_spec. Qed.

Lemma rearmed_consumer_gets_what_passes_witness :
  let a := mkMsg 0 [(2, [Noop 0])] [] in
  let b := mkMsg 0 [(3, [Noop 0])] [] in
  (yielded <$> _inboxes (handOverAll 0 1 [(1 # 2, 1 # 2, a); (1 # 2, 1 # 2, b)] two_sockets)
               !! 1%N)
  = Some ([] ++ passing (mkSocket 0 (mkOptions None None)) (mkSocket 1 (mkOptions None None))
                        [(1 # 2, 1 # 2, a); (1 # 2, 1 # 2, b)]).
Proof.
  intros a b.
  apply (rearmed_consumer_gets_what_passes two_sockets 0 1
           (mkSocket 0 (mkOptions None None)) (mkSocket 1 (mkOptions None None))
           (mkInbox false []) [(1 # 2, 1 # 2, a); (1 # 2, 1 # 2, b)]); reflexivity.
Defined.

Lemma isPacketLost_none roll1 roll2 ss rs :
  (0 <= roll1)%Q -> (0 <= roll2)%Q ->
  (default 0%Q (opt_packetLoss (sock_options ss)) <= 0)%Q ->
  (default 0%Q (opt_packetLoss (sock_options rs)) <= 0)%Q ->
  isPacketLost roll1 roll2 ss rs = false.
Proof.
  intros H1 H2 Hs Hr. unfold isPacketLost.
  rewrite (proj2 (Qle_bool_iff _ _) (Qle_trans _ _ _ Hs H1)).
  by rewrite (proj2 (Qle_bool_iff _ _) (Qle_trans _ _ _ Hr H2)).
Qed.

Lemma Qle_bool_false (a b : Q) : (b < a)%Q -> Qle_bool a b = false.
Proof.
  intros Hlt. destruct (Qle_bool a b) eqn:Hle; [|done].
  apply Qle_bool_iff in Hle. exfalso. by apply (Qlt_not_le _ _ Hlt).
Qed.

Lemma isPacketLost_all roll1 roll2 ss rs :
  (roll1 < 1)%Q -> (roll2 < 1)%Q ->
  (1 <= default 0%Q (opt_packetLoss (sock_options ss)))%Q \/
  (1 <= default 0%Q (opt_packetLoss (sock_options rs)))%Q ->
  isPacketLost roll1 roll2 ss rs = true.
Proof.
  intros H1 H2 [Hs|Hr]; unfold isPacketLost.
  - by rewrite (Qle_bool_false _ _ (Qlt_le_trans _ _ _ H1 Hs)).
  - rewrite (Qle_bool_false _ _ (Qlt_le_trans _ _ _ H2 Hr)). apply orb_true_r.
Qed.

(** X13. The two ends of the loss setting, for draws in [0, 1) as
    [Math.random] gives them: when neither socket has a positive
    [packetLoss] (the default settings) a consumer that re-arms before each
    arrival is handed every message, in order; when one of the two sockets
    has a [packetLoss] of 1 or more it is handed none. *)
Theorem packet_loss_at_its_ends
    (net : Network) (s r : N) (ss rs : Socket) (i : Inbox)
    (xs : list (Q * Q * NetworkMessage)) :
  _sockets net !! s = Some ss -> _sockets net !! r = Some rs ->
  _inboxes net !! r = Some i ->
  Forall (fun x => (0 <= x.1.1)%Q /\ (x.1.1 < 1)%Q /\ (0 <= x.1.2)%Q /\ (x.1.2 < 1)%Q) xs ->
  let senderLoss := default 0%Q (opt_packetLoss (sock_options ss)) in
  let receiverLoss := default 0%Q (opt_packetLoss (sock_options rs)) in
  ((senderLoss <= 0)%Q -> (receiverLoss <= 0)%Q ->
   (yielded <$> _inboxes (handOverAll s r xs net) !! r) = Some (yielded i ++ xs.*2)) /\
  ((1 <= senderLoss)%Q \/ (1 <= receiverLoss)%Q ->
   (yielded <$> _inboxes (handOverAll s r xs net) !! r) = Some (yielded i)).
Proof.
  intros Hs Hr Hi Hrolls senderLoss receiverLoss.
  destruct (handOverAll_spec s r xs net ss rs i Hs Hr Hi) as (_ & -> & _).
  split.
  - intros Hls Hlr. do 2 f_equal. unfold passing. f_equal.
    induction Hrolls as [|x xs (H1 & _ & H2 & _) _ IH]; [done|].
    rewrite filter_cons, decide_True by by apply isPacketLost_none. by rewrite IH.
  - intros Hloss. f_equal. rewrite <- (app_nil_r (yielded i)) at 2. f_equal.
    unfold passing.
    induction Hrolls as [|x xs (_ & H1 & _ & H2) _ IH]; [done|].
    rewrite filter_cons, decide_False; [exact IH|].
    by rewrite isPacketLost_all.
Qed.

Lemma packet_loss_at_its_ends_witness :
  let a := mkMsg 0 [(2, [Noop 0])] [] in
  let b := mkMsg 0 [(3, [Noop 0])] [] in
  (yielded <$> _inboxes (handOverAll 0 1 [(1 # 2, 0 # 1, a); (0 # 1, 9 # 10, b)] two_sockets) !! 1%N)
  = Some ([] ++ [a; b]).
Proof.
  intros a b.
  apply (packet_loss_at_its_ends two_sockets 0 1
           (mkSocket 0 (mkOptions None None)) (mkSocket 1 (mkOptions None None))
           (mkInbox false []) [(1 # 2, 0 # 1, a); (0 # 1, 9 # 10, b)]); try reflexivity.
  - repeat constructor; cbn; unfold Qle, Qlt; cbn; lia.
  - cbn. unfold Qle. cbn. lia.
  - cbn. unfold Qle. cbn. lia.
Defined.

(** X14. [sendMessage] to a player without a socket fails and leaves the
    network as it was.  In every case the sockets and the inboxes of the
    other players stay as they were, and the receiver's inbox either stays
    as it was or, when its consumer was waiting, holds the message as the
    last one yielded and waits no more. *)
Theorem sendMessage_touches_one_inbox
    (roll1 roll2 : Q) (s r : N) (msg : NetworkMessage) (net : Network) :
  (_sockets net !! r = None ->
   exists e, sendMessage roll1 roll2 s r msg net = (inl e, net)) /\
  _sockets (sendMessage roll1 roll2 s r msg net).2 = _sockets net /\
  (forall q, q <> r ->
     _inboxes (sendMessage roll1 roll2 s r msg net).2 !! q = _inboxes net !! q) /\
  (forall i', _inboxes (sendMessage roll1 roll2 s r msg net).2 !! r = Some i' ->
     exists i, _inboxes net !! r = Some i /\
       (i' = i \/ (trigger i = true /\ i' = mkInbox false (yielded i ++ [msg])))).
Proof.
  unfold sendMessage. split; [intros ->; by eexists|].
  destruct (_sockets net !! r) as [rs|]; [|by repeat split; eauto].
  destruct (_sockets net !! s) as [ss|]; [|by repeat split; eauto].
  destruct (isPacketLost roll1 roll2 ss rs); [by repeat split; eauto|].
  cbn [snd _sockets _inboxes]. split; [done|]. split.
  - intros q Hq. by rewrite lookup_alter_ne.
  - intros i'. rewrite lookup_alter_eq.
    destruct (_inboxes net !! r) as [i|]; [|done]. cbn. intros [= <-].
    exists i. split; [done|]. unfold newMessage.
    destruct (trigger i); [right|left]; done.
Qed.

Lemma sendMessage_touches_one_inbox_witness :
  exists e, sendMessage 0 0 0 5 (mkMsg 0 [] []) two_sockets = (inl e, two_sockets).
Proof.
  apply (proj1 (sendMessage_touches_one_inbox 0 0 0 5 (mkMsg 0 [] []) two_sockets)).
  reflexivity.
Defined.


(** ** Arrivals at the receive loop *)









End TransportProperties.

(* ===================================================================== *)
(** * Further facts about units                                           *)
(* ===================================================================== *)

Module UnitProperties.
Import Dec Cmd Sim DecFacts.

Lemma minus_self x : minus x x = mkDec 0 0.
Proof.
  unfold minus, align. rewrite Z.sub_diag. unfold round_sig. rewrite ndigits_0.
  cbn [Z.leb Z.compare precision]. apply normalize_0.
Qed.

Lemma zero_distance : sqrt (plus (mul (mkDec 0 0) (mkDec 0 0)) (mul (mkDec 0 0) (mkDec 0 0)))
                      = Some (mkDec 0 0).
Proof. reflexivity. Qed.

Lemma zero_above_negative y :
  coeff y < 0 -> lessThanOrEqualTo (mkDec 0 0) y = false.
Proof.
  intros Hy. unfold lessThanOrEqualTo, align. cbn [coeff expo].
  apply Z.leb_gt. rewrite Z.mul_0_l.
  assert (0 < 10 ^ (expo y - Z.min 0 (expo y))) by (apply pow10_pos; lia). nia.
Qed.

(** X15. A Move to the very point where the unit stands: the distance is
    zero, and with a speed that is not negative the next update takes the
    snap branch, so the unit keeps its position and has no target again;
    nothing is divided by the zero distance.  With a negative speed the
    snap test fails and the step is the quotient of zero by zero: the
    coordinates stop being numbers. *)
Theorem order_to_stand_still
    (u : Unit) (issuer entity : N) (click : option (Z * Z)) :
  let u1 := processCommand (Move issuer entity (_position u)) u in
  (0 <= coeff (_speed u) -> (update click u1).1 = Some (setTarget None u)) /\
  (coeff (_speed u) < 0 -> (update click u1).1 = None).
Proof.
  destruct u as [i p mine speed size color [x y] target].
  cbn [processCommand setTarget update fst move _target _position _speed px py
       Sim.id playerId isMine _size _color].
  rewrite !minus_self, zero_distance. split; intros Hs.
  - by rewrite lessThanOrEqualTo_zero.
  - rewrite zero_above_negative by done. reflexivity.
Qed.

Lemma order_to_stand_still_witness :
  (update None (processCommand (Move 1 0 (mkPoint (of_Z 50) (of_Z 50)))
                  (mkUnit 0 0 true (of_Z 5) 18 "#FF0000" (mkPoint (of_Z 50) (of_Z 50))
                          (Some (mkPoint (of_Z 66) (of_Z 113)))))).1
  = Some (mkUnit 0 0 true (of_Z 5) 18 "#FF0000" (mkPoint (of_Z 50) (of_Z 50)) None) /\
  (update None (processCommand (Move 1 0 (mkPoint (of_Z 50) (of_Z 50)))
                  (mkUnit 0 0 true (of_Z (-5)) 18 "#FF0000" (mkPoint (of_Z 50) (of_Z 50))
                          None))).1
  = None.
Proof.
  split.
  - apply (proj1 (order_to_stand_still
                    (mkUnit 0 0 true (of_Z 5) 18 "#FF0000" (mkPoint (of_Z 50) (of_Z 50))
                            (Some (mkPoint (of_Z 66) (of_Z 113)))) 1 0 None)).
    vm_compute. discriminate.
  - apply (proj2 (order_to_stand_still
                    (mkUnit 0 0 true (of_Z (-5)) 18 "#FF0000" (mkPoint (of_Z 50) (of_Z 50))
                            None) 1 0 None)).
    vm_compute. reflexivity.
Defined.

End UnitProperties.

(* ===================================================================== *)
(** * Facts about the processor and the game loop                         *)
(* ===================================================================== *)

Module LoopFacts.
Import Dec Cmd Obj Sim Loop ObjFacts.

#[local] Arguments Mgr.nextTick : simpl never.
#[local] Arguments Mgr.sendCommands : simpl never.
#[local] Arguments Mgr.receiveMessage : simpl never.
#[local] Arguments Mgr.new : simpl never.

(** ** The command processor *)

Lemma processCommands_snoc cs c st :
  processCommands (cs ++ [c]) st = processOne (processCommands cs st) c.
Proof. unfold processCommands. by rewrite foldl_app. Qed.

Lemma lastMove_snoc k cs c :
  lastMove k (cs ++ [c])
  = match c with
    | Move _ e pt => if Z.of_N e =? k then Some pt else lastMove k cs
    | Noop _ => lastMove k cs
    end.
Proof. unfold lastMove. by rewrite foldl_app. Qed.

Lemma same_keys_get {V} (o1 o2 : list (Z * V)) k :
  o1.*1 = o2.*1 -> obj_get k o1 = None <-> obj_get k o2 = None.
Proof.
  intros Hk. rewrite !eq_None_not_Some, !obj_get_keys. by rewrite Hk.
Qed.

Lemma processCommands_spec (commands : list Command) (state : GameState) :
  let r := processCommands commands state in
  (entities r.1).*1 = (entities state).*1 /\
  (forall k u, obj_get k (entities state) = Some u ->
     obj_get k (entities r.1)
     = Some (match lastMove k commands with
             | Some pt => setTarget (Some pt) u
             | None => u
             end)) /\
  (forall e, NotFound e ∈ r.2 <->
     (exists p pt, Move p e pt ∈ commands) /\
     obj_get (Z.of_N e) (entities state) = None).
Proof.
  induction commands as [|c cs IH] using rev_ind.
  - cbn. split; [done|]. split; [done|]. intros e. split.
    + intros H. by apply elem_of_nil in H.
    + intros [(p & pt & H) _]. by apply elem_of_nil in H.
  - destruct IH as (Hkeys & Hget & Hlog). rewrite processCommands_snoc.
    set (st1 := processCommands cs state) in *. cbv zeta.
    destruct c as [p|p e pt]; cbn [processOne].
    + split; [done|]. split.
      * intros k u Hu. rewrite lastMove_snoc. by apply Hget.
      * intros e'. rewrite Hlog. split; intros [(p' & pt' & Hin) Hnone]; split; try done.
        -- exists p', pt'. apply elem_of_app. by left.
        -- exists p', pt'. apply elem_of_app in Hin as [Hin|Hin]; [done|].
           by apply list_elem_of_singleton in Hin.
    + destruct (obj_get (Z.of_N e) (entities st1.1)) as [u1|] eqn:Hg; cbn [fst snd entities].
      * split; [by rewrite obj_mutate_keys|]. split.
        -- intros k u Hu. rewrite obj_get_mutate, lastMove_snoc, (Hget k u Hu).
           destruct (decide (k = Z.of_N e)) as [->|Hne].
           ++ rewrite Z.eqb_refl. cbn. by destruct (lastMove (Z.of_N e) cs).
           ++ by destruct (Z.eqb_spec (Z.of_N e) k); [congruence|].
        -- intros e'. rewrite Hlog. split; intros [(p' & pt' & Hin) Hnone]; split; try done.
           ++ exists p', pt'. apply elem_of_app. by left.
           ++ exists p', pt'. apply elem_of_app in Hin as [Hin|Hin]; [done|].
              apply list_elem_of_singleton in Hin. injection Hin as _ -> _.
              apply (same_keys_get _ _ (Z.of_N e) Hkeys) in Hnone. congruence.
      * split; [done|]. split.
        -- intros k u Hu. rewrite lastMove_snoc.
           destruct (Z.eqb_spec (Z.of_N e) k) as [<-|Hne]; [|by apply Hget].
           apply (same_keys_get _ _ (Z.of_N e) Hkeys) in Hg. congruence.
        -- intros e'. rewrite elem_of_app, Hlog, !elem_of_cons. split.
           ++ intros [[(p' & pt' & Hin) Hnone]|[[= ->]|[Hd|Hd]]].
              ** split; [|done]. exists p', pt'. apply elem_of_app. by left.
              ** split; [|by apply (same_keys_get _ _ (Z.of_N e) Hkeys)].
                 exists p, pt. apply elem_of_app. right. apply list_elem_of_here.
              ** discriminate.
              ** by apply elem_of_nil in Hd.
           ++ intros [(p' & pt' & Hin) Hnone].
              apply elem_of_app in Hin as [Hin|Hin]; [left; split; [|done]; by exists p', pt'|].
              apply list_elem_of_singleton in Hin. injection Hin as _ -> _. right. by left.
Qed.

(** X16. [processCommands] only ever sets targets.  The entities and
    their order stay; each keeps everything but its target, which becomes
    the point of the last Move of the list that names the entity, or stays
    when no Move names it; Noop commands change nothing.  A Move that names
    an entity which does not exist changes nothing either and is reported
    on the console, and nothing else is reported. *)
Theorem processCommands_sets_targets_only (commands : list Command) (state : GameState) :
  let r := processCommands commands state in
  (entities r.1).*1 = (entities state).*1 /\
  (forall k u, obj_get k (entities state) = Some u ->
     obj_get k (entities r.1)
     = Some (match lastMove k commands with
             | Some pt => setTarget (Some pt) u
             | None => u
             end)) /\
  (forall e, NotFound e ∈ r.2 <->
     (exists p pt, Move p e pt ∈ commands) /\
     obj_get (Z.of_N e) (entities state) = None).
Proof. apply processCommands_spec. Qed.

Lemma processOne_reissue f st c : processOne st (reissue f c) = processOne st c.
Proof. by destruct c. Qed.

(** X17. The processor never looks at the player who issued a command:
    the same commands under any other issuers give the same state and the
    same console output, and a Move of any player sets the target of any
    existing unit, whoever owns it. *)
Theorem processCommands_ignores_the_issuer
    (f : N -> N) (commands : list Command) (state : GameState) :
  processCommands (map (reissue f) commands) state = processCommands commands state /\
  forall (p e : N) (pt : Point2D) (u : Unit),
    obj_get (Z.of_N e) (entities state) = Some u ->
    obj_get (Z.of_N e) (entities (processCommands [Move p e pt] state).1)
    = Some (setTarget (Some pt) u).
Proof.
  split.
  - unfold processCommands. generalize (state, @nil LogEntry).
    induction commands as [|c cs IH]; intros acc; cbn [map foldl]; [done|].
    by rewrite processOne_reissue.
  - intros p e pt u Hu.
    destruct (processCommands_spec [Move p e pt] state) as (_ & Hget & _).
    rewrite (Hget _ u Hu). cbn. by rewrite Z.eqb_refl.
Qed.

Lemma processCommands_sets_targets_only_witness :
  let u := mkUnit 0 0 true (of_Z 5) 18 "#FF0000" (mkPoint (of_Z 50) (of_Z 50)) None in
  let state := mkState [(0, u)] in
  let commands := [Move 1 0 (mkPoint (of_Z 1) (of_Z 2)); Noop 0;
                   Move 0 0 (mkPoint (of_Z 3) (of_Z 4));
                   Move 0 7 (mkPoint (of_Z 0) (of_Z 0))] in
  obj_get 0 (entities (processCommands commands state).1)
  = Some (setTarget (Some (mkPoint (of_Z 3) (of_Z 4))) u) /\
  NotFound 7 ∈ (processCommands commands state).2.
Proof.
  intros u state commands.
  destruct (processCommands_sets_targets_only commands state) as (_ & Hget & Hlog).
  split.
  - exact (Hget 0 u eq_refl).
  - apply Hlog. split; [|reflexivity].
    exists 0%N, (mkPoint (of_Z 0) (of_Z 0)).
    do 3 apply list_elem_of_further. apply list_elem_of_here.
Defined.

Lemma processCommands_ignores_the_issuer_witness :
  let u := mkUnit 0 0 true (of_Z 5) 18 "#FF0000" (mkPoint (of_Z 50) (of_Z 50)) None in
  obj_get 0 (entities (processCommands [Move 3 0 (mkPoint (of_Z 1) (of_Z 2))]
                         (mkState [(0, u)])).1)
  = Some (setTarget (Some (mkPoint (of_Z 1) (of_Z 2))) u).
Proof.
  intros u.
  apply (proj2 (processCommands_ignores_the_issuer (fun q => q) [] (mkState [(0, u)]))
           3%N 0%N (mkPoint (of_Z 1) (of_Z 2)) u).
  reflexivity.
Defined.

(** ** One tick of the game *)

Lemma move_same_unit u1 u2 :
  same_unit u1 u2 -> option_Forall2 same_unit (move u1) (move u2).
Proof.
  destruct u1 as [i1 p1 m1 s1 z1 c1 pos1 t1], u2 as [i2 p2 m2 s2 z2 c2 pos2 t2].
  unfold same_unit. cbn. intros (-> & -> & -> & -> & -> & -> & ->).
  unfold move. cbn [_target _position _speed with_position setTarget Sim.id playerId isMine
                    _size _color].
  destruct t2 as [t|]; [|by constructor].
  destruct (sqrt _) as [distance|]; [|constructor].
  destruct (lessThanOrEqualTo distance s2); [by constructor|].
  repeat match goal with
         | |- context [match div ?a ?b with _ => _ end] => destruct (div a b)
         end; by constructor.
Qed.

Lemma processCommand_same_unit c u1 u2 :
  same_unit u1 u2 -> same_unit (processCommand c u1) (processCommand c u2).
Proof.
  unfold same_unit. intros (? & ? & ? & ? & ? & ? & ?). destruct c; cbn; by repeat split.
Qed.

Lemma same_world_get (es1 es2 : list (Z * Unit)) k :
  Forall2 same_entity es1 es2 ->
  option_Forall2 same_unit (obj_get k es1) (obj_get k es2).
Proof.
  induction 1 as [|[k1 u1] [k2 u2] es1 es2 [Hk Hu] _ IH]; cbn; [constructor|].
  cbn in Hk. subst k2. destruct (k =? k1); [by constructor|exact IH].
Qed.

Lemma same_world_mutate (f : Unit -> Unit) (es1 es2 : list (Z * Unit)) k :
  (forall u1 u2, same_unit u1 u2 -> same_unit (f u1) (f u2)) ->
  Forall2 same_entity es1 es2 ->
  Forall2 same_entity (obj_mutate k f es1) (obj_mutate k f es2).
Proof.
  intros Hf. induction 1 as [|[k1 u1] [k2 u2] es1 es2 [Hk Hu] Hrest IH]; cbn; [constructor|].
  cbn in Hk, Hu. subst k2. destruct (k =? k1); constructor; try done.
  split; [done|]. by apply Hf.
Qed.

Lemma processOne_same_world st1 st2 c :
  same_world st1.1 st2.1 -> same_world (processOne st1 c).1 (processOne st2 c).1.
Proof.
  unfold same_world. intros Hw. destruct c as [p|p e pt]; cbn [processOne]; [done|].
  destruct (same_world_get _ _ (Z.of_N e) Hw) as [u1 u2 _|]; cbn [fst entities]; [|done].
  apply same_world_mutate; [|done]. apply processCommand_same_unit.
Qed.

Lemma processCommands_same_world cs s1 s2 :
  same_world s1 s2 -> same_world (processCommands cs s1).1 (processCommands cs s2).1.
Proof.
  unfold processCommands.
  assert (H : forall a1 a2 : GameState * list LogEntry, same_world a1.1 a2.1 ->
              same_world (foldl processOne a1 cs).1 (foldl processOne a2 cs).1).
  { induction cs as [|c cs IH]; intros a1 a2 Ha; cbn [foldl]; [done|].
    by apply IH, processOne_same_world. }
  intros Hs. by apply H.
Qed.

Lemma update_entities_none input es cm :
  (foldl (updateEntity input) (None, cm) es).1 = None.
Proof.
  revert cm. induction es as [|e es IH]; intros cm; cbn [foldl]; [done|].
  unfold updateEntity at 2. cbn [fst snd]. apply IH.
Qed.

Lemma update_entities_cons input acc cm e es :
  (foldl (updateEntity input) (acc, cm) (e :: es)).1
  = (foldl (updateEntity input)
       (match acc, move e.2 with
        | Some updated, Some u => Some (updated ++ [(e.1, u)])
        | _, _ => None
        end,
        foldl (fun cm c => Mgr.enqueueCommand c cm) cm
              (clickCommands (leftMouseClick input) e.2)) es).1.
Proof. reflexivity. Qed.

Lemma update_entities_same i1 i2 (es1 es2 : list (Z * Unit)) :
  Forall2 same_entity es1 es2 -> forall a1 a2 c1 c2,
  option_Forall2 (Forall2 same_entity) a1 a2 ->
  option_Forall2 (Forall2 same_entity)
    (foldl (updateEntity i1) (a1, c1) es1).1 (foldl (updateEntity i2) (a2, c2) es2).1.
Proof.
  induction 1 as [|e1 e2 es1 es2 [Hk Hu] _ IH]; intros a1 a2 c1 c2 Ha; [done|].
  rewrite !update_entities_cons. apply IH.
  destruct Ha as [l1 l2 Hl|]; [|constructor].
  destruct (move_same_unit _ _ Hu) as [u1 u2 Hu'|]; constructor.
  apply Forall2_app; [done|]. constructor; [by split|constructor].
Qed.

Lemma runTick_unfold g :
  let p := processCommands (Mgr.getAllCommands (_commandManager g) (_tick g)) (_state g) in
  let F := foldl (updateEntity (_localInputManager g)) (Some [], _commandManager g)
                 (entities p.1) in
  runTick g
  = match F.1 with
    | Some es =>
        Some (mkGame (_playerId g) (mkState es) (mkInput None) (Mgr.nextTick F.2).1
                     (_tick g + 1),
              (Mgr.nextTick F.2).2, p.2)
    | None => None
    end.
Proof.
  cbv zeta. unfold runTick, update.
  cbn [_state _localInputManager _commandManager _tick _playerId].
  by destruct (foldl _ _ _).1.
Qed.

(** X18. The state after a tick depends on the state before it and on
    the commands of the tick only: two games whose entities agree up to
    [isMine] and whose managers return the same commands for their ticks
    have entities that agree up to [isMine] after the tick as well,
    whatever was clicked on either of them, whoever owns what, and whatever
    else their managers hold; and the tick goes through on the second when
    it does on the first. *)
Theorem state_depends_on_commands_only
    (g1 g2 : Game) (r1 : Game * list (N * NetworkMessage) * list LogEntry) :
  same_world (_state g1) (_state g2) ->
  Mgr.getAllCommands (_commandManager g1) (_tick g1)
  = Mgr.getAllCommands (_commandManager g2) (_tick g2) ->
  runTick g1 = Some r1 ->
  exists r2, runTick g2 = Some r2 /\ same_world (_state r1.1.1) (_state r2.1.1).
Proof.
  intros Hw Hcmds H1. rewrite runTick_unfold in H1. rewrite runTick_unfold.
  cbv zeta in *. rewrite <- Hcmds.
  pose proof (processCommands_same_world
                (Mgr.getAllCommands (_commandManager g1) (_tick g1)) _ _ Hw) as Hp.
  pose proof (update_entities_same (_localInputManager g1) (_localInputManager g2) _ _ Hp
                (Some []) (Some []) (_commandManager g1) (_commandManager g2)
                ltac:(by repeat constructor)) as Hu.
  destruct Hu as [es1 es2 Hes|]; [|done].
  eexists. split; [reflexivity|]. injection H1 as <-. exact Hes.
Qed.

Lemma state_depends_on_commands_only_witness :
  let u0 := mkUnit 0 0 true (of_Z 5) 18 "#FF0000" (mkPoint (of_Z 50) (of_Z 50))
                   (Some (mkPoint (of_Z 80) (of_Z 90))) in
  let v0 := mkUnit 0 0 false (of_Z 5) 18 "#FF0000" (mkPoint (of_Z 50) (of_Z 50))
                   (Some (mkPoint (of_Z 80) (of_Z 90))) in
  let g1 := mkGame 0 (mkState [(0, u0)]) (mkInput (Some (10, 20))) (Mgr.new 0 [1%N] 2 0) 0 in
  let g2 := mkGame 1 (mkState [(0, v0)]) (mkInput None) (Mgr.new 1 [0%N] 2 0) 0 in
  match runTick g1 with
  | Some r1 => exists r2, runTick g2 = Some r2 /\ same_world (_state r1.1.1) (_state r2.1.1)
  | None => False
  end.
Proof.
  intros u0 v0 g1 g2. destruct (runTick g1) as [r1|] eqn:H1.
  - apply (state_depends_on_commands_only g1 g2 r1).
    + repeat constructor.
    + reflexivity.
    + exact H1.
  - vm_compute in H1. discriminate.
Defined.

Lemma update_entities_spec input (es : list (Z * Unit)) : forall acc cm es',
  (foldl (updateEntity input) (Some acc, cm) es).1 = Some es' ->
  exists new, es' = acc ++ new /\
    Forall2 (fun e e' : Z * Unit => e'.1 = e.1 /\ move e.2 = Some e'.2) es new.
Proof.
  induction es as [|e es IH]; intros acc cm es' H.
  - cbn in H. injection H as <-. exists []. by rewrite app_nil_r.
  - rewrite update_entities_cons in H. destruct (move e.2) as [u|] eqn:Hm.
    + apply IH in H as (new & -> & Hall). exists ((e.1, u) :: new).
      split; [by rewrite <- app_assoc|]. by constructor.
    + by rewrite update_entities_none in H.
Qed.

Lemma moved_get (es new : list (Z * Unit)) k u :
  Forall2 (fun e e' : Z * Unit => e'.1 = e.1 /\ move e.2 = Some e'.2) es new ->
  obj_get k es = Some u ->
  exists u', obj_get k new = Some u' /\ move u = Some u'.
Proof.
  induction 1 as [|[k1 u1] [k2 u2] es new [Hk Hm] _ IH]; cbn; [done|].
  cbn in Hk, Hm. subst k2. destruct (k =? k1); [|exact IH].
  intros [= <-]. by exists u2.
Qed.

Lemma moved_keys (es new : list (Z * Unit)) :
  Forall2 (fun e e' : Z * Unit => e'.1 = e.1 /\ move e.2 = Some e'.2) es new ->
  new.*1 = es.*1.
Proof.
  induction 1 as [|e e' es new [Hk _] _ IH]; [done|]. cbn. by rewrite Hk, IH.
Qed.

(** X19. What a tick does to each entity: its target is first set by the
    last Move of the tick's commands that names it, then it makes one
    movement step.  The entities and their order stay, and a unit without a
    target that no Move names is after the tick exactly what it was. *)
Theorem tick_moves_each_unit
    (g : Game) (r : Game * list (N * NetworkMessage) * list LogEntry) (k : Z) (u : Unit) :
  runTick g = Some r -> obj_get k (entities (_state g)) = Some u ->
  let commands := Mgr.getAllCommands (_commandManager g) (_tick g) in
  (entities (_state r.1.1)).*1 = (entities (_state g)).*1 /\
  exists u', obj_get k (entities (_state r.1.1)) = Some u' /\
    move (match lastMove k commands with
          | Some pt => setTarget (Some pt) u
          | None => u
          end) = Some u' /\
    (lastMove k commands = None -> _target u = None -> u' = u).
Proof.
  intros Hr Hu commands. rewrite runTick_unfold in Hr. cbv zeta in Hr. fold commands in Hr.
  destruct (processCommands_spec commands (_state g)) as (Hkeys & Hget & _).
  destruct (foldl _ _ _).1 as [es|] eqn:HF; [|done].
  apply update_entities_spec in HF as (new & -> & Hall). injection Hr as <-.
  cbn [fst _state entities app].
  split; [by rewrite (moved_keys _ _ Hall)|].
  destruct (moved_get _ _ k _ Hall (Hget k u Hu)) as (u' & Hu' & Hm).
  exists u'. split; [done|]. split; [done|].
  intros Hnone Ht. rewrite Hnone in Hm. unfold move in Hm. rewrite Ht in Hm. congruence.
Qed.

Lemma tick_moves_each_unit_witness :
  let u0 := mkUnit 0 0 true (of_Z 5) 18 "#FF0000" (mkPoint (of_Z 50) (of_Z 50)) None in
  let g := mkGame 0 (mkState [(0, u0)]) (mkInput (Some (10, 20))) (Mgr.new 0 [1%N] 2 0) 0 in
  match runTick g with
  | Some r => obj_get 0 (entities (_state r.1.1)) = Some u0
  | None => False
  end.
Proof.
  intros u0 g. destruct (runTick g) as [r|] eqn:Hr.
  - destruct (tick_moves_each_unit g r 0 u0 Hr eq_refl) as (_ & u' & Hu' & _ & Hrest).
    rewrite Hu'. f_equal. apply Hrest; reflexivity.
  - vm_compute in Hr. discriminate.
Defined.

(** ** Runs of a game *)

Lemma update_manager input (es : list (Z * Unit)) : forall acc cm,
  (foldl (updateEntity input) (acc, cm) es).2
  = foldl (fun c x => Mgr.enqueueCommand x c) cm
          (flat_map (fun e => clickCommands (leftMouseClick input) e.2) es).
Proof.
  induction es as [|e es IH]; intros acc cm; [done|].
  change ((foldl (updateEntity input) (acc, cm) (e :: es)).2)
    with ((foldl (updateEntity input)
             (match acc, move e.2 with
              | Some updated, Some u => Some (updated ++ [(e.1, u)])
              | _, _ => None
              end,
              foldl (fun cm c => Mgr.enqueueCommand c cm) cm
                    (clickCommands (leftMouseClick input) e.2)) es).2).
  rewrite IH. cbn [flat_map]. by rewrite foldl_app.
Qed.

Lemma obj_mutate_flat_map {V W} (h : V -> list W) (f : V -> V) k (o : list (Z * V)) :
  (forall v, h (f v) = h v) ->
  flat_map (fun e => h e.2) (obj_mutate k f o) = flat_map (fun e => h e.2) o.
Proof.
  intros Hf. induction o as [|[k' v] o IH]; cbn; [done|].
  destruct (k =? k'); cbn; [by rewrite Hf|by rewrite IH].
Qed.

Lemma clicks_unchanged click cs st :
  flat_map (fun e => clickCommands click e.2) (entities (processCommands cs st).1)
  = flat_map (fun e => clickCommands click e.2) (entities st).
Proof.
  unfold processCommands. generalize (@nil LogEntry). revert st.
  induction cs as [|c cs IH]; intros st log; cbn [foldl]; [done|].
  destruct c as [p|p e pt]; cbn [processOne fst snd]; [apply IH|].
  destruct (obj_get (Z.of_N e) (entities st)); [|apply IH].
  rewrite IH. cbn [entities]. apply obj_mutate_flat_map.
  intros v. by destruct click as [[x y]|].
Qed.

Lemma game_run_snoc evs ev g0 :
  run (evs ++ [ev]) g0 = run evs g0 ≫= fun g => step g ev.
Proof. unfold run. by rewrite foldl_app. Qed.

(** The manager of a running game is a manager run from its constructor;
    between two events its queue is empty and its tick is the game's. *)
Lemma game_run_manager p others st d evs : forall g,
  Forall (from_peers (Mgr.new p others d 0)) evs ->
  run evs (new p others st d) = Some g ->
  _playerId g = p /\ _tick g = Mgr._tick (_commandManager g) /\
  Mgr._commandQueue (_commandManager g) = [] /\
  exists mevs, _commandManager g = Mgr.run mevs (Mgr.new p others d 0) /\
               Forall (Mgr.peer_event (Mgr.new p others d 0)) mevs.
Proof.
  induction evs as [|ev evs IH] using rev_ind; intros g Hall Hrun.
  - injection Hrun as <-. repeat split. by exists [].
  - apply Forall_app in Hall as [Hevs Hev]. rewrite Forall_singleton in Hev.
    rewrite game_run_snoc in Hrun.
    destruct (run evs (new p others st d)) as [g0|] eqn:H0; [|done]. cbn in Hrun.
    destruct (IH g0 Hevs eq_refl) as (Hp & Ht & Hq & mevs & Hcm & Hpeer).
    destruct ev as [x y|msg|arrivals]; cbn [step] in Hrun.
    + injection Hrun as <-. cbn. repeat split; try done. by exists mevs.
    + injection Hrun as <-. cbn [_playerId _tick _commandManager].
      destruct (MgrFacts.receiveMessage_tickmap (fun _ _ => True) msg (_commandManager g0))
        as (_ & (_ & _ & _ & _ & Htick) & Hqueue); [done|done|].
      split; [done|]. split; [congruence|]. split; [congruence|].
      exists (mevs ++ [Mgr.EvReceive msg]). rewrite MgrFacts.run_snoc, <- Hcm.
      split; [done|]. apply Forall_app. split; [done|]. by apply Forall_singleton.
    + unfold iteration in Hrun.
      destruct (Mgr.waitForTick _ _ _ _) as [[cm1 sent]|] eqn:Hw; [|done].
      destruct (runTick _) as [[[g' sent'] log]|] eqn:Hr; [|done].
      injection Hrun as <-. cbn [fst].
      rewrite runTick_unfold in Hr. cbv zeta in Hr.
      cbn [_playerId _state _localInputManager _commandManager _tick] in Hr.
      destruct (foldl _ _ _).1 as [es|] eqn:HF; [|done].
      rewrite update_manager in Hr.
      apply (f_equal (fun o => match o with Some r => r.1.1 | None => g' end)) in Hr.
      cbn beta iota delta [fst] in Hr. subst g'.
      cbn [_playerId _tick _commandManager].
      destruct (ManagerProperties.waitForTick_frame _ _ _ _ _ _ Hw)
        as ((_ & _ & _ & _ & Htick1) & Hq1).
      apply MgrFacts.waitForTick_run in Hw as (_ & evs' & -> & Hpeer').
      set (cs := flat_map _ _).
      destruct (ManagerProperties.enqueue_all cs (Mgr.run evs' (_commandManager g0)))
        as (_ & _ & (_ & _ & _ & _ & Htick2) & _ & _ & Hrun2).
      cbv zeta in Hrun2. rewrite Hrun2.
      destruct (MgrFacts.nextTick_cfg
                  (Mgr.run (map Mgr.EvEnqueue cs) (Mgr.run evs' (_commandManager g0))))
        as (_ & _ & _ & _ & Htick3 & _).
      split; [done|]. split.
      { rewrite Htick3, <- Hrun2, <- Htick2, <- Htick1. lia. }
      split; [apply ManagerProperties.nextTick_queue|].
      exists (mevs ++ evs' ++ map Mgr.EvEnqueue cs ++ [Mgr.EvNextTick]).
      rewrite !MgrFacts.run_app, <- Hcm. split; [done|].
      apply Forall_app. split; [done|]. apply Forall_app. split.
      * eapply Forall_impl; [apply Hpeer'|].
        -- eapply Forall_impl; [exact Hev|]. intros b Hb.
           eapply Forall_impl; [exact Hb|]. intros m. unfold Mgr.from_peer.
           by rewrite Hcm, ManagerProperties.run_others.
        -- intros [| | |m]; cbn; try done. unfold Mgr.from_peer.
           by rewrite Hcm, ManagerProperties.run_others.
      * apply Forall_app. split; [|by apply Forall_singleton].
        apply Forall_forall. intros ev Hin. apply list_elem_of_fmap in Hin as (c & -> & _).
        done.
Qed.

(** X20. From a click to the wire.  In a game run from its constructor
    with distinct player ids and messages of its peers only, the manager's
    tick is the game's tick and its queue is empty between two iterations;
    a tick then schedules, for the tick [commandDelay] ahead, one Move per
    unit of the local player at the clicked point, in the order of the
    entities (or a single Noop without a click or without own units),
    sends that list to every peer, clears the input and advances the
    tick. *)
Theorem clicks_become_scheduled_moves
    (p : N) (others : list N) (st : GameState) (d : Z) (evs : list Event)
    (g : Game) (r : Game * list (N * NetworkMessage) * list LogEntry) :
  NoDup (p :: others) ->
  Forall (from_peers (Mgr.new p others d 0)) evs ->
  run evs (new p others st d) = Some g ->
  runTick g = Some r ->
  let clicked :=
    flat_map (fun e => clickCommands (leftMouseClick (_localInputManager g)) e.2)
             (entities (_state g)) in
  let payload := match clicked with [] => [Noop p] | q => q end in
  _tick g = Mgr._tick (_commandManager g) /\
  Mgr._commandQueue (_commandManager g) = [] /\
  Mgr.stored (Mgr._tickCommandsMap (_commandManager r.1.1)) (_tick g + d) p = Some payload /\
  _localInputManager r.1.1 = mkInput None /\
  _tick r.1.1 = _tick g + 1 /\
  r.1.2.*1 = others /\
  forall x, x ∈ r.1.2 ->
    msg_playerId x.2 = p /\ obj_get (_tick g + d) (msg_commands x.2) = Some payload.
Proof.
  intros Hnd Hall Hrun Hr clicked payload.
  destruct (game_run_manager p others st d evs g Hall Hrun)
    as (Hp & Ht & Hq & mevs & Hcm & Hpeer).
  split; [done|]. split; [done|].
  rewrite runTick_unfold in Hr. cbv zeta in Hr.
  destruct (foldl _ _ _).1 as [es|] eqn:HF; [|done].
  rewrite update_manager, clicks_unchanged in Hr. fold clicked in Hr.
  apply (f_equal (fun o => match o with Some x => x | None => r end)) in Hr.
  cbn beta iota in Hr. subst r. cbn [fst snd _commandManager _localInputManager _tick].
  pose proof (ManagerProperties.nextTick_schedules p others d 0 mevs clicked Hnd
                ltac:(lia) Hpeer) as Hs.
  cbv zeta in Hs. rewrite <- Hcm, Hq, <- Ht in Hs. cbn [app] in Hs.
  assert (Hpay : match clicked with [] => [Noop p] | c :: l => c :: l end = payload).
  { unfold payload. clearbody clicked. by destruct clicked. }
  rewrite Hpay in Hs. destruct Hs as (Hs1 & _ & _ & Hs4 & Hs5).
  split; [exact Hs1|]. split; [done|]. split; [done|]. split; [exact Hs4|exact Hs5].
Qed.

Lemma clicks_become_scheduled_moves_witness :
  let u0 := mkUnit 0 0 true (of_Z 5) 18 "#FF0000" (mkPoint (of_Z 50) (of_Z 50)) None in
  let u1 := mkUnit 1 1 false (of_Z 5) 18 "#FFBB00" (mkPoint (of_Z 100) (of_Z 100)) None in
  let st := mkState [(0, u0); (1, u1)] in
  match run [EvMouseDown 10 20] (new 0 [1%N] st 2) with
  | Some g =>
      match runTick g with
      | Some r =>
          Mgr.stored (Mgr._tickCommandsMap (_commandManager r.1.1)) (_tick g + 2) 0%N
          = Some [Move 0 0 (mkPoint (of_Z 10) (of_Z 20))]
      | None => False
      end
  | None => False
  end.
Proof.
  intros u0 u1 st.
  destruct (run [EvMouseDown 10 20] (new 0 [1%N] st 2)) as [g|] eqn:Hg;
    [|vm_compute in Hg; discriminate].
  destruct (runTick g) as [r|] eqn:Hr.
  - destruct (clicks_become_scheduled_moves 0 [1%N] st 2 [EvMouseDown 10 20] g r)
      as (_ & _ & Hs & _); try done.
    + apply (bool_decide_unpack (NoDup [0%N; 1%N])). vm_compute. exact I.
    + repeat constructor.
    + rewrite Hs. injection Hg as <-. reflexivity.
  - injection Hg as <-. vm_compute in Hr. discriminate.
Defined.

(** ** The command delay and the first tick *)

Lemma iteration_blocked p others st d evs g arrivals :
  p ∉ others -> d <= 0 ->
  Forall (from_peers (Mgr.new p others d 0)) evs ->
  Forall (Forall (Mgr.from_peer (Mgr.new p others d 0))) arrivals ->
  run evs (new p others st d) = Some g ->
  iteration arrivals g = None.
Proof.
  intros Hself Hd Hall Harr Hrun.
  destruct (game_run_manager p others st d evs g Hall Hrun)
    as (_ & Ht & _ & mevs & Hcm & Hpeer).
  unfold iteration. rewrite Ht, Hcm.
  rewrite ManagerProperties.horizon_wait_never_ends; try done. lia.
Qed.

(** X21. With a [commandDelay] of 0 or less a game never gets through
    its first tick.  The list of the local player for tick 0 is only
    scheduled by [nextTick], which the loop calls after the wait for tick
    0; so that wait never ends, whatever the peers send and whatever is
    clicked, and the game stays at tick 0 in its initial state. *)
Theorem game_without_delay_never_ticks
    (p : N) (others : list N) (st : GameState) (d : Z) (evs : list Event)
    (g : Game) (arrivals : list (list NetworkMessage)) :
  p ∉ others -> d <= 0 ->
  Forall (from_peers (Mgr.new p others d 0)) evs ->
  Forall (Forall (Mgr.from_peer (Mgr.new p others d 0))) arrivals ->
  run evs (new p others st d) = Some g ->
  iteration arrivals g = None /\ _tick g = 0 /\ _state g = st.
Proof.
  intros Hself Hd Hall Harr Hrun. split; [by eapply iteration_blocked|].
  clear Harr arrivals. revert g Hall Hrun.
  induction evs as [|ev evs IH] using rev_ind; intros g Hall Hrun.
  - by injection Hrun as <-.
  - apply Forall_app in Hall as [Hevs Hev]. rewrite Forall_singleton in Hev.
    rewrite game_run_snoc in Hrun.
    destruct (run evs (new p others st d)) as [g0|] eqn:H0; [|done]. cbn in Hrun.
    destruct (IH g0 Hevs eq_refl) as [Ht Hs].
    destruct ev as [x y|msg|arrivals]; cbn [step] in Hrun.
    + by injection Hrun as <-.
    + by injection Hrun as <-.
    + by rewrite (iteration_blocked p others st d evs g0 arrivals) in Hrun.
Qed.

Lemma game_without_delay_never_ticks_witness :
  let st := mkState [(0, mkUnit 0 0 true (of_Z 5) 18 "#FF0000"
                            (mkPoint (of_Z 50) (of_Z 50)) None)] in
  match run [EvMouseDown 10 20] (new 0 [1%N] st 0) with
  | Some g => iteration [[mkMsg 1 [(0, [Noop 1])] []]] g = None
  | None => False
  end.
Proof.
  intros st.
  destruct (run [EvMouseDown 10 20] (new 0 [1%N] st 0)) as [g|] eqn:Hg;
    [|vm_compute in Hg; discriminate].
  apply (game_without_delay_never_ticks 0 [1%N] st 0 [EvMouseDown 10 20] g
           [[mkMsg 1 [(0, [Noop 1])] []]]).
  - intros Hin. apply list_elem_of_singleton in Hin. discriminate.
  - lia.
  - repeat constructor.
  - repeat constructor.
  - exact Hg.
Defined.

(** ** A tick without commands and without targets *)

Lemma processCommands_noops (l : list N) (st : GameState) :
  processCommands (map Noop l) st = (st, []).
Proof.
  unfold processCommands. generalize (st, @nil LogEntry).
  induction l as [|x l IH]; intros acc; cbn [map foldl processOne]; [done|]. apply IH.
Qed.

Lemma update_entities_rest input (es : list (Z * Unit)) : forall acc cm,
  (forall e, e ∈ es -> _target e.2 = None) ->
  (foldl (updateEntity input) (Some acc, cm) es).1 = Some (acc ++ es).
Proof.
  induction es as [|[k u] es IH]; intros acc cm Hes.
  - cbn. by rewrite app_nil_r.
  - rewrite update_entities_cons. cbn [fst snd].
    assert (Hm : move u = Some u).
    { pose proof (Hes (k, u) (list_elem_of_here _ _)) as Ht. cbn [snd] in Ht.
      unfold move. by rewrite Ht. }
    rewrite Hm, IH; [by rewrite <- app_assoc|].
    intros e He. by apply Hes, list_elem_of_further.
Qed.

Lemma no_click_no_commands (es : list (Z * Unit)) :
  flat_map (fun e => clickCommands None e.2) es = [].
Proof. by induction es. Qed.

End LoopFacts.

(* ===================================================================== *)
(** * Facts about the start of the application                            *)
(* ===================================================================== *)

Module BootFacts.
Import Dec Cmd Obj Sim Loop Boot ObjFacts.

Lemma fromEntries_ascending {V} (es : list (Z * V)) :
  StronglySorted Z.lt es.*1 -> Forall (fun x => 0 <= x) es.*1 ->
  Object_fromEntries es = es.
Proof.
  unfold Object_fromEntries.
  assert (H : forall acc : list (Z * V),
              StronglySorted Z.lt (acc ++ es).*1 -> Forall (fun x => 0 <= x) (acc ++ es).*1 ->
              foldl (fun o e => obj_set e.1 e.2 o) acc es = acc ++ es).
  { induction es as [|[k v] es IH]; intros acc Hs Hp; cbn [foldl fst snd];
      [by rewrite app_nil_r|].
    rewrite obj_set_last.
    - rewrite IH; by rewrite <- app_assoc.
    - apply Forall_forall. intros x Hx. rewrite fmap_app in Hs, Hp. split.
      + rewrite Forall_forall in Hp. apply Hp, elem_of_app. by left.
      + eapply (StronglySorted_app_1_elem_of Z.lt); [exact Hs|exact Hx|].
        cbn. apply list_elem_of_here. }
  intros Hs Hp. by apply (H []).
Qed.

Lemma seq_ascending a n : StronglySorted lt (seq a n).
Proof.
  revert a. induction n as [|n IH]; intros a; cbn; constructor; [apply IH|].
  apply Forall_forall. intros x Hx. apply elem_of_seq in Hx. lia.
Qed.

Lemma indices_ascending n : StronglySorted Z.lt (Z.of_nat <$> seq 0 n).
Proof.
  apply (StronglySorted_fmap _ lt); [|apply seq_ascending]. intros x y. lia.
Qed.

Lemma imap_keys {A V} (f : nat -> A -> V) (l : list A) :
  (imap (fun index x => (Z.of_nat index, f index x)) l).*1 = Z.of_nat <$> seq 0 (length l).
Proof. rewrite fmap_imap, <- imap_seq_0. by apply imap_ext. Qed.

(** The entities of the state that is built for [ownerId]. *)
Lemma initial_entities players ownerId s :
  initializeGameStates players !! ownerId = Some s ->
  (ownerId < length players)%nat /\
  entities s
  = imap (fun index color =>
            (Z.of_nat index,
             mkUnit (N.of_nat index) (N.of_nat index) (bool_decide (index = ownerId))
                    PLAYER_SPEED PLAYER_SIZE color
                    (mkPoint (of_Z (50 + Z.of_nat index * 50))
                             (of_Z (50 + Z.of_nat index * 50)))
                    None)) players.
Proof.
  unfold initializeGameStates. rewrite list_lookup_imap.
  destruct (players !! ownerId) as [c|] eqn:Hc; [|done]. cbn. intros [= <-].
  split; [by eapply lookup_lt_Some|]. cbn [entities].
  apply fromEntries_ascending; rewrite imap_keys; [apply indices_ascending|].
  apply Forall_forall. intros x Hx. apply list_elem_of_fmap in Hx as (i & -> & _). lia.
Qed.

(** X22. The states that [initializeGameStates] builds, one per player:
    all of them hold the same units up to [isMine]; in the state of player
    [i] there is one unit per player, keyed and numbered by the player's
    index and owned by that player, at (50 + 50 index, 50 + 50 index),
    without a target and with the speed 5, and exactly the unit [i] is
    marked as the local player's. *)
Theorem initial_states_agree
    (players : list string) (i j : nat) (si sj : GameState) :
  initializeGameStates players !! i = Some si ->
  initializeGameStates players !! j = Some sj ->
  same_world si sj /\
  (entities si).*1 = Z.of_nat <$> seq 0 (length players) /\
  forall (k : nat) (u : Unit), obj_get (Z.of_nat k) (entities si) = Some u ->
    (isMine u = true <-> k = i) /\ Sim.id u = N.of_nat k /\ playerId u = N.of_nat k /\
    _position u = mkPoint (of_Z (50 + Z.of_nat k * 50)) (of_Z (50 + Z.of_nat k * 50)) /\
    _target u = None /\ _speed u = of_Z 5.
Proof.
  intros Hi Hj.
  apply initial_entities in Hi as [Hlt Hi]. apply initial_entities in Hj as [_ Hj].
  split; [|split].
  - unfold same_world. rewrite Hi, Hj. apply Forall2_same_length_lookup.
    split; [by rewrite !length_imap|]. intros n x y. rewrite !list_lookup_imap.
    destruct (players !! n); [|done]. cbn. intros [= <-] [= <-]. cbn. by repeat split.
  - rewrite Hi. apply imap_keys.
  - intros k u Hu. rewrite Hi in Hu. apply obj_get_elem in Hu.
    apply elem_of_lookup_imap_1 in Hu as (n & c & Heq & _).
    injection Heq as Hk ->. apply Nat2Z.inj in Hk as ->. cbn.
    split; [|done]. split.
    + intros H. by apply bool_decide_eq_true in H.
    + intros ->. by apply bool_decide_eq_true.
Qed.

Lemma initial_states_agree_witness :
  exists s0 s1,
    initializeGameStates PLAYERS !! 0%nat = Some s0 /\
    initializeGameStates PLAYERS !! 1%nat = Some s1 /\
    same_world s0 s1 /\ (entities s0).*1 = [0; 1; 2; 3].
Proof.
  destruct (initializeGameStates PLAYERS !! 0%nat) as [s0|] eqn:H0; [|discriminate].
  destruct (initializeGameStates PLAYERS !! 1%nat) as [s1|] eqn:H1; [|discriminate].
  exists s0, s1. split; [done|]. split; [done|].
  destruct (initial_states_agree PLAYERS 0 1 s0 s1 H0 H1) as (Hw & Hk & _).
  split; [exact Hw|exact Hk].
Defined.

Lemma filter_absent (l : list nat) (x : nat) :
  x ∉ l -> filter (fun id => id <> x) l = l.
Proof.
  induction l as [|z l IH]; intros Hx; [done|].
  apply not_elem_of_cons in Hx as [Hz Hx].
  rewrite filter_cons, decide_True by congruence. by rewrite IH.
Qed.

Lemma without_one (l : list nat) (x : nat) :
  NoDup l -> x ∈ l -> l ≡ₚ x :: filter (fun id => id <> x) l.
Proof.
  induction 1 as [|y l Hy Hnd IH]; intros Hx.
  - by apply elem_of_nil in Hx.
  - rewrite filter_cons. destruct (decide (y = x)) as [->|Hne].
    + rewrite decide_False by (intros ?; done). by rewrite filter_absent.
    + rewrite decide_True by done.
      apply elem_of_cons in Hx as [->|Hx]; [done|].
      rewrite (IH Hx) at 1. apply perm_swap.
Qed.

(** X23. The games that [initializeGames] builds: the game of player [i]
    has the player id [i], the tick 0 and a fresh manager for [i] whose
    peers are all the other player indices; its participant ids are
    distinct, they are the indices of all players, and its sorted id list
    is the same as that of every other game. *)
Theorem every_manager_knows_everyone
    (players : list string) (d : Z) (i j : nat) (gi gj : Game) :
  initializeGames players d !! i = Some gi ->
  initializeGames players d !! j = Some gj ->
  _playerId gi = N.of_nat i /\ _tick gi = 0 /\
  _commandManager gi = Mgr.new (N.of_nat i) (otherPlayerIds players i) d 0 /\
  (N.of_nat i ∉ otherPlayerIds players i) /\
  NoDup (N.of_nat i :: otherPlayerIds players i) /\
  N.of_nat i :: otherPlayerIds players i ≡ₚ N.of_nat <$> seq 0 (length players) /\
  Mgr._sortedPlayerIds (_commandManager gi) = Mgr._sortedPlayerIds (_commandManager gj).
Proof.
  assert (Hone : forall k g, initializeGames players d !! k = Some g ->
            _playerId g = N.of_nat k /\ _tick g = 0 /\
            _commandManager g = Mgr.new (N.of_nat k) (otherPlayerIds players k) d 0 /\
            N.of_nat k :: otherPlayerIds players k ≡ₚ N.of_nat <$> seq 0 (length players)).
  { intros k g. unfold initializeGames. rewrite list_lookup_imap.
    destruct (initializeGameStates players !! k) as [s|] eqn:Hs; [|done].
    cbn. intros [= <-]. repeat split.
    apply initial_entities in Hs as [Hlt _].
    unfold otherPlayerIds.
    change (N.of_nat k :: (N.of_nat <$> filter (fun id => id <> k) (seq 0 (length players))))
      with (N.of_nat <$> k :: filter (fun id => id <> k) (seq 0 (length players))).
    apply fmap_Permutation. symmetry. apply without_one; [apply NoDup_seq|].
    apply elem_of_seq. lia. }
  intros Hi Hj.
  destruct (Hone i gi Hi) as (Hp & Ht & Hcm & Hperm).
  destruct (Hone j gj Hj) as (_ & _ & Hcm' & Hperm').
  assert (Hnd : NoDup (N.of_nat i :: otherPlayerIds players i)).
  { rewrite Hperm. apply (NoDup_fmap_2 N.of_nat), NoDup_seq. }
  split; [done|]. split; [done|]. split; [done|].
  split; [by apply NoDup_cons in Hnd as [? _]|]. split; [done|]. split; [done|].
  rewrite Hcm, Hcm'. apply ManagerProperties.js_sort_of_permutation.
  by rewrite Hperm, Hperm'.
Qed.

Lemma every_manager_knows_everyone_witness :
  exists g0 g3,
    initializeGames PLAYERS 2 !! 0%nat = Some g0 /\
    initializeGames PLAYERS 2 !! 3%nat = Some g3 /\
    _commandManager g0 = Mgr.new 0 [1%N; 2%N; 3%N] 2 0 /\
    Mgr._sortedPlayerIds (_commandManager g0) = Mgr._sortedPlayerIds (_commandManager g3).
Proof.
  destruct (initializeGames PLAYERS 2 !! 0%nat) as [g0|] eqn:H0; [|discriminate].
  destruct (initializeGames PLAYERS 2 !! 3%nat) as [g3|] eqn:H3; [|discriminate].
  exists g0, g3. split; [done|]. split; [done|].
  destruct (every_manager_knows_everyone PLAYERS 2 0 3 g0 g3 H0 H3)
    as (_ & _ & Hcm & _ & _ & _ & Hs).
  split; [exact Hcm|exact Hs].
Defined.

Lemma initial_game players d k g :
  initializeGames players d !! k = Some g ->
  exists s, initializeGameStates players !! k = Some s /\
    g = Loop.new (N.of_nat k) (otherPlayerIds players k) s d /\
    N.of_nat k :: otherPlayerIds players k ≡ₚ N.of_nat <$> seq 0 (length players) /\
    NoDup (N.of_nat k :: otherPlayerIds players k).
Proof.
  unfold initializeGames. rewrite list_lookup_imap.
  destruct (initializeGameStates players !! k) as [s|] eqn:Hs; [|done].
  cbn. intros [= <-]. exists s. split; [done|]. split; [done|].
  apply initial_entities in Hs as [Hlt _].
  assert (Hperm : N.of_nat k :: otherPlayerIds players k
                  ≡ₚ N.of_nat <$> seq 0 (length players)).
  { unfold otherPlayerIds.
    change (N.of_nat k :: (N.of_nat <$> filter (fun id => id <> k) (seq 0 (length players))))
      with (N.of_nat <$> k :: filter (fun id => id <> k) (seq 0 (length players))).
    apply fmap_Permutation. symmetry. apply without_one; [apply NoDup_seq|].
    apply elem_of_seq. lia. }
  split; [done|]. rewrite Hperm. apply (NoDup_fmap_2 N.of_nat), NoDup_seq.
Qed.

(** X24. With a [commandDelay] of at least 1 the first iteration of
    every game that [initializeGames] builds goes through without any
    message: tick 0 was seeded by the constructor, so the wait returns at
    once; the seeded Noops and the units without targets leave the state
    as it is; and [nextTick] sends every other player the Noop that it
    schedules for tick [commandDelay]. *)
Theorem first_tick_needs_no_network
    (players : list string) (d : Z) (i : nat) (g : Game) :
  1 <= d -> initializeGames players d !! i = Some g ->
  exists r, iteration [] g = Some r /\
    _tick r.1.1 = 1 /\ _state r.1.1 = _state g /\ r.2 = [] /\
    r.1.2.*1 = otherPlayerIds players i /\
    forall x, x ∈ r.1.2 ->
      msg_playerId x.2 = N.of_nat i /\
      obj_get d (msg_commands x.2) = Some [Noop (N.of_nat i)].
Proof.
  intros Hd Hg. apply initial_game in Hg as (s & Hs & -> & Hperm & Hnd).
  set (p := N.of_nat i) in *. set (others := otherPlayerIds players i) in *.
  destruct (ManagerProperties.seeded_ticks p others d 0 0 Hnd) as [Hseed _].
  destruct Hseed as [Hready Hcmds]; [lia|].
  destruct (ManagerProperties.nextTick_schedules p others d 0 [] [] Hnd ltac:(lia)
              ltac:(constructor)) as (_ & _ & _ & Htargets & Hmsgs).
  cbn [Mgr.run foldl app] in Htargets, Hmsgs.
  unfold iteration, Loop.new.
  cbn [_tick _commandManager _playerId _state _localInputManager Mgr.waitForTick].
  rewrite Hready. rewrite LoopFacts.runTick_unfold. cbv zeta.
  cbn [_tick _commandManager _playerId _state _localInputManager].
  rewrite Hcmds, LoopFacts.processCommands_noops. cbn [fst snd].
  rewrite LoopFacts.update_manager, LoopFacts.update_entities_rest.
  - cbn [leftMouseClick]. rewrite LoopFacts.no_click_no_commands. cbn [foldl app].
    eexists. split; [reflexivity|]. cbn [fst snd _tick _state].
    split; [done|]. split; [by destruct s|]. split; [done|].
    split; [exact Htargets|]. intros x Hx. destruct (Hmsgs x Hx) as [H1 H2].
    split; [exact H1|]. exact H2.
  - intros e He. apply initial_entities in Hs as [_ Hes]. rewrite Hes in He.
    apply elem_of_lookup_imap_1 in He as (n & c & -> & _). done.
Qed.

Lemma first_tick_needs_no_network_witness :
  exists g r,
    initializeGames PLAYERS 2 !! 0%nat = Some g /\ iteration [] g = Some r /\
    _tick r.1.1 = 1 /\ r.1.2.*1 = [1%N; 2%N; 3%N].
Proof.
  destruct (initializeGames PLAYERS 2 !! 0%nat) as [g|] eqn:Hg; [|discriminate].
  destruct (first_tick_needs_no_network PLAYERS 2 0 g ltac:(lia) Hg)
    as (r & Hr & Ht & _ & _ & Hto & _).
  exists g, r. split; [done|]. split; [exact Hr|]. split; [exact Ht|exact Hto].
Defined.

Lemma createSockets_spec (options : list Net.SocketOptions) : forall start net,
  (forall j, (start <= j)%nat -> Net._sockets net !! N.of_nat j = None) ->
  exists sockets net',
    createSockets start options net = (inr sockets, net') /\
    length sockets = length options /\
    (forall k o, options !! k = Some o ->
       sockets !! k = Some (Net.mkSocket (N.of_nat (start + k)) o) /\
       Net._sockets net' !! N.of_nat (start + k) = Some (Net.mkSocket (N.of_nat (start + k)) o) /\
       Net._inboxes net' !! N.of_nat (start + k) = Some (Net.mkInbox false [])) /\
    (forall j, (j < start)%nat ->
       Net._sockets net' !! N.of_nat j = Net._sockets net !! N.of_nat j /\
       Net._inboxes net' !! N.of_nat j = Net._inboxes net !! N.of_nat j).
Proof.
  induction options as [|o rest IH]; intros start net Hfree; cbn [createSockets].
  - exists [], net. repeat split; try done.
  - unfold Net.createSocket. rewrite (Hfree start) by lia.
    set (net1 := Net.mkNetwork _ _).
    destruct (IH (S start) net1) as (sockets & net' & -> & Hlen & Hnew & Hold).
    { intros j Hj. unfold net1. cbn [Net._sockets].
      rewrite lookup_insert_ne by (intros H; apply Nat2N.inj in H; lia).
      apply Hfree. lia. }
    eexists _, _. split; [reflexivity|]. split; [cbn; by rewrite Hlen|]. split.
    + intros [|k] o' Ho'.
      * cbn in Ho'. injection Ho' as <-. rewrite Nat.add_0_r.
        destruct (Hold start ltac:(lia)) as [-> ->]. unfold net1. cbn [Net._sockets Net._inboxes].
        by rewrite !lookup_insert_eq.
      * cbn in Ho'. replace (start + S k)%nat with (S start + k)%nat by lia.
        by apply Hnew.
    + intros j Hj. destruct (Hold j ltac:(lia)) as [-> ->].
      unfold net1. cbn [Net._sockets Net._inboxes].
      rewrite !lookup_insert_ne by (intros H; apply Nat2N.inj in H; lia). done.
Qed.

(** X25. [initializeSockets] never runs into the duplicate-socket error:
    when the settings have an entry for every player, it returns one
    socket per player, in the order of the players, each bound to the
    player's index and options and registered in the network with an
    inbox that has yielded nothing yet. *)
Theorem initializeSockets_never_throws
    (players : list string) (settings_players : list Net.SocketOptions) :
  (length players <= length settings_players)%nat ->
  exists sockets net,
    initializeSockets players settings_players = Some (inr sockets, net) /\
    length sockets = length players /\
    forall i o, (i < length players)%nat -> settings_players !! i = Some o ->
      sockets !! i = Some (Net.mkSocket (N.of_nat i) o) /\
      Net._sockets net !! N.of_nat i = Some (Net.mkSocket (N.of_nat i) o) /\
      Net._inboxes net !! N.of_nat i = Some (Net.mkInbox false []).
Proof.
  intros Hlen. unfold initializeSockets. rewrite decide_True by done.
  destruct (createSockets_spec (take (length players) settings_players) 0 Net.empty)
    as (sockets & net & -> & Hl & Hnew & _); [done|].
  exists sockets, net. split; [done|].
  split; [rewrite Hl, length_take; lia|].
  intros i o Hi Ho. apply (Hnew i o). by rewrite lookup_take_lt.
Qed.

Lemma initializeSockets_never_throws_witness :
  exists sockets net,
    initializeSockets PLAYERS (replicate 4 (Net.mkOptions (Some (60, 80)) (Some (0 # 1))))
    = Some (inr sockets, net) /\ length sockets = 4%nat.
Proof.
  destruct (initializeSockets_never_throws PLAYERS
              (replicate 4 (Net.mkOptions (Some (60, 80)) (Some (0 # 1)))))
    as (sockets & net & H1 & H2 & _).
  - cbn. lia.
  - exists sockets, net. split; [exact H1|exact H2].
Defined.

End BootFacts.

(* ===================================================================== *)
(** * Facts about real numbers: relative errors, lengths                  *)
(* ===================================================================== *)

Module RealFacts.
Import Reals Lra Metric.
Local Open Scope R_scope.

Lemma Rabs_le_both x a : Rabs x <= a -> - a <= x <= a.
Proof. unfold Rabs. destruct (Rcase_abs x); lra. Qed.

Lemma near_refl x : near 0 x x.
Proof. unfold near. replace (x - x) with 0 by ring. rewrite Rabs_R0. lra. Qed.

Lemma near_weaken a b x y : a <= b -> near a x y -> near b x y.
Proof.
  unfold near. intros Hab H. pose proof (Rabs_pos y).
  apply Rle_trans with (a * Rabs y); [exact H|]. apply Rmult_le_compat_r; lra.
Qed.

Lemma near_abs a x y : near a x y -> Rabs x <= (1 + a) * Rabs y.
Proof.
  unfold near. intros H.
  replace x with ((x - y) + y) at 1 by ring.
  eapply Rle_trans; [apply Rabs_triang|]. lra.
Qed.

Lemma near_trans a b x y z : 0 <= b -> near a x y -> near b z x -> near (a + b + a * b) z y.
Proof.
  intros Hb Hxy Hzx. pose proof (near_abs _ _ _ Hxy) as Hx. unfold near in *.
  replace (z - y) with ((z - x) + (x - y)) by ring.
  eapply Rle_trans; [apply Rabs_triang|].
  pose proof (Rabs_pos y). pose proof (Rabs_pos x).
  assert (b * Rabs x <= b * ((1 + a) * Rabs y)) by (apply Rmult_le_compat_l; lra).
  lra.
Qed.

Lemma near_mul a b x x0 y y0 :
  0 <= a -> 0 <= b -> near a x x0 -> near b y y0 -> near (a + b + a * b) (x * y) (x0 * y0).
Proof.
  intros Ha Hb Hx Hy. pose proof (near_abs _ _ _ Hx) as Hax. unfold near in *.
  replace (x * y - x0 * y0) with ((x - x0) * y0 + x * (y - y0)) by ring.
  eapply Rle_trans; [apply Rabs_triang|]. rewrite !Rabs_mult.
  pose proof (Rabs_pos x0). pose proof (Rabs_pos y0). pose proof (Rabs_pos x).
  pose proof (Rabs_pos (x - x0)). pose proof (Rabs_pos (y - y0)).
  assert (Rabs (x - x0) * Rabs y0 <= a * Rabs x0 * Rabs y0)
    by (apply Rmult_le_compat_r; lra).
  assert (Rabs x * Rabs (y - y0) <= ((1 + a) * Rabs x0) * (b * Rabs y0))
    by (apply Rmult_le_compat; lra).
  lra.
Qed.

Lemma near_add a x x0 y y0 :
  0 <= x0 -> 0 <= y0 -> near a x x0 -> near a y y0 -> near a (x + y) (x0 + y0).
Proof.
  unfold near. intros Hx0 Hy0 Hx Hy.
  replace (x + y - (x0 + y0)) with ((x - x0) + (y - y0)) by ring.
  eapply Rle_trans; [apply Rabs_triang|].
  rewrite (Rabs_pos_eq (x0 + y0)) by lra.
  rewrite (Rabs_pos_eq x0) in Hx by lra. rewrite (Rabs_pos_eq y0) in Hy by lra. lra.
Qed.

Lemma near_bounds a x y : 0 <= y -> near a x y -> (1 - a) * y <= x <= (1 + a) * y.
Proof.
  unfold near. intros Hy H. rewrite (Rabs_pos_eq y) in H by lra.
  apply Rabs_le_both in H. lra.
Qed.

Lemma bounds_near a x y : 0 <= y -> (1 - a) * y <= x <= (1 + a) * y -> near a x y.
Proof.
  unfold near. intros Hy H. rewrite (Rabs_pos_eq y) by lra. apply Rabs_le. lra.
Qed.

Lemma near_sqrt a x x0 :
  0 <= a <= 1 -> 0 <= x -> 0 <= x0 -> near a x x0 -> near a (sqrt x) (sqrt x0).
Proof.
  intros Ha Hx Hx0 H. apply near_bounds in H; [|done].
  pose proof (sqrt_pos x) as Hs. pose proof (sqrt_pos x0) as Hs0.
  pose proof (sqrt_sqrt x Hx) as Hsq. pose proof (sqrt_sqrt x0 Hx0) as Hsq0.
  apply bounds_near; [done|].
  set (s := sqrt x) in *. set (s0 := sqrt x0) in *.
  rewrite <- Hsq, <- Hsq0 in H. destruct Ha as [Ha0 Ha1].
  assert (0 <= s0 * s0) by nra.
  split.
  - destruct (Rle_lt_dec ((1 - a) * s0) s) as [|Hlt]; [done|]. exfalso.
    assert (s * s < ((1 - a) * s0) * ((1 - a) * s0))
      by (apply Rmult_le_0_lt_compat; lra).
    assert ((1 - a) * (1 - a) <= 1 - a) by nra.
    assert ((1 - a) * (1 - a) * (s0 * s0) <= (1 - a) * (s0 * s0))
      by (apply Rmult_le_compat_r; nra).
    lra.
  - destruct (Rle_lt_dec s ((1 + a) * s0)) as [|Hlt]; [done|]. exfalso.
    assert (((1 + a) * s0) * ((1 + a) * s0) < s * s)
      by (apply Rmult_le_0_lt_compat; nra).
    assert ((1 + a) * (s0 * s0) <= (1 + a) * (1 + a) * (s0 * s0))
      by (apply Rmult_le_compat_r; nra).
    lra.
Qed.

Lemma near_div a b x x0 y y0 :
  0 <= a -> 0 <= b < 1 -> y0 <> 0 -> near a x x0 -> near b y y0 ->
  y <> 0 /\ near ((a + b) / (1 - b)) (x / y) (x0 / y0).
Proof.
  intros Ha Hb Hy0 Hx Hy. unfold near in *.
  pose proof (Rabs_pos_lt y0 Hy0) as Hay0.
  assert (Hay : (1 - b) * Rabs y0 <= Rabs y).
  { assert (Rabs y0 <= Rabs y + Rabs (y - y0)); [|lra].
    replace y0 with (y + - (y - y0)) at 1 by ring.
    eapply Rle_trans; [apply Rabs_triang|]. rewrite Rabs_Ropp. lra. }
  assert (Hypos : 0 < Rabs y) by nra.
  assert (Hyne : y <> 0).
  { intros ->. rewrite Rabs_R0 in Hypos. lra. }
  split; [done|].
  replace (x / y - x0 / y0) with (((x - x0) * y0 - x0 * (y - y0)) / (y * y0))
    by (field; done).
  unfold Rdiv at 1. rewrite Rabs_mult, Rabs_inv, Rabs_mult.
  assert (Hnum : Rabs ((x - x0) * y0 - x0 * (y - y0)) <= (a + b) * Rabs x0 * Rabs y0).
  { unfold Rminus at 1. eapply Rle_trans; [apply Rabs_triang|].
    rewrite Rabs_Ropp, !Rabs_mult.
    pose proof (Rabs_pos x0).
    assert (Rabs (x - x0) * Rabs y0 <= a * Rabs x0 * Rabs y0)
      by (apply Rmult_le_compat_r; lra).
    assert (Rabs x0 * Rabs (y - y0) <= Rabs x0 * (b * Rabs y0))
      by (apply Rmult_le_compat_l; lra).
    lra. }
  unfold Rdiv. rewrite (Rabs_mult x0), (Rabs_inv y0).
  pose proof (Rabs_pos x0) as Hax0.
  apply Rmult_le_reg_r with (Rabs y * Rabs y0); [nra|].
  replace (Rabs ((x - x0) * y0 - x0 * (y - y0)) * / (Rabs y * Rabs y0) * (Rabs y * Rabs y0))
    with (Rabs ((x - x0) * y0 - x0 * (y - y0))) by (field; lra).
  replace ((a + b) * / (1 - b) * (Rabs x0 * / Rabs y0) * (Rabs y * Rabs y0))
    with ((a + b) * Rabs x0 * (Rabs y * / (1 - b))) by (field; lra).
  eapply Rle_trans; [exact Hnum|].
  assert (Hq : Rabs y0 <= Rabs y * / (1 - b)).
  { apply Rmult_le_reg_r with (1 - b); [lra|].
    replace (Rabs y * / (1 - b) * (1 - b)) with (Rabs y) by (field; lra). lra. }
  apply Rmult_le_compat_l; [|exact Hq]. apply Rmult_le_pos; lra.
Qed.

(** ** The length of a vector *)

Lemma sq_le_bounds s x : 0 <= s -> x * x <= s * s -> - s <= x <= s.
Proof.
  intros Hs Hx. split.
  - destruct (Rle_lt_dec (- s) x) as [|Hlt]; [done|]. exfalso.
    assert (s * s < (- x) * (- x)) by (apply Rmult_le_0_lt_compat; lra). lra.
  - destruct (Rle_lt_dec x s) as [|Hlt]; [done|]. exfalso.
    assert (s * s < x * x) by (apply Rmult_le_0_lt_compat; lra). lra.
Qed.

Lemma sq_le_le a b : 0 <= a -> 0 <= b -> a * a <= b * b -> a <= b.
Proof. intros Ha Hb H. by apply sq_le_bounds. Qed.

Lemma norm2_pos a b : 0 <= norm2 a b.
Proof. apply sqrt_pos. Qed.

Lemma norm2_sqr a b : norm2 a b * norm2 a b = a * a + b * b.
Proof. unfold norm2. apply sqrt_sqrt. nra. Qed.

Lemma norm2_comm a b : norm2 a b = norm2 b a.
Proof. unfold norm2. f_equal. ring. Qed.

Lemma sqrt_lipschitz x y c :
  0 <= c -> Rabs (sqrt (x * x + c) - sqrt (y * y + c)) <= Rabs (x - y).
Proof.
  intros Hc.
  assert (Hx : 0 <= x * x + c) by nra. assert (Hy : 0 <= y * y + c) by nra.
  pose proof (sqrt_pos (x * x + c)) as H1. pose proof (sqrt_pos (y * y + c)) as H2.
  pose proof (sqrt_sqrt _ Hx) as Hs1. pose proof (sqrt_sqrt _ Hy) as Hs2.
  set (s1 := sqrt (x * x + c)) in *. set (s2 := sqrt (y * y + c)) in *.
  pose proof (Rabs_pos (x - y)) as Hd.
  assert (Hd' : - Rabs (x - y) <= x - y <= Rabs (x - y)) by (apply Rabs_le_both; lra).
  set (d := Rabs (x - y)) in *.
  assert (Hx1 : - s1 <= x <= s1) by (apply sq_le_bounds; lra).
  assert (Hy1 : - s2 <= y <= s2) by (apply sq_le_bounds; lra).
  assert (Hp1 : 0 <= (d - (x - y)) * ((s1 + s2) + (x + y))) by (apply Rmult_le_pos; lra).
  assert (Hp2 : 0 <= (d + (x - y)) * ((s1 + s2) - (x + y))) by (apply Rmult_le_pos; lra).
  assert (Hp3 : 0 <= (d - (x - y)) * ((s1 + s2) - (x + y))) by (apply Rmult_le_pos; lra).
  assert (Hp4 : 0 <= (d + (x - y)) * ((s1 + s2) + (x + y))) by (apply Rmult_le_pos; lra).
  apply Rabs_le. split.
  - destruct (Rle_lt_dec (- d) (s1 - s2)) as [|Hlt]; [done|]. exfalso.
    assert (0 < s1 + s2) by lra.
    assert ((s1 - s2) * (s1 + s2) < (- d) * (s1 + s2)) by (apply Rmult_lt_compat_r; lra).
    nra.
  - destruct (Rle_lt_dec (s1 - s2) d) as [|Hlt]; [done|]. exfalso.
    assert (0 < s1 + s2) by lra.
    assert (d * (s1 + s2) < (s1 - s2) * (s1 + s2)) by (apply Rmult_lt_compat_r; lra).
    nra.
Qed.

Lemma norm2_perturb a b w1 w2 :
  Rabs (norm2 (a + w1) (b + w2) - norm2 a b) <= Rabs w1 + Rabs w2.
Proof.
  replace (norm2 (a + w1) (b + w2) - norm2 a b)
    with ((norm2 (a + w1) (b + w2) - norm2 a (b + w2)) + (norm2 a (b + w2) - norm2 a b))
    by ring.
  eapply Rle_trans; [apply Rabs_triang|]. apply Rplus_le_compat.
  - pose proof (sqrt_lipschitz (a + w1) a ((b + w2) * (b + w2))
                  (Rle_0_sqr (b + w2))) as H.
    replace (a + w1 - a) with w1 in H by ring. exact H.
  - rewrite (norm2_comm a (b + w2)), (norm2_comm a b).
    pose proof (sqrt_lipschitz (b + w2) b (a * a) (Rle_0_sqr a)) as H.
    replace (b + w2 - b) with w2 in H by ring. exact H.
Qed.

Lemma norm2_scale k a b : norm2 (k * a) (k * b) = Rabs k * norm2 a b.
Proof.
  unfold norm2. apply sqrt_lem_1.
  - nra.
  - apply Rmult_le_pos; [apply Rabs_pos|apply sqrt_pos].
  - replace (Rabs k * sqrt (a * a + b * b) * (Rabs k * sqrt (a * a + b * b)))
      with ((Rabs k * Rabs k) * (sqrt (a * a + b * b) * sqrt (a * a + b * b))) by ring.
    rewrite sqrt_sqrt by nra. rewrite <- Rabs_mult, Rabs_pos_eq by nra. ring.
Qed.

Lemma norm2_ge_l a b : Rabs a <= norm2 a b.
Proof.
  pose proof (norm2_pos a b). pose proof (norm2_sqr a b).
  apply Rabs_le. apply sq_le_bounds; [done|]. nra.
Qed.

Lemma norm2_ge_r a b : Rabs b <= norm2 a b.
Proof. rewrite norm2_comm. apply norm2_ge_l. Qed.

Lemma norm2_le a b c : Rabs a <= c -> Rabs b <= c -> norm2 a b <= 3 / 2 * c.
Proof.
  intros Ha Hb. pose proof (norm2_pos a b). pose proof (norm2_sqr a b).
  pose proof (Rabs_pos a). apply Rabs_le_both in Ha, Hb.
  assert (a * a <= c * c) by nra. assert (b * b <= c * c) by nra.
  apply sq_le_le; [done|lra|]. nra.
Qed.

End RealFacts.

(* ===================================================================== *)
(** * The rounding error of the decimal operations                        *)
(* ===================================================================== *)

Module DecBounds.
Import Reals Lra.
Import Dec DecFacts Metric RealFacts.
Local Open Scope R_scope.

Lemma p10_pos e : 0 < powerRZ 10 e.
Proof. apply powerRZ_lt. lra. Qed.

Lemma p10_add a b : powerRZ 10 (a + b) = powerRZ 10 a * powerRZ 10 b.
Proof. apply powerRZ_add. lra. Qed.

Lemma p10_nonneg (j : Z) : (0 <= j)%Z -> powerRZ 10 j = IZR (10 ^ j).
Proof.
  intros Hj. set (n := Z.to_nat j). replace j with (Z.of_nat n) by lia.
  rewrite <- pow_powerRZ. by rewrite pow_IZR.
Qed.

(** The value of [m * 10^e]. *)
Lemma scale_value m e j :
  (0 <= j)%Z -> IZR (m * 10 ^ j) * powerRZ 10 e = IZR m * powerRZ 10 (e + j).
Proof.
  intros Hj. rewrite mult_IZR, p10_add, <- (p10_nonneg j Hj). ring.
Qed.

Lemma to_R_normalize m e : to_R (normalize m e) = IZR m * powerRZ 10 e.
Proof.
  destruct (decide (m = 0%Z)) as [->|Hm].
  - rewrite normalize_0. unfold to_R. cbn. lra.
  - destruct (normalize_spec m e Hm) as (_ & He & Hv).
    unfold to_R. set (d := normalize m e) in *. rewrite Hv, scale_value by lia.
    do 2 f_equal. lia.
Qed.

Lemma to_R_of_Z n : to_R (of_Z n) = IZR n.
Proof. unfold of_Z. rewrite to_R_normalize. cbn. lra. Qed.

(** ** Rounding *)

(** What [round_sig] does to a coefficient of more than 20 digits, in
    integers: the result differs from it by at most half a unit of the
    twentieth digit. *)
Lemma round_sig_long m e :
  (precision < ndigits m)%Z ->
  exists c sh, (0 <= sh)%Z /\ round_sig m e = normalize c (e + sh)%Z /\
    (2 * 10 ^ 19 * Z.abs (c * 10 ^ sh - m) <= Z.abs m)%Z.
Proof.
  intros Hn. unfold round_sig.
  destruct (Z.leb_spec (ndigits m) precision) as [|_]; [lia|].
  assert (Hm : m <> 0%Z) by (intros ->; rewrite ndigits_0 in Hn; unfold precision in Hn; lia).
  destruct (ndigits_spec m Hm) as (_ & Hlb & Hub).
  set (sh := (ndigits m - precision)%Z) in *. unfold precision in *.
  assert (Hsh : (1 <= sh)%Z) by (unfold sh; lia).
  pose proof (pow10_pos sh ltac:(lia)) as HP.
  replace (ndigits m - 1)%Z with (sh + 19)%Z in Hlb by (unfold sh; lia).
  rewrite Z.pow_add_r in Hlb by lia.
  pose proof (Z.div_mod (Z.abs m) (10 ^ sh) ltac:(lia)) as Hdm.
  pose proof (Z.mod_pos_bound (Z.abs m) (10 ^ sh) HP) as Hlow.
  set (q := (Z.abs m / 10 ^ sh)%Z) in *. set (low := (Z.abs m mod 10 ^ sh)%Z) in *.
  set (P := (10 ^ sh)%Z) in *.
  exists (Z.sgn m * (if (P <=? 2 * low)%Z then q + 1 else q))%Z, sh.
  split; [lia|]. split; [done|].
  destruct (Z.leb_spec P (2 * low)); destruct (Z.sgn_spec m) as [[? ->]|[[? ->]|[? ->]]]; nia.
Qed.

Lemma round_sig_near m e :
  near (roundoff / 2) (to_R (round_sig m e)) (IZR m * powerRZ 10 e).
Proof.
  destruct (Z.le_gt_cases (ndigits m) precision) as [Hle|Hgt].
  - unfold round_sig. destruct (Z.leb_spec (ndigits m) precision) as [_|]; [|lia].
    rewrite to_R_normalize. eapply near_weaken; [|apply near_refl]. unfold roundoff. lra.
  - destruct (round_sig_long m e ltac:(lia)) as (c & sh & Hsh & -> & Hb).
    rewrite to_R_normalize, <- scale_value by done.
    unfold near. rewrite <- Rmult_minus_distr_r, <- minus_IZR, !Rabs_mult.
    pose proof (p10_pos e) as Hp. rewrite (Rabs_pos_eq (powerRZ 10 e)) by lra.
    rewrite <- !abs_IZR. apply IZR_le in Hb. rewrite !mult_IZR in Hb.
    change (IZR (10 ^ 19)) with 10000000000000000000 in Hb.
    pose proof (IZR_le _ _ (Z.abs_nonneg (c * 10 ^ sh - m))) as H1.
    set (d := IZR (Z.abs (c * 10 ^ sh - m))) in *. set (a := IZR (Z.abs m)) in *.
    unfold roundoff. rewrite <- Rmult_assoc. apply Rmult_le_compat_r; [lra|]. lra.
Qed.

Lemma round_sig_near_1 m e :
  near roundoff (to_R (round_sig m e)) (IZR m * powerRZ 10 e).
Proof. eapply near_weaken; [|apply round_sig_near]. unfold roundoff. lra. Qed.

(** ** The operations *)

Lemma align_value x y :
  IZR (align x y).1.1 * powerRZ 10 (align x y).2 = to_R x /\
  IZR (align x y).1.2 * powerRZ 10 (align x y).2 = to_R y.
Proof.
  unfold align, to_R. cbn [fst snd].
  split; rewrite scale_value by lia; do 2 f_equal; lia.
Qed.

Lemma plus_near x y : near roundoff (to_R (plus x y)) (to_R x + to_R y).
Proof.
  destruct (align_value x y) as [<- <-]. unfold plus.
  destruct (align x y) as [[a b] e]. cbn [fst snd].
  rewrite <- Rmult_plus_distr_r, <- plus_IZR. apply round_sig_near_1.
Qed.

Lemma minus_near x y : near roundoff (to_R (minus x y)) (to_R x - to_R y).
Proof.
  destruct (align_value x y) as [<- <-]. unfold minus.
  destruct (align x y) as [[a b] e]. cbn [fst snd].
  rewrite <- Rmult_minus_distr_r, <- minus_IZR. apply round_sig_near_1.
Qed.

Lemma mul_near x y : near roundoff (to_R (mul x y)) (to_R x * to_R y).
Proof.
  unfold mul, to_R.
  replace (IZR (coeff x) * powerRZ 10 (expo x) * (IZR (coeff y) * powerRZ 10 (expo y)))
    with (IZR (coeff x * coeff y) * powerRZ 10 (expo x + expo y))
    by (rewrite mult_IZR, p10_add; ring).
  apply round_sig_near_1.
Qed.

Lemma lessThanOrEqualTo_value x y :
  lessThanOrEqualTo x y = true <-> to_R x <= to_R y.
Proof.
  destruct (align_value x y) as [<- <-]. unfold lessThanOrEqualTo.
  destruct (align x y) as [[a b] e]. cbn [fst snd].
  pose proof (p10_pos e) as Hp. rewrite Z.leb_le. split.
  - intros H. apply Rmult_le_compat_r; [lra|]. by apply IZR_le.
  - intros H. apply le_IZR. by apply Rmult_le_reg_r in H.
Qed.

Lemma to_R_sign x : (0 <= coeff x)%Z -> 0 <= to_R x.
Proof.
  intros H. unfold to_R. apply Rmult_le_pos; [by apply IZR_le|].
  pose proof (p10_pos (expo x)). lra.
Qed.

Lemma to_R_zero x : to_R x = 0 <-> coeff x = 0%Z.
Proof.
  unfold to_R. pose proof (p10_pos (expo x)) as Hp. split.
  - intros H. apply Rmult_integral in H as [H|H]; [by apply eq_IZR|lra].
  - intros ->. lra.
Qed.

Lemma near_scale a x y k : 0 <= a -> near a x y -> near a (k * x) (k * y).
Proof.
  intros Ha H. eapply near_weaken; [|apply (near_mul 0 a k k x y); [lra|done|apply near_refl|done]].
  lra.
Qed.

Lemma IZR_sgn_abs c : IZR c = IZR (Z.sgn c) * IZR (Z.abs c).
Proof. rewrite <- mult_IZR. f_equal. lia. Qed.

Lemma div_near x y :
  coeff y <> 0%Z ->
  exists q, div x y = Some q /\ near roundoff (to_R q) (to_R x / to_R y).
Proof.
  intros Hy. unfold div. destruct (Z.eqb_spec (coeff y) 0) as [|_]; [done|].
  eexists. split; [reflexivity|].
  set (k := (precision + ndigits (coeff y))%Z).
  set (N := (Z.abs (coeff x) * 10 ^ k)%Z).
  set (q := (N / Z.abs (coeff y))%Z).
  destruct (ndigits_spec (coeff y) Hy) as (Hnd & _ & Hub).
  assert (Hk : (0 <= k)%Z) by (unfold k, precision; lia).
  pose proof (pow10_pos k Hk) as HT.
  assert (HC : (0 < Z.abs (coeff y))%Z) by lia.
  pose proof (Z.div_mod N (Z.abs (coeff y)) ltac:(lia)) as Hdm.
  pose proof (Z.mod_pos_bound N (Z.abs (coeff y)) HC) as Hr.
  fold q in Hdm. set (r := (N mod Z.abs (coeff y))%Z) in *.
  assert (Hbig : (coeff x <> 0 -> 10 ^ 20 * Z.abs (coeff y) <= N)%Z).
  { intros Hx. unfold N, k, precision. rewrite Z.pow_add_r by lia.
    pose proof (pow10_pos 20 ltac:(lia)). nia. }
  assert (Hzero : (coeff x = 0 -> r = 0)%Z).
  { intros Hx. unfold r, N. rewrite Hx. cbn. by rewrite Z.mod_0_l by lia. }
  set (E := powerRZ 10 (expo x - expo y)).
  assert (HE1 : powerRZ 10 (expo x) = E * powerRZ 10 (expo y)).
  { unfold E. rewrite <- p10_add. f_equal. lia. }
  assert (HE2 : E = powerRZ 10 (expo x - expo y - k) * IZR (10 ^ k)).
  { unfold E. rewrite <- p10_nonneg, <- p10_add by done. f_equal. lia. }
  pose proof (p10_pos (expo y)) as Hpy. pose proof (p10_pos (expo x - expo y - k)) as Hpk.
  set (A := IZR (Z.abs (coeff x))). set (C := IZR (Z.abs (coeff y))).
  set (T := IZR (10 ^ k)) in *.
  assert (HCpos : 0 < C) by (apply IZR_lt in HC; exact HC).
  assert (HTpos : 0 < T) by (apply IZR_lt in HT; exact HT).
  assert (HApos : 0 <= A) by (apply IZR_le, Z.abs_nonneg).
  assert (HN : A * T = C * IZR q + IZR r).
  { unfold A, T, C. rewrite <- !mult_IZR, <- plus_IZR. f_equal. exact Hdm. }
  assert (Hr0 : 0 <= IZR r) by (apply IZR_le; lia).
  assert (HrC : IZR r <= / 100000000000000000000 * (A * T)).
  { destruct (decide (coeff x = 0%Z)) as [Hx|Hx].
    - rewrite (Hzero Hx). nra.
    - specialize (Hbig Hx). apply IZR_le in Hbig. rewrite !mult_IZR in Hbig.
      change (IZR (10 ^ 20)) with 100000000000000000000 in Hbig.
      fold C in Hbig. unfold N in Hbig. rewrite mult_IZR in Hbig. fold A T in Hbig.
      assert (IZR r <= C) by (apply IZR_le; lia). lra. }
  assert (Hval : to_R x / to_R y
                 = powerRZ 10 (expo x - expo y - k) * T
                   * (IZR (Z.sgn (coeff x) * Z.sgn (coeff y)) * (A / C))).
  { unfold to_R. rewrite HE1, HE2, (IZR_sgn_abs (coeff x)), (IZR_sgn_abs (coeff y)), mult_IZR.
    fold A C T.
    set (P1 := powerRZ 10 (expo x - expo y - k)) in *.
    set (P2 := powerRZ 10 (expo y)) in *.
    set (sx := IZR (Z.sgn (coeff x))).
    clearbody P1 P2 sx T A C.
    destruct (Z.sgn_spec (coeff y)) as [[? ->]|[[? ?]|[? ->]]]; [|lia|];
      rewrite ?opp_IZR; field; lra. }
  assert (Hcomp : IZR (Z.sgn (coeff x) * Z.sgn (coeff y) * q)
                  * powerRZ 10 (expo x - expo y - k)
                  = powerRZ 10 (expo x - expo y - k) * T
                    * (IZR (Z.sgn (coeff x) * Z.sgn (coeff y)) * (IZR q / T))).
  { rewrite (mult_IZR _ q).
    set (P1 := powerRZ 10 (expo x - expo y - k)) in *.
    set (s := IZR (Z.sgn (coeff x) * Z.sgn (coeff y))).
    set (Qr := IZR q).
    clearbody P1 s Qr T. field. lra. }
  assert (Hpre : near (/ 100000000000000000000)
                   (IZR (Z.sgn (coeff x) * Z.sgn (coeff y) * q)
                    * powerRZ 10 (expo x - expo y - k))
                   (to_R x / to_R y)); cycle 1.
  { eapply near_weaken;
      [|apply (near_trans _ (roundoff / 2) _ _ _ ltac:(unfold roundoff; lra) Hpre),
         round_sig_near].
    unfold roundoff. lra. }
  rewrite Hval, Hcomp. apply near_scale; [lra|]. apply near_scale; [lra|].
  apply bounds_near.
  - apply Rmult_le_pos; [done|]. apply Rlt_le, Rinv_0_lt_compat. done.
  - assert (H1 : IZR q / T = A / C - IZR r / (T * C)).
    { apply Rmult_eq_reg_r with (T * C); [|nra]. field_simplify; [|lra|lra]. nra. }
    assert (H2 : 0 <= IZR r / (T * C) <= / 100000000000000000000 * (A / C)).
    { split.
      - apply Rmult_le_pos; [done|]. apply Rlt_le, Rinv_0_lt_compat. nra.
      - apply Rmult_le_reg_r with (T * C); [nra|].
        replace (IZR r / (T * C) * (T * C)) with (IZR r) by (field; lra).
        replace (/ 100000000000000000000 * (A / C) * (T * C))
          with (/ 100000000000000000000 * (A * T)) by (field; lra).
        done. }
    rewrite H1. lra.
Qed.

Lemma sqrt_near x :
  (0 <= coeff x)%Z ->
  exists s, Dec.sqrt x = Some s /\ near roundoff (to_R s) (R_sqrt.sqrt (to_R x)).
Proof.
  intros Hx. unfold Dec.sqrt. destruct (Z.ltb_spec (coeff x) 0) as [|_]; [lia|].
  set (me := if Z.even (expo x) then (coeff x, expo x) else ((coeff x * 10)%Z, (expo x - 1)%Z)).
  assert (Hme : (0 <= me.1)%Z /\ IZR me.1 * powerRZ 10 me.2 = to_R x /\
                me.2 = (2 * (me.2 / 2))%Z).
  { unfold me. destruct (Z.even (expo x)) eqn:Hev; cbn [fst snd].
    - split; [done|]. split; [done|].
      apply Z.even_spec in Hev as [h Hh]. rewrite Hh at 2.
      rewrite (Z.mul_comm 2 h), Z.div_mul by lia. lia.
    - split; [lia|]. split.
      + unfold to_R. change 10%Z with (10 ^ 1)%Z at 1. rewrite scale_value by lia.
        do 2 f_equal. lia.
      + assert (Hodd : Z.odd (expo x) = true) by (rewrite <- Z.negb_even, Hev; done).
        apply Z.odd_spec in Hodd as [h Hh].
        replace (expo x - 1)%Z with (h * 2)%Z by lia. rewrite Z.div_mul by lia. lia. }
  destruct me as [m e]. cbn [fst snd] in Hme. destruct Hme as (Hm & Hval & He).
  eexists. split; [reflexivity|].
  set (h := (e / 2)%Z) in *. unfold precision.
  change (2 * 20)%Z with 40%Z.
  set (M := (m * 10 ^ 40)%Z). set (s := Z.sqrt M).
  assert (HM : (0 <= M)%Z) by (unfold M; lia).
  destruct (Z.sqrt_spec M HM) as [Hs1 Hs2]. fold s in Hs1, Hs2.
  pose proof (Z.sqrt_nonneg M) as Hs0. fold s in Hs0.
  set (P := powerRZ 10 (h - 20)). pose proof (p10_pos (h - 20)) as HP. fold P in HP.
  assert (Hroot : R_sqrt.sqrt (to_R x) = P * R_sqrt.sqrt (IZR M)).
  { rewrite <- Hval. apply sqrt_lem_1.
    - apply Rmult_le_pos; [by apply IZR_le|]. pose proof (p10_pos e). lra.
    - apply Rmult_le_pos; [lra|apply sqrt_pos].
    - replace (P * R_sqrt.sqrt (IZR M) * (P * R_sqrt.sqrt (IZR M)))
        with ((P * P) * (R_sqrt.sqrt (IZR M) * R_sqrt.sqrt (IZR M))) by ring.
      rewrite sqrt_sqrt by (by apply IZR_le). unfold P, M.
      rewrite <- p10_add, mult_IZR. change (IZR (10 ^ 40)) with (IZR (10 ^ 40)).
      rewrite <- (p10_nonneg 40) by lia.
      rewrite (Rmult_comm (IZR m)), <- Rmult_assoc, <- p10_add.
      rewrite Rmult_comm. do 2 f_equal. lia. }
  assert (Hpre : near (/ 100000000000000000000) (IZR s * P) (R_sqrt.sqrt (to_R x))).
  { rewrite Hroot, (Rmult_comm (IZR s)). apply near_scale; [lra|].
    pose proof (sqrt_pos (IZR M)) as Hr0.
    pose proof (sqrt_sqrt (IZR M) ltac:(by apply IZR_le)) as Hrr.
    set (rt := R_sqrt.sqrt (IZR M)) in *.
    apply IZR_le in Hs1, Hs0. apply IZR_lt in Hs2.
    rewrite mult_IZR in Hs1. unfold Z.succ in Hs2. rewrite mult_IZR, plus_IZR in Hs2.
    set (sr := IZR s) in *.
    assert (Hlo : sr <= rt) by (apply sq_le_le; lra).
    assert (Hhi : rt < sr + 1).
    { destruct (Rlt_le_dec rt (sr + 1)) as [|Hge]; [done|]. exfalso.
      assert ((sr + 1) * (sr + 1) <= rt * rt) by (apply Rmult_le_compat; lra). lra. }
    apply bounds_near; [done|].
    destruct (decide (m = 0%Z)) as [Hm0|Hm0].
    - assert (IZR M = 0) by (unfold M; rewrite Hm0; done).
      assert (rt = 0) by nra. lra.
    - assert (HM40 : (10 ^ 40 <= M)%Z) by (unfold M; nia).
      apply IZR_le in HM40. change (IZR (10 ^ 40)) with 10000000000000000000000000000000000000000 in HM40.
      assert (100000000000000000000 <= rt).
      { apply sq_le_le; [lra|done|]. lra. }
      lra. }
  eapply near_weaken;
    [|apply (near_trans _ (roundoff / 2) _ _ _ ltac:(unfold roundoff; lra) Hpre),
       round_sig_near].
  unfold roundoff. lra.
Qed.

End DecBounds.

(* ===================================================================== *)
(** * The way of a unit to its target                                     *)
(* ===================================================================== *)

Module Course.
Import Reals Lra.
Import Dec Cmd Sim DecFacts SimFacts Metric RealFacts DecBounds.
Local Open Scope R_scope.

Lemma Rdiv_le_const a b d : 0 < d -> a <= b * d -> a / d <= b.
Proof.
  intros Hd H. apply Rmult_le_reg_r with d; [done|].
  replace (a / d * d) with a by (field; lra). done.
Qed.

(** The distance that [move] computes, against the true one. *)
Lemma computed_distance (t p : Point2D) :
  let dx := minus (px t) (px p) in
  let dy := minus (py t) (py p) in
  exists d, Dec.sqrt (plus (mul dx dx) (mul dy dy)) = Some d /\
            near (6 * roundoff) (to_R d) (distance t p).
Proof.
  intros dx dy.
  destruct (sqrt_near (plus (mul dx dx) (mul dy dy))) as (d & Hd & Hn).
  { apply plus_sign; apply mul_self_sign. }
  exists d. split; [done|].
  set (ex := to_R (px t) - to_R (px p)). set (ey := to_R (py t) - to_R (py p)).
  assert (Hu : 0 <= roundoff) by (unfold roundoff; lra).
  assert (Hdx : near roundoff (to_R dx) ex) by apply minus_near.
  assert (Hdy : near roundoff (to_R dy) ey) by apply minus_near.
  pose proof (near_trans _ _ _ _ _ Hu (near_mul _ _ _ _ _ _ Hu Hu Hdx Hdx) (mul_near dx dx))
    as Hmx.
  pose proof (near_trans _ _ _ _ _ Hu (near_mul _ _ _ _ _ _ Hu Hu Hdy Hdy) (mul_near dy dy))
    as Hmy.
  pose proof (near_add _ _ _ _ _ (Rle_0_sqr ex) (Rle_0_sqr ey) Hmx Hmy) as Hsum.
  pose proof (near_trans _ _ _ _ _ Hu Hsum (plus_near (mul dx dx) (mul dy dy))) as Hsm.
  apply near_sqrt in Hsm; cycle 1.
  { unfold roundoff. lra. }
  { apply to_R_sign, plus_sign; apply mul_self_sign. }
  { unfold Rsqr. pose proof (Rle_0_sqr ex). pose proof (Rle_0_sqr ey). unfold Rsqr in *. lra. }
  pose proof (near_trans _ _ _ _ _ Hu Hsm Hn) as Hfin.
  eapply near_weaken; [|exact Hfin]. unfold roundoff. lra.
Qed.

(** One component of the step that [move] computes, against the true
    one. *)
Lemma computed_step (speed tc pc d : Decimal) (r : R) :
  0 < r -> near (6 * roundoff) (to_R d) r ->
  let e := to_R tc - to_R pc in
  exists q, div (mul speed (minus tc pc)) d = Some q /\
            near (10 * roundoff) (to_R q) (to_R speed * e / r).
Proof.
  intros Hr Hd e.
  assert (Hu : 0 <= roundoff) by (unfold roundoff; lra).
  assert (Hc : coeff d <> 0%Z).
  { intros H0. apply to_R_zero in H0. rewrite H0 in Hd. apply near_bounds in Hd; [|lra].
    unfold roundoff in Hd. lra. }
  destruct (div_near (mul speed (minus tc pc)) d Hc) as (q & Hq & Hn).
  exists q. split; [done|].
  pose proof (near_scale _ _ _ (to_R speed) Hu (minus_near tc pc)) as H1.
  pose proof (near_trans _ _ _ _ _ Hu H1 (mul_near speed (minus tc pc))) as H2.
  assert (Ha : 0 <= roundoff + roundoff + roundoff * roundoff) by nra.
  assert (Hb : 0 <= 6 * roundoff < 1) by (unfold roundoff; lra).
  assert (Hne : r <> 0) by lra.
  destruct (near_div _ _ _ _ _ _ Ha Hb Hne H2 Hd) as [_ H3].
  pose proof (near_trans _ _ _ _ _ Hu H3 Hn) as H4.
  eapply near_weaken; [|exact H4].
  assert (Hq8 : (roundoff + roundoff + roundoff * roundoff + 6 * roundoff)
                / (1 - 6 * roundoff) <= 17 / 2 * roundoff).
  { apply Rdiv_le_const; unfold roundoff; lra. }
  set (c := (roundoff + roundoff + roundoff * roundoff + 6 * roundoff) / (1 - 6 * roundoff)) in *.
  assert (c * roundoff <= 17 / 2 * roundoff * roundoff).
  { apply Rmult_le_compat_r; lra. }
  unfold roundoff in *. lra.
Qed.

(** The error of one step, in real numbers: [q] is the computed step,
    [(X', Y')] the computed new position. *)
Lemma step_error (X Y tx ty S qx qy X' Y' : R) :
  let ex := tx - X in
  let ey := ty - Y in
  let r := norm2 ex ey in
  0 < r <= 30000 -> 1 <= S <= 10000 -> Rabs tx <= 10000 -> Rabs ty <= 10000 ->
  S - r <= 6 * roundoff * r ->
  near (10 * roundoff) qx (S * ex / r) -> near (10 * roundoff) qy (S * ey / r) ->
  near roundoff X' (X + qx) -> near roundoff Y' (Y + qy) ->
  Rabs (norm2 (tx - X') (ty - Y') - (r - S)) <= slack.
Proof.
  intros ex ey r Hr HS Htx Hty Hgo Hqx Hqy HX HY.
  assert (Hcomp : forall e t P q P',
            Rabs e <= r -> e = t - P -> Rabs t <= 10000 ->
            near (10 * roundoff) q (S * e / r) -> near roundoff P' (P + q) ->
            Rabs ((t - P') - (1 - S / r) * e) <= 170000 * roundoff).
  { intros e t P q P' He Het Ht Hq HP'.
    assert (Hse : Rabs (S * e / r) <= S).
    { unfold Rdiv. rewrite !Rabs_mult, Rabs_inv, (Rabs_pos_eq S), (Rabs_pos_eq r) by lra.
      apply Rmult_le_reg_r with r; [lra|].
      replace (S * Rabs e * / r * r) with (S * Rabs e) by (field; lra).
      apply Rmult_le_compat_l; lra. }
    pose proof (near_abs _ _ _ Hq) as Hqa. unfold near in Hq, HP'.
    assert (HPa : Rabs P <= 40000).
    { replace P with (t + - e) by lra. eapply Rle_trans; [apply Rabs_triang|].
      rewrite Rabs_Ropp. lra. }
    assert (Hq2 : Rabs q <= 20000 + 1).
    { assert ((1 + 10 * roundoff) * Rabs (S * e / r) <= (1 + 10 * roundoff) * S)
        by (apply Rmult_le_compat_l; unfold roundoff; lra).
      unfold roundoff in *. lra. }
    assert (HPq : Rabs (P + q) <= 60001).
    { eapply Rle_trans; [apply Rabs_triang|]. lra. }
    replace (t - P' - (1 - S / r) * e) with (- (P' - (P + q)) + - (q - S * e / r))
      by (rewrite Het; field; lra).
    eapply Rle_trans; [apply Rabs_triang|]. rewrite !Rabs_Ropp.
    assert (roundoff * Rabs (P + q) <= roundoff * 60001)
      by (apply Rmult_le_compat_l; unfold roundoff; lra).
    assert (10 * roundoff * Rabs (S * e / r) <= 10 * roundoff * S)
      by (apply Rmult_le_compat_l; unfold roundoff; lra).
    unfold roundoff in *. lra. }
  pose proof (Hcomp ex tx X qx X' (norm2_ge_l ex ey) eq_refl Htx Hqx HX) as Hwx.
  pose proof (Hcomp ey ty Y qy Y' (norm2_ge_r ex ey) eq_refl Hty Hqy HY) as Hwy.
  set (a := 1 - S / r) in *.
  set (wx := tx - X' - a * ex) in *. set (wy := ty - Y' - a * ey) in *.
  pose proof (norm2_perturb (a * ex) (a * ey) wx wy) as Hp.
  replace (a * ex + wx) with (tx - X') in Hp by (unfold wx; ring).
  replace (a * ey + wy) with (ty - Y') in Hp by (unfold wy; ring).
  rewrite norm2_scale in Hp. fold r in Hp.
  assert (Har : Rabs a * r = Rabs (r - S)).
  { replace (r - S) with (a * r) by (unfold a; field; lra).
    by rewrite Rabs_mult, (Rabs_pos_eq r) by lra. }
  rewrite Har in Hp.
  assert (Hneg : - (6 * roundoff * 30000) <= r - S).
  { assert (6 * roundoff * r <= 6 * roundoff * 30000)
      by (apply Rmult_le_compat_l; unfold roundoff; lra). lra. }
  apply Rabs_le_both in Hp.
  assert (Habs : r - S <= Rabs (r - S) <= r - S + 2 * (6 * roundoff * 30000)).
  { unfold Rabs. destruct (Rcase_abs (r - S)); unfold roundoff in *; lra. }
  apply Rabs_le. unfold slack, roundoff in *. lra.
Qed.

(** One step of a unit within the bounds: it arrives, being at most its
    speed away up to [slack], or it moves on and the distance shrinks by
    the speed up to [slack]. *)
Lemma move_step (u : Unit) (t : Point2D) :
  _target u = Some t ->
  Rabs (to_R (px t)) <= 10000 -> Rabs (to_R (py t)) <= 10000 ->
  1 <= to_R (_speed u) <= 10000 ->
  distance t (_position u) <= 30000 ->
  (move u = Some (setTarget None (with_position t u)) /\
   distance t (_position u) <= to_R (_speed u) + slack) \/
  (exists p, move u = Some (with_position p u) /\
             to_R (_speed u) - slack <= distance t (_position u) /\
             Rabs (distance t p - (distance t (_position u) - to_R (_speed u))) <= slack).
Proof.
  intros Ht Hx Hy HS Hr.
  destruct (computed_distance t (_position u)) as (d & Hd & Hn).
  unfold move. rewrite Ht, Hd.
  pose proof (norm2_pos (to_R (px t) - to_R (px (_position u)))
                        (to_R (py t) - to_R (py (_position u)))) as Hr0.
  fold (distance t (_position u)) in Hr0.
  pose proof (near_bounds _ _ _ Hr0 Hn) as Hb.
  assert (H6 : 6 * roundoff * distance t (_position u) <= 6 * roundoff * 30000)
    by (apply Rmult_le_compat_l; unfold roundoff; lra).
  destruct (lessThanOrEqualTo d (_speed u)) eqn:Hle.
  - left. apply lessThanOrEqualTo_value in Hle. rewrite point_eta. split; [done|].
    unfold slack, roundoff in *. lra.
  - right.
    assert (Hgt : to_R (_speed u) < to_R d).
    { destruct (Rlt_le_dec (to_R (_speed u)) (to_R d)) as [|Hge]; [done|].
      apply lessThanOrEqualTo_value in Hge. congruence. }
    assert (Hpos : 0 < distance t (_position u)).
    { destruct (Rlt_le_dec 0 (distance t (_position u))) as [|Hz]; [done|].
      assert (distance t (_position u) = 0) by lra. unfold roundoff in *. lra. }
    destruct (computed_step (_speed u) (px t) (px (_position u)) d _ Hpos Hn)
      as (sx & Hsx & Hnx).
    destruct (computed_step (_speed u) (py t) (py (_position u)) d _ Hpos Hn)
      as (sy & Hsy & Hny).
    rewrite Hsx, Hsy. eexists. split; [reflexivity|]. split.
    + unfold slack, roundoff in *. lra.
    + unfold distance at 1. cbn [px py].
      apply (step_error (to_R (px (_position u))) (to_R (py (_position u)))
               (to_R (px t)) (to_R (py t)) (to_R (_speed u)) (to_R sx) (to_R sy)).
      * split; [exact Hpos|exact Hr].
      * exact HS.
      * exact Hx.
      * exact Hy.
      * fold (distance t (_position u)). lra.
      * exact Hnx.
      * exact Hny.
      * apply plus_near.
      * apply plus_near.
Qed.

(** ** The way to the target *)

Lemma approach (u : Unit) (t : Point2D) :
  _target u = Some t ->
  Rabs (to_R (px t)) <= 10000 -> Rabs (to_R (py t)) <= 10000 ->
  1 <= to_R (_speed u) <= 10000 ->
  forall (m k : nat) (w : Unit),
    moves k u = Some w -> on_course u t k w ->
    distance t (_position w) <= INR m / 2 -> distance t (_position w) <= 30000 ->
    exists n : nat,
      (k < n)%nat /\
      moves n u = Some (setTarget None (with_position t u)) /\
      forall j, (k <= j < n)%nat ->
        exists wj, moves j u = Some wj /\ on_course u t j wj /\
          ((j + 1 < n)%nat -> to_R (_speed u) - slack <= distance t (_position wj)) /\
          ((j + 1 = n)%nat -> distance t (_position wj) <= to_R (_speed u) + slack).
Proof.
  intros Ht Hx Hy HS.
  assert (Hstep : forall k w, moves k u = Some w -> on_course u t k w ->
            distance t (_position w) <= 30000 ->
            (moves (S k) u = Some (setTarget None (with_position t u)) /\
             distance t (_position w) <= to_R (_speed u) + slack) \/
            (exists w', moves (S k) u = Some w' /\ on_course u t (S k) w' /\
               to_R (_speed u) - slack <= distance t (_position w) /\
               distance t (_position w') <= distance t (_position w) - / 2)).
  { intros k w Hk [Hw Hc] Hr.
    assert (Htw : _target w = Some t) by (rewrite Hw; exact Ht).
    assert (Hsw : _speed w = _speed u) by (by rewrite Hw).
    destruct (move_step w t Htw Hx Hy ltac:(by rewrite Hsw) Hr) as [[Hm Hd]|(p & Hm & Hd & He)];
      rewrite Hsw in *.
    - left. split; [|done]. rewrite moves_snoc, Hk, Hm. by rewrite Hw.
    - right. exists (with_position p w). split; [by rewrite moves_snoc, Hk|].
      split; [split|split].
      + by rewrite Hw.
      + cbn [with_position _position]. rewrite S_INR.
        apply Rabs_le_both in Hc, He. apply Rabs_le. lra.
      + done.
      + cbn [with_position _position]. apply Rabs_le_both in He. unfold slack in *. lra. }
  induction m as [|m IH]; intros k w Hk Hc Hm Hr.
  - destruct (Hstep k w Hk Hc Hr) as [[Hn Hd]|(w' & _ & _ & Hd & _)].
    + exists (S k). split; [lia|]. split; [done|].
      intros j Hj. assert (j = k) as -> by lia. exists w.
      split; [done|]. split; [done|]. split; [lia|done].
    + exfalso. cbn in Hm. unfold slack in Hd. lra.
  - destruct (Hstep k w Hk Hc Hr) as [[Hn Hd]|(w' & Hk' & Hc' & Hd & Hless)].
    + exists (S k). split; [lia|]. split; [done|].
      intros j Hj. assert (j = k) as -> by lia. exists w.
      split; [done|]. split; [done|]. split; [lia|done].
    + destruct (IH (S k) w' Hk' Hc') as (n & Hkn & Hn & Hall).
      * rewrite S_INR in Hm. lra.
      * lra.
      * exists n. split; [lia|]. split; [done|].
        intros j Hj. destruct (decide (j = k)) as [->|Hne].
        -- exists w. split; [done|]. split; [done|]. split; [done|lia].
        -- apply Hall. lia.
Qed.

Lemma in_range_value d : in_range d = true -> Rabs (to_R d) <= 10000.
Proof.
  unfold in_range. intros H. apply andb_prop in H as [H1 H2].
  apply lessThanOrEqualTo_value in H1, H2. rewrite to_R_of_Z in H1, H2.
  apply Rabs_le. lra.
Qed.

Lemma speed_in_range_value d : speed_in_range d = true -> 1 <= to_R d <= 10000.
Proof.
  unfold speed_in_range. intros H. apply andb_prop in H as [H1 H2].
  apply lessThanOrEqualTo_value in H1, H2. rewrite to_R_of_Z in H1, H2. lra.
Qed.

Lemma distance_pos t p : 0 <= distance t p.
Proof. apply norm2_pos. Qed.

Lemma distance_in_range t p :
  Rabs (to_R (px t)) <= 10000 -> Rabs (to_R (py t)) <= 10000 ->
  Rabs (to_R (px p)) <= 10000 -> Rabs (to_R (py p)) <= 10000 ->
  distance t p <= 30000.
Proof.
  intros H1 H2 H3 H4. unfold distance.
  replace 30000 with (3 / 2 * 20000) by lra. apply norm2_le.
  - unfold Rminus. eapply Rle_trans; [apply Rabs_triang|]. rewrite Rabs_Ropp. lra.
  - unfold Rminus. eapply Rle_trans; [apply Rabs_triang|]. rewrite Rabs_Ropp. lra.
Qed.

(** The way of a unit within the bounds, in real numbers. *)
Lemma reaches_target (u : Unit) (t : Point2D) :
  _target u = Some t ->
  in_range (px (_position u)) = true -> in_range (py (_position u)) = true ->
  in_range (px t) = true -> in_range (py t) = true ->
  speed_in_range (_speed u) = true ->
  exists n : nat,
    (1 <= n)%nat /\
    moves n u = Some (setTarget None (with_position t u)) /\
    (forall k, (k < n)%nat ->
       exists w, moves k u = Some w /\ _target w = Some t /\
         Rabs (distance t (_position w)
               - (distance t (_position u) - INR k * to_R (_speed u))) <= tolerance) /\
    (INR n - 1) * to_R (_speed u) - tolerance <= distance t (_position u)
    /\ distance t (_position u) <= INR n * to_R (_speed u) + tolerance.
Proof.
  intros Ht Hpx Hpy Htx Hty Hs.
  apply in_range_value in Hpx, Hpy, Htx, Hty. apply speed_in_range_value in Hs.
  pose proof (distance_in_range t (_position u) Htx Hty Hpx Hpy) as HD.
  pose proof (distance_pos t (_position u)) as HD0.
  set (D := distance t (_position u)) in *. set (S := to_R (_speed u)) in *.
  destruct (approach u t Ht Htx Hty Hs (Z.to_nat 60000) 0 u) as (n & Hn0 & Hn & Hall).
  - reflexivity.
  - split; [by destruct u|]. cbn [INR]. fold D.
    replace (D - (D - 0 * to_R (_speed u))) with 0 by ring. rewrite Rabs_R0. lra.
  - rewrite INR_IZR_INZ, Z2Nat.id by lia. fold D. lra.
  - exact HD.
  - fold D S in Hall.
    destruct n as [|j]; [lia|].
    (* the last state before the arrival *)
    destruct (Hall j ltac:(lia)) as (wj & Hwj & [Hej Hcj] & _ & Hlast).
    specialize (Hlast ltac:(lia)). fold D S in Hcj.
    pose proof (distance_pos t (_position wj)) as Hrj.
    pose proof (pos_INR j) as Hj0.
    assert (HjS : INR j <= INR j * S).
    { rewrite <- (Rmult_1_r (INR j)) at 1. apply Rmult_le_compat_l; lra. }
    apply Rabs_le_both in Hcj.
    assert (Hj : INR j <= 30001) by (unfold slack in *; lra).
    assert (Hle : forall k, (k <= j)%nat -> INR k * slack <= tolerance / 2).
    { intros k Hk. apply le_INR in Hk. pose proof (pos_INR k).
      unfold slack, tolerance. lra. }
    exists (Datatypes.S j). split; [lia|]. split; [done|]. split; [|split].
    + intros k Hk. destruct (Hall k ltac:(lia)) as (w & Hw & [He Hc] & _).
      exists w. split; [done|]. split; [by rewrite He|].
      eapply Rle_trans; [exact Hc|]. specialize (Hle k ltac:(lia)).
      unfold tolerance in *. lra.
    + rewrite S_INR. destruct j as [|i].
      * cbn [INR]. unfold tolerance. lra.
      * destruct (Hall i ltac:(lia)) as (wi & _ & [_ Hci] & Hgo & _).
        specialize (Hgo ltac:(lia)). fold D S in Hci. apply Rabs_le_both in Hci.
        pose proof (Hle i ltac:(lia)) as Hi. rewrite S_INR in *.
        unfold tolerance, slack in *. lra.
    + rewrite S_INR. pose proof (Hle j ltac:(lia)) as Hjt.
      unfold tolerance, slack in *. lra.
Qed.

(** ** Integer positions, targets and speeds *)

Lemma ceil_steps_spec (D2 v : Z) :
  (0 < D2)%Z -> (0 < v)%Z ->
  (1 <= ceil_steps D2 v /\
   ((ceil_steps D2 v - 1) * v) ^ 2 < D2 <= (ceil_steps D2 v * v) ^ 2)%Z.
Proof.
  intros HD Hv. unfold ceil_steps.
  pose proof (Z.sqrt_up_spec D2 HD) as [Hs1 Hs2].
  pose proof (Z.sqrt_up_nonneg D2) as Hs0.
  set (s := Z.sqrt_up D2) in *. unfold Z.pred in Hs1.
  pose proof (Z.div_mod (s + v - 1) v ltac:(lia)) as Hdm.
  pose proof (Z.mod_pos_bound (s + v - 1) v Hv) as Hr.
  set (c := ((s + v - 1) / v)%Z) in *. set (r := ((s + v - 1) mod v)%Z) in *.
  rewrite !Z.pow_2_r in *.
  assert (Hs : (1 <= s)%Z) by nia.
  assert (Hc : (1 <= c)%Z) by nia.
  assert (Hlo : (0 <= (c - 1) * v <= s - 1)%Z) by nia.
  assert (Hhi : (s <= c * v)%Z) by nia.
  split; [done|]. split.
  - eapply Z.le_lt_trans; [|exact Hs1].
    apply Z.mul_le_mono_nonneg; lia.
  - eapply Z.le_trans; [exact Hs2|].
    apply Z.mul_le_mono_nonneg; lia.
Qed.

Lemma steps_are_ceil (D2 v N : Z) :
  (0 <= D2)%Z -> (0 < v)%Z -> (1 <= N)%Z ->
  (((N - 1) * v) ^ 2 <= D2 <= (N * v) ^ 2)%Z ->
  (N = ceil_steps D2 v \/ (N = ceil_steps D2 v + 1 /\ D2 = (ceil_steps D2 v * v) ^ 2))%Z.
Proof.
  intros HD Hv HN [H1 H2].
  destruct (decide (D2 = 0%Z)) as [->|Hne].
  - right. unfold ceil_steps. change (Z.sqrt_up 0) with 0%Z.
    rewrite Z.div_small by lia. rewrite Z.pow_2_r in H1. split; [nia|done].
  - destruct (ceil_steps_spec D2 v ltac:(lia) Hv) as (Hc & Hc1 & Hc2).
    set (c := ceil_steps D2 v) in *. rewrite !Z.pow_2_r in *.
    assert (c <= N)%Z by nia. assert (N <= c + 1)%Z by nia.
    destruct (decide (N = c)) as [->|HNc]; [by left|]. right.
    assert (N = c + 1)%Z as -> by lia. split; [done|].
    replace (c + 1 - 1)%Z with c in H1 by lia. lia.
Qed.

(** From the real bounds on the number of steps to the integer ones:
    two squares of integers that differ are at least 1 apart. *)
Lemma steps_integer (n : nat) (D2 v : Z) (D : R) :
  0 <= D <= 30000 -> D * D = IZR D2 -> (1 <= v <= 10000)%Z -> (1 <= n)%nat ->
  (INR n - 1) * IZR v - tolerance <= D -> D <= INR n * IZR v + tolerance ->
  (((Z.of_nat n - 1) * v) ^ 2 <= D2 <= (Z.of_nat n * v) ^ 2)%Z.
Proof.
  intros HD HD2 Hv Hn Hlo Hhi. rewrite INR_IZR_INZ in Hlo, Hhi.
  set (N := Z.of_nat n) in *. assert (HN : (1 <= N)%Z) by (unfold N; lia).
  rewrite !Z.pow_2_r.
  assert (Ha : (IZR N - 1) * IZR v = IZR ((N - 1) * v))
    by (by rewrite mult_IZR, minus_IZR).
  assert (Hb : IZR N * IZR v = IZR (N * v)) by (by rewrite mult_IZR).
  rewrite Ha in Hlo. rewrite Hb in Hhi.
  assert (Ha0 : 0 <= IZR ((N - 1) * v)) by (apply IZR_le; nia).
  assert (Hb0 : 0 <= IZR (N * v)) by (apply IZR_le; nia).
  assert (Hab : IZR (N * v) = IZR ((N - 1) * v) + IZR v).
  { rewrite <- plus_IZR. f_equal. lia. }
  assert (Hv1 : 1 <= IZR v <= 10000) by (split; apply IZR_le; lia).
  set (a := IZR ((N - 1) * v)) in *. set (b := IZR (N * v)) in *.
  split.
  - destruct (Z.le_gt_cases ((N - 1) * v * ((N - 1) * v)) D2) as [|Hgt]; [done|]. exfalso.
    assert (Hz : (D2 + 1 <= (N - 1) * v * ((N - 1) * v))%Z) by lia.
    apply IZR_le in Hz. rewrite plus_IZR, mult_IZR in Hz. fold a in Hz. rewrite <- HD2 in Hz.
    assert (a * a <= (D + tolerance) * (D + tolerance))
      by (apply Rmult_le_compat; unfold tolerance in *; lra).
    assert (tolerance * D <= tolerance * 30000)
      by (apply Rmult_le_compat_l; unfold tolerance; lra).
    unfold tolerance in *. lra.
  - destruct (Z.le_gt_cases D2 (N * v * (N * v))) as [|Hgt]; [done|]. exfalso.
    assert (Hz : (N * v * (N * v) + 1 <= D2)%Z) by lia.
    apply IZR_le in Hz. rewrite plus_IZR, mult_IZR in Hz. fold b in Hz. rewrite <- HD2 in Hz.
    assert (D * D <= (b + tolerance) * (b + tolerance))
      by (apply Rmult_le_compat; unfold tolerance in *; lra).
    assert (tolerance * b <= tolerance * 40001)
      by (apply Rmult_le_compat_l; unfold tolerance in *; lra).
    unfold tolerance in *. lra.
Qed.

Lemma distance_of_Z (x y tx ty : Z) :
  distance (mkPoint (of_Z tx) (of_Z ty)) (mkPoint (of_Z x) (of_Z y))
  * distance (mkPoint (of_Z tx) (of_Z ty)) (mkPoint (of_Z x) (of_Z y))
  = IZR ((tx - x) ^ 2 + (ty - y) ^ 2).
Proof.
  unfold distance. rewrite norm2_sqr. cbn [px py]. rewrite !to_R_of_Z.
  rewrite plus_IZR, !Z.pow_2_r, !mult_IZR, !minus_IZR. ring.
Qed.

(** C3 (as the code has it).  A unit whose coordinates and target lie
    between -10000 and 10000 and whose speed lies between 1 and 10000
    reaches its target: after some number [n] of updates, at least one,
    its position is the target itself and the target is cleared.  Before
    that, after [k < n] updates, the target is still set and the unit is
    as far from it as it should be, the distance [D] it started with less
    [k] times the speed [S], up to 10^-8: it has not passed the target.
    The number of updates is [ceil (D / S)] up to the rounding of the
    decimal operations, [(n - 1) * S - 10^-8 <= D <= n * S + 10^-8]; for
    integer coordinates, target and speed it is [ceil (D / S)] exactly,
    unless [D] is a multiple of [S], when it can also be one more. *)
Theorem unit_reaches_target (u : Unit) (t : Point2D) :
  _target u = Some t ->
  in_range (px (_position u)) = true -> in_range (py (_position u)) = true ->
  in_range (px t) = true -> in_range (py t) = true ->
  speed_in_range (_speed u) = true ->
  let S := to_R (_speed u) in
  let D := distance t (_position u) in
  exists n : nat,
    (1 <= n)%nat /\
    moves n u = Some (setTarget None (with_position t u)) /\
    (forall k, (k < n)%nat ->
       exists w, moves k u = Some w /\ _target w = Some t /\
         Rabs (distance t (_position w) - (D - INR k * S)) <= tolerance) /\
    ((INR n - 1) * S - tolerance <= D /\ D <= INR n * S + tolerance) /\
    (forall x y tx ty v : Z,
       _position u = mkPoint (of_Z x) (of_Z y) -> t = mkPoint (of_Z tx) (of_Z ty) ->
       _speed u = of_Z v ->
       let D2 := ((tx - x) ^ 2 + (ty - y) ^ 2)%Z in
       let c := ceil_steps D2 v in
       ((0 < D2)%Z -> (1 <= c /\ ((c - 1) * v) ^ 2 < D2 <= (c * v) ^ 2)%Z) /\
       (Z.of_nat n = c \/ (Z.of_nat n = c + 1 /\ D2 = (c * v) ^ 2)%Z)).
Proof.
  intros Ht Hpx Hpy Htx Hty Hs S D.
  destruct (reaches_target u t Ht Hpx Hpy Htx Hty Hs) as (n & Hn1 & Hn & Hway & Hlo & Hhi).
  exists n. split; [done|]. split; [done|]. split; [done|]. split; [done|].
  intros x y tx ty v Hp -> Hv D2 c.
  apply in_range_value in Hpx, Hpy, Htx, Hty. apply speed_in_range_value in Hs.
  pose proof (distance_in_range _ (_position u) Htx Hty Hpx Hpy) as HD.
  pose proof (distance_pos (mkPoint (of_Z tx) (of_Z ty)) (_position u)) as HD0.
  rewrite Hv, to_R_of_Z in Hs, Hlo, Hhi.
  assert (Hvz : (1 <= v <= 10000)%Z) by (split; apply le_IZR; lra).
  assert (HD2 : (0 <= D2)%Z) by (unfold D2; nia).
  split.
  - intros Hpos. apply ceil_steps_spec; lia.
  - apply steps_are_ceil; [done|lia|lia|].
    apply (steps_integer n D2 v (distance (mkPoint (of_Z tx) (of_Z ty)) (_position u)));
      try done.
    rewrite Hp. apply distance_of_Z.
Qed.

(** Outside the bounds a unit need not arrive at all.  At (10^21, 0),
    sent 100 further at speed 5: the step of 5 is lost when the new
    coordinate is rounded to 20 digits, so the unit stays where it is,
    target set, for ever. *)
Lemma far_unit_never_arrives :
  let u := mkUnit 0 0 true (of_Z 5) 18 "#FF0000"
                  (mkPoint (of_Z (10 ^ 21)) (of_Z 0))
                  (Some (mkPoint (of_Z (10 ^ 21 + 100)) (of_Z 0))) in
  forall n, moves n u = Some u.
Proof.
  intros u n. assert (Hm : move u = Some u) by (vm_compute; reflexivity).
  induction n as [|n IH]; [done|]. by rewrite moves_S, Hm.
Qed.

Lemma unit_reaches_target_witness :
  exists n : nat,
    moves n demo_unit
    = Some (setTarget None (with_position (mkPoint (of_Z 66) (of_Z 113)) demo_unit)) /\
    (Z.of_nat n = 13 \/ Z.of_nat n = 14)%Z.
Proof.
  destruct (unit_reaches_target demo_unit (mkPoint (of_Z 66) (of_Z 113)))
    as (n & _ & Hn & _ & _ & Hint).
  - reflexivity.
  - vm_compute. reflexivity.
  - vm_compute. reflexivity.
  - vm_compute. reflexivity.
  - vm_compute. reflexivity.
  - vm_compute. reflexivity.
  - exists n. split; [exact Hn|].
    destruct (Hint 50 50 66 113 5 eq_refl eq_refl eq_refl)%Z as [_ [H|[H _]]].
    + left. exact H.
    + right. exact H.
Defined.

End Course.
